(** * Sales analysis pipeline: [scripts/main_analysis.py]

    A shallow embedding of the join, cleaning and segmentation stages of
    the script, and the properties of its RFM and ABC-XYZ engines.

    Conventions of the embedding.
    - A pandas DataFrame is a list of rows (a record per row), or a
      record of columns where the code works column by column; a column
      is a list.
    - float64 values are exact rationals extended with the IEEE special
      values NaN, +inf and -inf ([num] below), where a property does not
      depend on rounding; the ABC categories, which do, are also given
      in binary64 ([AbcFloat]).
    - A missing value (None / NaN / NaT) is NaN in a column of [num] and
      [None] in every other column.
    - A Python exception is the [Raise] branch of [result]. *)

From Stdlib Require Import ZArith QArith Qround Bool List String Lia Lqa.
From Stdlib Require Import Permutation Sorted.
From Stdlib Require Floats.
Import ListNotations.

Local Open Scope Z_scope.

(** ** Exceptions *)

Inductive exn : Type :=
| ValueError (msg : string)
| KeyError (col : string)
| TypeError (msg : string).

Inductive result (A : Type) : Type :=
| Ok (a : A)
| Raise (e : exn).
Arguments Ok {A} a.
Arguments Raise {A} e.

Definition bind {A B} (c : result A) (k : A -> result B) : result B :=
  match c with
  | Ok a => k a
  | Raise e => Raise e
  end.

Notation "x <- c ;; k" := (bind c (fun x => k))
  (at level 61, c at next level, right associativity).

Definition returns {A} (c : result A) : Prop := exists a, c = Ok a.
Definition raises {A} (c : result A) : Prop := exists e, c = Raise e.

(** ** Missing values *)

(** [dropna()]: the values of a column that are not missing. *)
Fixpoint dropna {A} (col : list (option A)) : list A :=
  match col with
  | [] => []
  | Some a :: rest => a :: dropna rest
  | None :: rest => dropna rest
  end.

(** ** RFM segment assignment *)

Module Segment.

Local Open Scope string_scope.
Local Open Scope Z_scope.

(** A row of the scored RFM table, as [assign_segment] reads it. *)
Record scored_row : Type := mk_scored_row {
  R_Score : Z;
  F_Score : Z;
  M_Score : Z
}.

(** [assign_segment], lines 470-486: the if/elif chain on
    [r, f, m = int(row['R_Score']), int(row['F_Score']), int(row['M_Score'])]. *)
Definition assign_segment (row : scored_row) : string :=
  let r := R_Score row in
  let f := F_Score row in
  let m := M_Score row in
  if (r >=? 4) && (f >=? 4) && (m >=? 4) then "Champions"
  else if (r >=? 3) && (f >=? 3) && (m >=? 3) then "Loyal Customers"
  else if (r >=? 4) && (f <=? 2) && (m <=? 2) then "New Customers"
  else if (r >=? 3) && (f <=? 2) && (m <=? 2) then "Promising"
  else if (r <=? 2) && (f >=? 3) && (m >=? 3) then "Need Attention"
  else if (r <=? 2) && (f <=? 2) && (m <=? 2) then "Hibernating"
  else "Regular".

(** The decision table as the specification words it: an ordered list of
    (predicate, label) pairs over the score triple, first match wins. *)
Record rule : Type := mk_rule {
  rule_holds : Z -> Z -> Z -> Prop;
  rule_test : Z -> Z -> Z -> bool;
  rule_label : string
}.

Definition decision_table : list rule :=
  [ mk_rule (fun r f m => r >= 4 /\ f >= 4 /\ m >= 4)
            (fun r f m => (4 <=? r) && (4 <=? f) && (4 <=? m)) "Champions";
    mk_rule (fun r f m => r >= 3 /\ f >= 3 /\ m >= 3)
            (fun r f m => (3 <=? r) && (3 <=? f) && (3 <=? m)) "Loyal Customers";
    mk_rule (fun r f m => r >= 4 /\ f <= 2 /\ m <= 2)
            (fun r f m => (4 <=? r) && (f <=? 2) && (m <=? 2)) "New Customers";
    mk_rule (fun r f m => r >= 3 /\ f <= 2 /\ m <= 2)
            (fun r f m => (3 <=? r) && (f <=? 2) && (m <=? 2)) "Promising";
    mk_rule (fun r f m => r <= 2 /\ f >= 3 /\ m >= 3)
            (fun r f m => (r <=? 2) && (3 <=? f) && (3 <=? m)) "Need Attention";
    mk_rule (fun r f m => r <= 2 /\ f <= 2 /\ m <= 2)
            (fun r f m => (r <=? 2) && (f <=? 2) && (m <=? 2)) "Hibernating" ].

(** Each rule's test decides its predicate. *)
Definition rule_sound (ru : rule) : Prop :=
  forall r f m, rule_test ru r f m = true <-> rule_holds ru r f m.

Fixpoint first_match (rules : list rule) (default : string) (r f m : Z) : string :=
  match rules with
  | [] => default
  | ru :: rest =>
      if rule_test ru r f m then rule_label ru
      else first_match rest default r f m
  end.

Definition table_segment (r f m : Z) : string :=
  first_match decision_table "Regular" r f m.

(** Relational reading of "first match wins": the label of the first
    rule whose predicate holds, the default when none does. *)
Inductive first_wins (r f m : Z) (default : string) : list rule -> string -> Prop :=
| fw_default : first_wins r f m default [] default
| fw_hit ru rest :
    rule_holds ru r f m -> first_wins r f m default (ru :: rest) (rule_label ru)
| fw_skip ru rest lbl :
    ~ rule_holds ru r f m ->
    first_wins r f m default rest lbl ->
    first_wins r f m default (ru :: rest) lbl.

End Segment.

(** ** Numbers *)

Module Num.

Local Open Scope Q_scope.

(** A float64 value: a finite rational or one of the IEEE special
    values.  Arithmetic on finite values is exact; the special values
    follow IEEE 754 (a zero is the positive zero; NaN propagates and
    every comparison with NaN is false). *)
Inductive num : Type :=
| Fin (q : Q)
| PInf
| NInf
| NaN.

Definition Qlt_bool (x y : Q) : bool := negb (Qle_bool y x).

Definition of_Z (z : Z) : num := Fin (inject_Z z).

(** [x <= y] and [x < y] of Python floats. *)
Definition leb (x y : num) : bool :=
  match x, y with
  | NaN, _ | _, NaN => false
  | NInf, _ => true
  | _, PInf => true
  | Fin a, Fin b => Qle_bool a b
  | _, _ => false
  end.

Definition ltb (x y : num) : bool :=
  match x, y with
  | NaN, _ | _, NaN => false
  | NInf, NInf => false
  | PInf, PInf => false
  | NInf, _ => true
  | _, PInf => true
  | Fin a, Fin b => Qlt_bool a b
  | _, _ => false
  end.

Definition neg (x : num) : num :=
  match x with
  | Fin a => Fin (- a)
  | PInf => NInf
  | NInf => PInf
  | NaN => NaN
  end.

Definition add (x y : num) : num :=
  match x, y with
  | NaN, _ | _, NaN => NaN
  | Fin a, Fin b => Fin (a + b)
  | PInf, NInf | NInf, PInf => NaN
  | PInf, _ | _, PInf => PInf
  | NInf, _ | _, NInf => NInf
  end.

Definition sub (x y : num) : num := add x (neg y).

(** The infinity of the sign of [s * t], for [s] an infinity's sign
    ([true] is positive) and [t] a finite factor or divisor. *)
Definition signed_inf (positive : bool) : num :=
  if positive then PInf else NInf.

Definition mul (x y : num) : num :=
  match x, y with
  | NaN, _ | _, NaN => NaN
  | Fin a, Fin b => Fin (a * b)
  | Fin a, PInf | PInf, Fin a =>
      if Qeq_bool a 0 then NaN else signed_inf (Qlt_bool 0 a)
  | Fin a, NInf | NInf, Fin a =>
      if Qeq_bool a 0 then NaN else signed_inf (Qlt_bool a 0)
  | PInf, PInf | NInf, NInf => PInf
  | PInf, NInf | NInf, PInf => NInf
  end.

(** Float division as numpy performs it on a column: dividing by zero
    raises nothing, it gives NaN for 0/0 and an infinity otherwise. *)
Definition div (x y : num) : num :=
  match x, y with
  | NaN, _ | _, NaN => NaN
  | Fin a, Fin b =>
      if Qeq_bool b 0
      then (if Qeq_bool a 0 then NaN else signed_inf (Qlt_bool 0 a))
      else Fin (a / b)
  | Fin _, PInf | Fin _, NInf => Fin 0
  | PInf, Fin b => signed_inf (Qle_bool 0 b)
  | NInf, Fin b => signed_inf (Qlt_bool b 0)
  | _, _ => NaN
  end.

(** [pd.isnull] on a float: NaN is the missing value, an infinity is not. *)
Definition isnull (x : num) : bool :=
  match x with
  | NaN => true
  | _ => false
  end.

(** Equal as numbers: the same special value, or equal rationals. *)
Definition eqv (x y : num) : Prop :=
  match x, y with
  | Fin a, Fin b => a == b
  | PInf, PInf | NInf, NInf | NaN, NaN => True
  | _, _ => False
  end.

(** A float64 value that comes out of a square root: plus or minus the
    root of a non-negative rational, kept exact, or a special value. *)
Inductive root : Type :=
| Root (negative : bool) (square : Q)
| RootInf (negative : bool)
| RootNaN.

(** [x / d] for a root [x] and a float [d]. *)
Definition div_root (x : root) (d : num) : root :=
  match x, d with
  | RootNaN, _ | _, NaN => RootNaN
  | Root negative square, Fin q =>
      if Qeq_bool q 0
      then (if Qeq_bool square 0 then RootNaN else RootInf negative)
      else Root (xorb negative (Qlt_bool q 0)) (square / (q * q))
  | Root _ _, PInf | Root _ _, NInf => Root false 0
  | RootInf negative, Fin q => RootInf (xorb negative (Qlt_bool q 0))
  | RootInf _, PInf | RootInf _, NInf => RootNaN
  end.

(** [x <= t] for a root [x] and a rational [t]. *)
Definition leb_root (x : root) (t : Q) : bool :=
  match x with
  | Root false square => Qle_bool 0 t && Qle_bool square (t * t)
  | Root true square => Qle_bool 0 t || Qle_bool (t * t) square
  | RootInf negative => negative
  | RootNaN => false
  end.

End Num.

(** ** Cleaning and enrichment: [clean_data] *)

Module Clean.
Import Num.

Local Open Scope string_scope.

(** Element-wise operation on two columns of one frame. *)
Fixpoint zip_with {A B C} (f : A -> B -> C) (xs : list A) (ys : list B) : list C :=
  match xs, ys with
  | x :: xs', y :: ys' => f x y :: zip_with f xs' ys'
  | _, _ => []
  end.

(** [bins.searchsorted(x, side='left')] on increasing [bins]: the index
    of the first edge that is not below [x]. *)
Fixpoint searchsorted_left (bins : list num) (x : num) : nat :=
  match bins with
  | [] => O
  | b :: rest => if ltb b x then S (searchsorted_left rest x) else O
  end.

(** [pd.cut(x, bins, labels)] with its defaults [right=True],
    [include_lowest=False]: the value falls in the interval
    (bins[i-1], bins[i]] found by the search and takes [labels[i-1]];
    a value outside every interval, or a missing one, gives a missing
    label. *)
Definition cut (bins : list num) (labels : list string) (x : num) : option string :=
  let ids := searchsorted_left bins x in
  if isnull x || Nat.eqb ids (List.length bins) || Nat.eqb ids 0
  then None
  else nth_error labels (ids - 1).

Definition income_bins : list num :=
  [of_Z 0; of_Z 50000; of_Z 80000; of_Z 100000; PInf].

Definition income_labels : list string :=
  ["Low"; "Medium"; "High"; "Very High"].

(** Line 147: the income band of one value of the YearlyIncome column. *)
Definition income_segment (income : num) : option string :=
  cut income_bins income_labels income.

(** The columns of the joined frame that the derivations below read;
    a column the input does not have is [None]. *)
Record frame : Type := mk_frame {
  YearlyIncome : option (list num);
  SalesAmount : option (list num);
  TotalProductCost : option (list num)
}.

(** Lines 146-149: [df['IncomeSegment']], produced when the frame has
    a YearlyIncome column. *)
Definition IncomeSegment (df : frame) : option (list (option string)) :=
  match YearlyIncome df with
  | Some incomes => Some (map income_segment incomes)
  | None => None
  end.

(** Line 157: [sales - cost] for one record. *)
Definition profit (sales cost : num) : num := sub sales cost.

(** Line 158: [(profit / sales) * 100] for one record. *)
Definition profit_margin (sales cost : num) : num :=
  mul (div (profit sales cost) sales) (of_Z 100).

(** Lines 156-158: [df['Profit']] and [df['ProfitMargin']], produced
    when the frame has both source columns. *)
Definition Profit (df : frame) : option (list num) :=
  match SalesAmount df, TotalProductCost df with
  | Some sales, Some cost => Some (zip_with profit sales cost)
  | _, _ => None
  end.

Definition ProfitMargin (df : frame) : option (list num) :=
  match SalesAmount df, TotalProductCost df with
  | Some sales, Some cost => Some (zip_with profit_margin sales cost)
  | _, _ => None
  end.

(** The value of record [i] in a column that may be absent. *)
Definition at_record {A} (col : option (list A)) (i : nat) : option A :=
  match col with
  | Some xs => nth_error xs i
  | None => None
  end.

End Clean.

(** ** Joining the four tables: [merge_data] *)

Module Join.

(** A join key; [None] is a missing key.  pandas matches a missing key
    of the left table with a missing key of the right table. *)
Definition key : Type := option Z.

Definition key_eqb (a b : key) : bool :=
  match a, b with
  | Some x, Some y => Z.eqb x y
  | None, None => true
  | _, _ => false
  end.

(** The rows of a table that carry a given key. *)
Definition rows_with {R} (key_r : R -> key) (right : list R) (k : key) : list R :=
  filter (fun r => key_eqb k (key_r r)) right.

(** [left.merge(right, on=k, how='left')]: every row of [left], in
    order, paired with each row of [right] that has its key, or once
    with missing values when [right] has none. *)
Definition merge_left {L R} (key_l : L -> key) (key_r : R -> key)
    (left : list L) (right : list R) : list (L * option R) :=
  flat_map (fun l =>
    match rows_with key_r right (key_l l) with
    | [] => [(l, None)]
    | matches => map (fun r => (l, Some r)) matches
    end) left.

Section Tables.

(** The attribute columns of each table, other than its keys. *)
Variables SalesAttrs CustomerAttrs ProductAttrs TerritoryAttrs : Type.

Record sale : Type := mk_sale {
  CustomerKey : key;
  ProductKey : key;
  SalesTerritoryKey : key;
  sale_attrs : SalesAttrs
}.

Record customer : Type := mk_customer {
  customer_key : key;
  customer_attrs : CustomerAttrs
}.

Record product : Type := mk_product {
  product_key : key;
  product_attrs : ProductAttrs
}.

Record territory : Type := mk_territory {
  territory_key : key;
  territory_attrs : TerritoryAttrs
}.

(** A row of the joined frame: the sales row and, per dimension table,
    the attributes of the matching row ([None]: all of them missing). *)
Record merged : Type := mk_merged {
  m_sale : sale;
  m_customer : option CustomerAttrs;
  m_product : option ProductAttrs;
  m_territory : option TerritoryAttrs
}.

(** Lines 63-70: three chained left merges; each one keys on the
    column of the sales table. *)
Definition merge_data (customer_df : list customer) (product_df : list product)
    (sales_df : list sale) (territories_df : list territory) : list merged :=
  let with_customer :=
    merge_left CustomerKey customer_key sales_df customer_df in
  let with_product :=
    merge_left (fun row => ProductKey (fst row)) product_key
               with_customer product_df in
  let with_territory :=
    merge_left (fun row => SalesTerritoryKey (fst (fst row))) territory_key
               with_product territories_df in
  map (fun row =>
         match row with
         | (s, c, p, t) =>
             mk_merged s (option_map customer_attrs c)
                         (option_map product_attrs p)
                         (option_map territory_attrs t)
         end) with_territory.

(** The rows of a dimension table that carry a given key. *)
Definition customers_of (customer_df : list customer) (k : key) : list customer :=
  rows_with customer_key customer_df k.
Definition products_of (product_df : list product) (k : key) : list product :=
  rows_with product_key product_df k.
Definition territories_of (territories_df : list territory) (k : key) : list territory :=
  rows_with territory_key territories_df k.

(** What a left join gives for one dimension of one output row: the
    attributes of a row of the table with the sales row's key, or
    missing attributes when the table has no such row. *)
Definition left_joined {R A} (matches : list R) (attrs : R -> A)
    (out : option A) : Prop :=
  match out with
  | Some a => exists r, In r matches /\ attrs r = a
  | None => matches = []
  end.

(** The joined row of a sales row is that of a left join in each of
    the three dimensions. *)
Definition joined_row (customer_df : list customer) (product_df : list product)
    (territories_df : list territory) (row : merged) : Prop :=
  left_joined (customers_of customer_df (CustomerKey (m_sale row)))
              customer_attrs (m_customer row) /\
  left_joined (products_of product_df (ProductKey (m_sale row)))
              product_attrs (m_product row) /\
  left_joined (territories_of territories_df (SalesTerritoryKey (m_sale row)))
              territory_attrs (m_territory row).

(** The number of output rows of a sales row: one per combination of
    matching rows, a table without a match counting once. *)
Definition copies (customer_df : list customer) (product_df : list product)
    (territories_df : list territory) (s : sale) : nat :=
  (Nat.max 1 (List.length (customers_of customer_df (CustomerKey s)))
   * Nat.max 1 (List.length (products_of product_df (ProductKey s)))
   * Nat.max 1 (List.length (territories_of territories_df (SalesTerritoryKey s))))%nat.

End Tables.

Arguments mk_sale {SalesAttrs}.
Arguments CustomerKey {SalesAttrs}.
Arguments ProductKey {SalesAttrs}.
Arguments SalesTerritoryKey {SalesAttrs}.
Arguments sale_attrs {SalesAttrs}.
Arguments mk_customer {CustomerAttrs}.
Arguments customer_key {CustomerAttrs}.
Arguments customer_attrs {CustomerAttrs}.
Arguments mk_product {ProductAttrs}.
Arguments product_key {ProductAttrs}.
Arguments product_attrs {ProductAttrs}.
Arguments mk_territory {TerritoryAttrs}.
Arguments territory_key {TerritoryAttrs}.
Arguments territory_attrs {TerritoryAttrs}.
Arguments mk_merged {SalesAttrs CustomerAttrs ProductAttrs TerritoryAttrs}.
Arguments m_sale {SalesAttrs CustomerAttrs ProductAttrs TerritoryAttrs}.
Arguments m_customer {SalesAttrs CustomerAttrs ProductAttrs TerritoryAttrs}.
Arguments m_product {SalesAttrs CustomerAttrs ProductAttrs TerritoryAttrs}.
Arguments m_territory {SalesAttrs CustomerAttrs ProductAttrs TerritoryAttrs}.
Arguments merge_data {SalesAttrs CustomerAttrs ProductAttrs TerritoryAttrs}.
Arguments customers_of {CustomerAttrs}.
Arguments products_of {ProductAttrs}.
Arguments territories_of {TerritoryAttrs}.
Arguments copies {SalesAttrs CustomerAttrs ProductAttrs TerritoryAttrs}.
Arguments joined_row {SalesAttrs CustomerAttrs ProductAttrs TerritoryAttrs}.

End Join.

(** ** RFM metrics: [perform_rfm_analysis], lines 448-456 *)

Module Rfm.

Local Open Scope Z_scope.

(** The columns of the enriched frame that the RFM analysis reads.
    [OrderDate] is a timestamp in nanoseconds, [None] being NaT (what
    date coercion leaves for an unreadable date); [SalesAmount] is a
    finite amount or missing. *)
Record order_row : Type := mk_order {
  CustomerKey : option Z;
  OrderDate : option Z;
  SalesOrderNumber : option string;
  SalesAmount : option Q
}.

Definition frame : Type := list order_row.

(** [Series.max()] of a date column: the latest date that is not NaT;
    NaT when there is none. *)
Definition max_date (col : list (option Z)) : option Z :=
  match dropna col with
  | [] => None
  | d :: ds => Some (fold_left Z.max ds d)
  end.

(** [pd.Timedelta(days=1)] in nanoseconds. *)
Definition one_day : Z := 86400 * 1000000000.

(** [Timedelta.days]: whole days, rounded down. *)
Definition days (delta : Z) : Z := delta / one_day.

(** Line 448. *)
Definition snapshot_date (df : frame) : option Z :=
  option_map (fun latest => latest + one_day) (max_date (map OrderDate df)).

(** [groupby('CustomerKey')]: the group keys are the distinct customer
    keys that are not missing, in increasing order. *)
Fixpoint insert_key (k : Z) (keys : list Z) : list Z :=
  match keys with
  | [] => [k]
  | k' :: rest =>
      if k <? k' then k :: keys
      else if k =? k' then keys
      else k' :: insert_key k rest
  end.

Definition customer_keys (df : frame) : list Z :=
  fold_right insert_key [] (dropna (map CustomerKey df)).

Definition key_is (k : Z) (row : order_row) : bool :=
  match CustomerKey row with
  | Some k' => k =? k'
  | None => false
  end.

Definition group (df : frame) (k : Z) : frame := filter (key_is k) df.

(** Line 451: [(snapshot_date - x.max()).days] on the order dates of one
    customer; missing (NaN) when the customer has no valid order date. *)
Definition recency (snapshot : option Z) (dates : list (option Z)) : option Z :=
  match snapshot, max_date dates with
  | Some s, Some latest => Some (days (s - latest))
  | _, _ => None
  end.

(** Line 452: ['nunique'], the number of distinct order numbers that are
    not missing. *)
Definition nunique (col : list (option string)) : Z :=
  Z.of_nat (List.length (nodup string_dec (dropna col))).

(** Line 453: ['sum'], the sum of the amounts that are not missing, as
    a rational; [exact_amounts] below says when the sum of the code is
    that rational. *)
Definition sum (col : list (option Q)) : Q :=
  fold_left Qplus (dropna col) (0 # 1)%Q.

Record rfm_row : Type := mk_rfm {
  rfm_CustomerKey : Z;
  Recency : option Z;
  Frequency : Z;
  Monetary : Q
}.

(** Lines 448-456: one row per customer. *)
Definition rfm_table (df : frame) : list rfm_row :=
  let snapshot := snapshot_date df in
  map (fun k =>
         let g := group df k in
         mk_rfm k (recency snapshot (map OrderDate g))
                  (nunique (map SalesOrderNumber g))
                  (sum (map SalesAmount g)))
      (customer_keys df).

(** The amounts are whole numbers whose absolute values add up to less
    than 2^53.  Every sum of some of them is then exact, in int64 (no
    overflow) as in float64 (no rounding, in any order of the
    additions), so that ['sum'] is the sum of the rationals. *)
Definition exact_amounts (df : frame) : Prop :=
  Forall (fun q => Qden q = 1%positive) (dropna (map SalesAmount df)) /\
  fold_left Z.add (map (fun q => Z.abs (Qnum q)) (dropna (map SalesAmount df))) 0
  < 2 ^ 53.

(** The most recent valid order date of a customer. *)
Definition last_order (df : frame) (k : Z) : option Z :=
  max_date (map OrderDate (group df k)).

End Rfm.

(** ** ABC-XYZ product analysis: [perform_abc_xyz_analysis] *)

Module Abc.
Import Num.

Local Open Scope string_scope.
Local Open Scope Q_scope.

(** The columns of the enriched frame that the analysis reads.  A
    missing value is [None]; [OrderDate] is a timestamp in nanoseconds. *)
Record sales_row : Type := mk_sales_row {
  ProductKey : option Z;
  ProductName : option string;
  OrderDate : option Z;
  OrderQuantity : option Q;
  SalesAmount : option Q;
  Profit : option Q;
  SalesOrderNumber : option string
}.

(** The frame: its rows, and whether it has an OrderDate column at all
    (the grouping of lines 521-526 does not read that column). *)
Record frame : Type := mk_frame {
  has_OrderDate : bool;
  rows : list sales_row
}.

(** ['sum']: the sum of the values that are not missing. *)
Definition sum (col : list Q) : Q := fold_left Qplus col 0.

Definition nunique (col : list (option string)) : Z :=
  Z.of_nat (List.length (nodup string_dec (dropna col))).

(** *** ABC: lines 521-541 *)

(** [groupby(['ProductKey', 'ProductName'])]: the group keys are the
    distinct pairs without a missing component, in increasing order. *)
Definition group_key : Type := (Z * string)%type.

Definition key_compare (a b : group_key) : comparison :=
  match Z.compare (fst a) (fst b) with
  | Eq => String.compare (snd a) (snd b)
  | c => c
  end.

Fixpoint insert_key (k : group_key) (keys : list group_key) : list group_key :=
  match keys with
  | [] => [k]
  | k' :: rest =>
      match key_compare k k' with
      | Lt => k :: keys
      | Eq => keys
      | Gt => k' :: insert_key k rest
      end
  end.

Definition key_of (row : sales_row) : option group_key :=
  match ProductKey row, ProductName row with
  | Some k, Some n => Some (k, n)
  | _, _ => None
  end.

Definition group_keys (df : list sales_row) : list group_key :=
  fold_right insert_key [] (dropna (map key_of df)).

Definition in_group (k : group_key) (row : sales_row) : bool :=
  match key_of row with
  | Some k' => match key_compare k k' with Eq => true | _ => false end
  | None => false
  end.

(** A row of [product_sales] after the aggregation. *)
Record product : Type := mk_product {
  p_ProductKey : Z;
  p_ProductName : string;
  p_SalesAmount : Q;
  p_OrderQuantity : Q;
  p_Profit : Q;
  p_Orders : Z
}.

Definition aggregate (df : list sales_row) : list product :=
  map (fun k =>
         let g := filter (in_group k) df in
         mk_product (fst k) (snd k)
           (sum (dropna (map SalesAmount g)))
           (sum (dropna (map OrderQuantity g)))
           (sum (dropna (map Profit g)))
           (nunique (map SalesOrderNumber g)))
      (group_keys df).

(** [sort_values('SalesAmount', ascending=False)], line 528: products
    of equal revenue keep their order. *)
Fixpoint insert_desc (p : product) (sorted : list product) : list product :=
  match sorted with
  | [] => [p]
  | p' :: rest =>
      if Qlt_bool (p_SalesAmount p) (p_SalesAmount p')
      then p' :: insert_desc p rest
      else p :: sorted
  end.

Definition sort_values_desc (ps : list product) : list product :=
  fold_right insert_desc [] ps.

(** [cumsum()]: the running totals, each including its own element. *)
Fixpoint cumsum_from (acc : Q) (col : list Q) : list Q :=
  match col with
  | [] => []
  | x :: rest => (acc + x) :: cumsum_from (acc + x) rest
  end.

Definition cumsum (col : list Q) : list Q := cumsum_from 0 col.

(** Lines 529-530: [cumsum / sum * 100], the exact quotient; [AbcFloat]
    has its binary64 value. *)
Definition percentage (total running : Q) : num :=
  mul (div (Fin running) (Fin total)) (of_Z 100).

Definition cumulative_percentage (revenue : list Q) : list num :=
  map (percentage (sum revenue)) (cumsum revenue).

(** Lines 533-539. *)
Definition abc_category (x : num) : string :=
  if leb x (of_Z 80) then "A"
  else if leb x (of_Z 95) then "B"
  else "C".

(** A row of [product_sales] after line 541. *)
Record abc_row : Type := mk_abc_row {
  a_product : product;
  CumulativePercentage : num;
  ABC_Category : string
}.

Definition abc_analysis (df : list sales_row) : list abc_row :=
  let product_sales := sort_values_desc (aggregate df) in
  let pct := cumulative_percentage (map p_SalesAmount product_sales) in
  map (fun pp => mk_abc_row (fst pp) (snd pp) (abc_category (snd pp)))
      (combine product_sales pct).

(** The revenue column of the ABC table, in its order. *)
Definition revenue_column (abc : list abc_row) : list Q :=
  map (fun r => p_SalesAmount (a_product r)) abc.

(** *** XYZ: lines 544-572 *)

(** [dt.to_period('M')]: the month of a timestamp, counted from January
    1970 (the proleptic Gregorian calendar of the day number). *)
Definition to_period_M (ts : Z) : Z :=
  let z := (ts / 86400000000000 + 719468)%Z in
  let era := (z / 146097)%Z in
  let doe := (z - era * 146097)%Z in
  let yoe := ((doe - doe / 1460 + doe / 36524 - doe / 146096) / 365)%Z in
  let doy := (doe - (365 * yoe + yoe / 4 - yoe / 100))%Z in
  let mp := ((5 * doy + 2) / 153)%Z in
  let m := (if mp <? 10 then mp + 3 else mp - 9)%Z in
  let y := (yoe + era * 400 + (if m <=? 2 then 1 else 0))%Z in
  ((y - 1970) * 12 + (m - 1))%Z.

(** [df['OrderDate'].dt.to_period('M')], line 547; reading a column the
    frame does not have raises KeyError. *)
Definition order_periods (df : frame) : result (list (option Z)) :=
  if has_OrderDate df
  then Ok (map (fun r => option_map to_period_M (OrderDate r)) (rows df))
  else Raise (KeyError "OrderDate").

Fixpoint insert_Z (k : Z) (keys : list Z) : list Z :=
  match keys with
  | [] => [k]
  | k' :: rest =>
      if (k <? k')%Z then k :: keys
      else if (k =? k')%Z then keys
      else k' :: insert_Z k rest
  end.

Definition sorted_distinct (col : list Z) : list Z := fold_right insert_Z [] col.

(** The cells of the pivot: the sales lines with a product key and a
    month, as (product, month, quantity). *)
Definition pivot_cells (df : list sales_row) (periods : list (option Z))
    : list (Z * Z * option Q) :=
  dropna (map (fun rp =>
                 match ProductKey (fst rp), snd rp with
                 | Some k, Some p => Some (k, p, OrderQuantity (fst rp))
                 | _, _ => None
                 end)
              (combine df periods)).

(** Lines 545-550: [pivot_table(index='ProductKey', columns=month,
    values='OrderQuantity', aggfunc='sum').fillna(0)]: per product that
    has a dated line, the quantity of each month of the data, 0 for a
    month without a line of the product. *)
Definition pivot_table (df : list sales_row) (periods : list (option Z))
    : list (Z * list Q) :=
  let cells := pivot_cells df periods in
  let months := sorted_distinct (map (fun c => snd (fst c)) cells) in
  let products := sorted_distinct (map (fun c => fst (fst c)) cells) in
  map (fun k =>
         (k, map (fun p =>
                    sum (dropna (map snd
                      (filter (fun c => (fst (fst c) =? k)%Z && (snd (fst c) =? p)%Z)
                              cells))))
                 months))
      products.

(** [mean(axis=1)] and [std(axis=1)] (the sample deviation, [ddof=1]) of
    a row of the pivot; the deviation of fewer than two values is NaN. *)
Definition mean (xs : list Q) : num :=
  div (Fin (sum xs)) (of_Z (Z.of_nat (List.length xs))).

Definition std (xs : list Q) : root :=
  let n := List.length xs in
  if (n <=? 1)%nat then RootNaN
  else
    let m := sum xs / inject_Z (Z.of_nat n) in
    Root false (sum (map (fun x => (x - m) * (x - m)) xs)
                / inject_Z (Z.of_nat n - 1)).

(** Line 553. *)
Definition coefficient_of_variation (xs : list Q) : root :=
  div_root (std xs) (add (mean xs) (Fin (1 # 10000))).

(** Lines 558-564. *)
Definition xyz_category (cv : root) : string :=
  if leb_root cv (3 # 10) then "X"
  else if leb_root cv (6 # 10) then "Y"
  else "Z".

(** Line 555: the inner merge of [product_sales] with the CV series on
    the product key. *)
Definition lookup_cv (cv : list (Z * root)) (k : Z) : option root :=
  option_map snd (find (fun kc => (fst kc =? k)%Z) cv).

Definition merge_cv (product_sales : list abc_row) (cv : list (Z * root))
    : list (abc_row * root) :=
  dropna (map (fun r =>
                 option_map (fun c => (r, c))
                            (lookup_cv cv (p_ProductKey (a_product r))))
              product_sales).

(** A row of the result. *)
Record abcxyz_row : Type := mk_abcxyz_row {
  x_abc : abc_row;
  CV : option root;
  XYZ_Category : string;
  ABC_XYZ : string
}.

(** Lines 545-567, the body of the [try]. *)
Definition xyz_try (df : frame) (product_sales : list abc_row)
    : result (list abcxyz_row) :=
  periods <- order_periods df ;;
  let monthly_product_sales := pivot_table (rows df) periods in
  let cv := map (fun kq => (fst kq, coefficient_of_variation (snd kq)))
                monthly_product_sales in
  Ok (map (fun rc =>
             mk_abcxyz_row (fst rc) (Some (snd rc))
               (xyz_category (snd rc))
               (ABC_Category (fst rc) ++ "-" ++ xyz_category (snd rc)))
          (merge_cv product_sales cv)).

(** Lines 569-572, the handler. *)
Definition xyz_unknown (product_sales : list abc_row) : list abcxyz_row :=
  map (fun r => mk_abcxyz_row r None "Unknown" (ABC_Category r ++ "-Unknown"))
      product_sales.

(** The table the analysis returns.  It returns whenever the ABC table
    has a row; the exception it raises otherwise is in [AbcXyz]. *)
Definition perform_abc_xyz_analysis (df : frame) : list abcxyz_row :=
  let product_sales := abc_analysis (rows df) in
  match xyz_try df product_sales with
  | Ok result => result
  | Raise _ => xyz_unknown product_sales
  end.

(** Sales of two products, all of them in January 1970. *)
Definition single_month : frame :=
  mk_frame true
    [mk_sales_row (Some 1%Z) (Some "P1") (Some 0%Z) (Some 4) (Some 600)
                  (Some 0) (Some "SO1");
     mk_sales_row (Some 2%Z) (Some "P2") (Some 864000000000000%Z) (Some 1)
                  (Some 300) (Some 0) (Some "SO2");
     mk_sales_row (Some 1%Z) (Some "P1") (Some 1728000000000000%Z) (Some 2)
                  (Some 100) (Some 0) (Some "SO3")].

(** The same sales in a frame without an OrderDate column. *)
Definition no_order_date : frame := mk_frame false (rows single_month).

(** Descending order of revenue. *)
Definition descending (p p' : product) : Prop :=
  p_SalesAmount p' <= p_SalesAmount p.

(** A frame of one sales line for a product. *)
Definition sale_of (k : Z) (name : string) (amount : Q) : sales_row :=
  mk_sales_row (Some k) (Some name) (Some 0%Z) (Some 1) (Some amount)
               (Some 0) (Some name).

(** Three products with revenues 300, 600 and 100. *)
Definition revenue_600_300_100 : list sales_row :=
  [sale_of 1 "P1" 300; sale_of 2 "P2" 600; sale_of 3 "P3" 100].

(** Two products: one sold for 100, one with returns of 50. *)
Definition revenue_100_refund_50 : list sales_row :=
  [sale_of 1 "P1" 100; sale_of 2 "P2" (-50)].

End Abc.

(** ** Quantile binning: [Series.rank(method='first')] and [pd.qcut] *)

Module Qcut.
Import Num.

Local Open Scope Q_scope.

Definition count (f : Q -> bool) (col : list Q) : nat :=
  List.length (filter f col).

(** [rank(method='first')]: the rank of the value at position [i] is one
    more than the number of smaller values plus the number of equal
    values before it, so equal values are ranked in their order of
    appearance.  Ranks are floats. *)
Definition rank_at (col : list Q) (i : nat) : nat :=
  let v := nth i col 0 in
  S (count (fun w => Qlt_bool w v) col
     + count (fun w => Qeq_bool w v) (firstn i col)).

Definition of_nat (n : nat) : Q := inject_Z (Z.of_nat n).

Definition rank_first (col : list Q) : list Q :=
  map (fun i => of_nat (rank_at col i)) (seq 0 (List.length col)).

(** Increasing order of the values, as the quantile computation sorts
    them. *)
Fixpoint insert_asc (x : Q) (sorted : list Q) : list Q :=
  match sorted with
  | [] => [x]
  | y :: rest =>
      if Qle_bool x y then x :: sorted else y :: insert_asc x rest
  end.

Definition sort_asc (col : list Q) : list Q := fold_right insert_asc [] col.

(** [Series.quantile(p)] with linear interpolation, on the sorted
    values: the value at the fractional position [p * (n - 1)].  The
    position and the interpolation are exact here; what is proved of the
    Recency scores is also proved on any edges that
    [Extremes.quintile_edges_of] and [Extremes.edges_at_quintiles]
    describe, whatever their rounding. *)
Definition quantile (sorted : list Q) (p : Q) : Q :=
  let pos := p * inject_Z (Z.of_nat (List.length sorted) - 1) in
  let lo := Qfloor pos in
  let a := nth (Z.to_nat lo) sorted 0 in
  let b := nth (S (Z.to_nat lo)) sorted a in
  a + (pos - inject_Z lo) * (b - a).

(** The bin edges of [qcut(x, q)]: the quantiles at
    [np.linspace(0, 1, q + 1)]. *)
Definition quantile_edges (values : list Q) (q : nat) : list Q :=
  map (fun k => quantile (sort_asc values) (of_nat k / of_nat q))
      (seq 0 (S q)).

(** No two edges are equal. *)
Fixpoint all_distinct (bins : list Q) : bool :=
  match bins with
  | [] => true
  | b :: rest =>
      forallb (fun b' => negb (Qeq_bool b b')) rest && all_distinct rest
  end.

(** [bins.searchsorted(x, side='left')] on increasing edges. *)
Fixpoint searchsorted_left (bins : list Q) (x : Q) : nat :=
  match bins with
  | [] => O
  | b :: rest => if Qlt_bool b x then S (searchsorted_left rest x) else O
  end.

(** The bin of a value, as [qcut] assigns it ([right=True],
    [include_lowest=True]): bin [i] is (bins[i-1], bins[i]], the lowest
    edge belongs to bin 1, and a value outside the edges has no bin. *)
Definition bin_of (bins : list Q) (x : Q) : option nat :=
  let ids :=
    if Qeq_bool x (hd 0 bins) then 1%nat else searchsorted_left bins x in
  if Nat.eqb ids (List.length bins) || Nat.eqb ids 0 then None
  else Some ids.

Definition label_of (bins : list Q) (labels : list Z) (x : Q) : option Z :=
  match bin_of bins x with
  | Some ids => nth_error labels (ids - 1)
  | None => None
  end.

Definition duplicate_edges : exn :=
  ValueError "Bin edges must be unique".

(** [pd.qcut(x, q, labels)]: the edges are the quantiles of the values
    that are not missing; equal edges raise ValueError (the default
    [duplicates='raise']); a missing value gets a missing label. *)
Definition qcut (x : list (option Q)) (q : nat) (labels : list Z)
    : result (list (option Z)) :=
  match dropna x with
  | [] => Raise duplicate_edges
  | values =>
      let bins := quantile_edges values q in
      if all_distinct bins
      then Ok (map (fun v =>
                      match v with
                      | Some v => label_of bins labels v
                      | None => None
                      end) x)
      else Raise duplicate_edges
  end.

(** The quintile of the rank [r] among [n] ranks 1..n: the number of
    the first edge [1 + k (n - 1) / 5], k = 1..5, that is not below it. *)
Definition quintile (n r : nat) : nat :=
  if (r <=? 1)%nat then 1%nat
  else if negb (1 * (n - 1) <? 5 * (r - 1))%nat then 1%nat
  else if negb (2 * (n - 1) <? 5 * (r - 1))%nat then 2%nat
  else if negb (3 * (n - 1) <? 5 * (r - 1))%nat then 3%nat
  else if negb (4 * (n - 1) <? 5 * (r - 1))%nat then 4%nat
  else 5%nat.

(** The highest rank of quintile [k] among [n] ranks. *)
Definition upper (n k : nat) : nat :=
  match k with
  | O => O
  | _ => (1 + k * (n - 1) / 5)%nat
  end.

End Qcut.

(** ** RFM scores and segments: [perform_rfm_analysis], lines 462-488 *)

Module RfmScores.
Import Rfm Qcut.

Local Open Scope string_scope.
Local Open Scope Z_scope.

(** Lines 462-464. *)
Definition R_Score (rfm : list rfm_row) : result (list (option Z)) :=
  qcut (map (fun row => option_map inject_Z (Recency row)) rfm) 5 [5; 4; 3; 2; 1].


Definition F_Score (rfm : list rfm_row) : result (list (option Z)) :=
  qcut (map Some (rank_first (map (fun row => inject_Z (Frequency row)) rfm)))
       5 [1; 2; 3; 4; 5].

Definition M_Score (rfm : list rfm_row) : result (list (option Z)) :=
  qcut (map Some (rank_first (map Monetary rfm))) 5 [1; 2; 3; 4; 5].

(** [int(row[...])] of line 471: a missing score cannot be converted. *)
Definition to_int (score : option Z) : result Z :=
  match score with
  | Some z => Ok z
  | None => Raise (ValueError "cannot convert float NaN to integer")
  end.

Record profile : Type := mk_profile {
  p_rfm : rfm_row;
  p_R : option Z;
  p_F : option Z;
  p_M : option Z;
  Segment : string
}.

(** Line 488: [rfm.apply(assign_segment, axis=1)]. *)
Fixpoint assign_segments (rfm : list rfm_row) (r f m : list (option Z))
    : result (list profile) :=
  match rfm, r, f, m with
  | row :: rfm', r0 :: r', f0 :: f', m0 :: m' =>
      ri <- to_int r0 ;;
      fi <- to_int f0 ;;
      mi <- to_int m0 ;;
      rest <- assign_segments rfm' r' f' m' ;;
      Ok (mk_profile row r0 f0 m0
            (Segment.assign_segment (Segment.mk_scored_row ri fi mi)) :: rest)
  | _, _, _, _ => Ok []
  end.

Definition score_table (rfm : list rfm_row) : result (list profile) :=
  r <- R_Score rfm ;;
  f <- F_Score rfm ;;
  m <- M_Score rfm ;;
  assign_segments rfm r f m.

Definition perform_rfm_analysis (df : frame) : result (list profile) :=
  score_table (rfm_table df).

(** The number of customers that a score column gives the score [k]. *)
Definition score_count (scores : list (option Z)) (k : Z) : nat :=
  List.length (filter (fun s => match s with
                                | Some z => z =? k
                                | None => false
                                end) scores).

(** Every customer has a score between 1 and 5. *)
Definition scored_1_to_5 (n : nat) (scores : list (option Z)) : Prop :=
  List.length scores = n /\
  Forall (fun s => exists z, s = Some z /\ 1 <= z <= 5) scores.

(** The five scores are given to balanced groups: each to the fifth of
    the customers, rounded down or up. *)
Definition balanced (n : nat) (scores : list (option Z)) : Prop :=
  forall k, 1 <= k <= 5 ->
    (n / 5 <= score_count scores k <= (n + 4) / 5)%nat.

(** Scores follow the rank of [values] with ties in order of
    appearance: a larger value never scores lower, and of two equal
    values the later one never scores lower. *)
Definition ascending_by_rank (values : list Q) (scores : list (option Z)) : Prop :=
  forall i j zi zj,
    nth_error scores i = Some (Some zi) ->
    nth_error scores j = Some (Some zj) ->
    (nth i values 0 < nth j values 0)%Q \/
    ((nth i values 0 == nth j values 0)%Q /\ (i < j)%nat) ->
    zi <= zj.

(** Scores are inverted and follow the value alone: a larger value never
    scores higher, so equal values score the same. *)
Definition descending_by_value (values : list Q) (scores : list (option Z)) : Prop :=
  forall i j zi zj,
    nth_error scores i = Some (Some zi) ->
    nth_error scores j = Some (Some zj) ->
    (nth i values 0 <= nth j values 0)%Q ->
    zj <= zi.

(** The Frequency, Monetary and Recency columns as [qcut] sees them. *)
Definition frequency_values (rfm : list rfm_row) : list Q :=
  map (fun row => inject_Z (Frequency row)) rfm.

Definition monetary_values (rfm : list rfm_row) : list Q := map Monetary rfm.

Definition recency_values (rfm : list rfm_row) : list (option Q) :=
  map (fun row => option_map inject_Z (Recency row)) rfm.

(** One order line: customer, day of the order (counted from the
    epoch), order number and amount. *)
Definition order_on (customer day : Z) (number : string) (amount : Q) : order_row :=
  mk_order (Some customer) (Some (day * one_day)) (Some number) (Some amount).

(** Five customers who ordered on five different days. *)
Definition five_customers : frame :=
  [order_on 1 4 "SO1" 10; order_on 2 3 "SO2" 20; order_on 3 2 "SO3" 30;
   order_on 4 1 "SO4" 40; order_on 5 0 "SO5" 50].

(** Seven customers, two of whom last ordered on the same day: the
    Recency column is 1, 2, 3, 3, 4, 5, 6. *)
Definition tied_recency : frame :=
  [order_on 1 5 "SO1" 10; order_on 2 4 "SO2" 20; order_on 3 3 "SO3" 30;
   order_on 4 3 "SO4" 40; order_on 5 2 "SO5" 50; order_on 6 1 "SO6" 60;
   order_on 7 0 "SO7" 70].

(** Five customers who all last ordered on the same day. *)
Definition same_day : frame :=
  [order_on 1 0 "SO1" 10; order_on 2 0 "SO2" 20; order_on 3 0 "SO3" 30;
   order_on 4 0 "SO4" 40; order_on 5 0 "SO5" 50].

(** A single customer. *)
Definition one_customer : frame := [order_on 1 0 "SO1" 10].

(** Three customers with Monetary 100, 500, 1000 and different order
    days. *)
Definition three_customers : frame :=
  [order_on 1 0 "SO1" 100; order_on 2 3 "SO2" 500; order_on 3 7 "SO3" 1000].

End RfmScores.

(** ** The ends of the score scales *)

Module Extremes.

Local Open Scope Q_scope.

(** On an ascending scale the customer whose value is above every other
    value scores 5, the one whose value is below every other scores 1. *)
Definition ends_ascending (values : list Q) (scores : list (option Z)) : Prop :=
  forall j, (j < List.length values)%nat ->
    ((forall i, (i < List.length values)%nat -> i <> j ->
                nth i values 0 < nth j values 0) ->
     nth_error scores j = Some (Some 5%Z)) /\
    ((forall i, (i < List.length values)%nat -> i <> j ->
                nth j values 0 < nth i values 0) ->
     nth_error scores j = Some (Some 1%Z)).

(** On the inverted scale every customer with the least value scores 5
    and every customer with the greatest value scores 1. *)
Definition ends_inverted (values : list Q) (scores : list (option Z)) : Prop :=
  forall j v, nth_error values j = Some v ->
    ((forall w, In w values -> v <= w) ->
     nth_error scores j = Some (Some 5%Z)) /\
    ((forall w, In w values -> w <= v) ->
     nth_error scores j = Some (Some 1%Z)).

(** The same when some values are missing: the ends are those of the
    values that are present. *)
Definition ends_inverted_present (x : list (option Q))
    (scores : list (option Z)) : Prop :=
  forall j v, nth_error x j = Some (Some v) ->
    ((forall w, In (Some w) x -> v <= w) ->
     nth_error scores j = Some (Some 5%Z)) /\
    ((forall w, In (Some w) x -> w <= v) ->
     nth_error scores j = Some (Some 1%Z)).

(** The labels [qcut] gives once its edges are known: the binning of
    the values on the edges, a missing value staying missing. *)
Definition bin_labels (bins : list Q) (labels : list Z)
    (x : list (option Q)) : list (option Z) :=
  map (fun v => match v with
                | Some v => Qcut.label_of bins labels v
                | None => None
                end) x.

Definition least_of (values : list Q) (x : Q) : Prop :=
  (exists w, In w values /\ w == x) /\ forall w, In w values -> x <= w.

Definition greatest_of (values : list Q) (x : Q) : Prop :=
  (exists w, In w values /\ w == x) /\ forall w, In w values -> w <= x.

(** Six quintile edges of a column, whatever the rounding of the
    quantiles between the ends: they increase strictly ([qcut] raises
    otherwise), the first is the least value (the quantile at 0) and the
    last is the greatest value (the quantile at 1). *)
Definition quintile_edges_of (values bins : list Q) : Prop :=
  List.length bins = 6%nat /\ StronglySorted Qlt bins /\
  least_of values (hd 0 bins) /\ greatest_of values (nth 5 bins 0).

(** No two values of the column are equal. *)
Definition pairwise_distinct (values : list Q) : Prop :=
  ForallOrdPairs (fun a b => ~ a == b) values.

(** The six edges cut the column where the quantile positions
    [k (n - 1) / 5], k = 0..5, fall among its [n] values in increasing
    order: edge [k] is not below the value at the position rounded down
    and is below the value after it.  Linear interpolation between the
    two values gives such an edge, however the position and the
    interpolated value are rounded between them. *)
Definition edges_at_quintiles (values bins : list Q) : Prop :=
  let sorted := Qcut.sort_asc values in
  let n := List.length values in
  forall k, (k <= 5)%nat ->
    let lo := (k * (n - 1) / 5)%nat in
    nth lo sorted 0 <= nth k bins 0 /\
    ((S lo < n)%nat -> nth k bins 0 < nth (S lo) sorted 0).

(** Customer [a] is ahead of customer [b] on all three measures: more
    orders, more money, and a last order that is not older. *)
Definition ahead_of (a b : Rfm.rfm_row) : Prop :=
  (Rfm.Frequency b < Rfm.Frequency a)%Z /\
  Rfm.Monetary b < Rfm.Monetary a /\
  forall za zb, Rfm.Recency a = Some za -> Rfm.Recency b = Some zb ->
                (za <= zb)%Z.

(** Three customers with one, two and three orders; the one with the
    most orders ordered last and spent most. *)
Definition ranked_customers : Rfm.frame :=
  [RfmScores.order_on 1 0 "SO1" 10;
   RfmScores.order_on 2 1 "SO2" 20; RfmScores.order_on 2 2 "SO3" 20;
   RfmScores.order_on 3 3 "SO4" 30; RfmScores.order_on 3 4 "SO5" 30;
   RfmScores.order_on 3 5 "SO6" 30].

End Extremes.

(** ** The groups of the ABC table *)

Module AbcKeys.
Import Abc.

(** The order of the group keys. *)
Definition key_lt (a b : group_key) : Prop := key_compare a b = Lt.

(** The key of a row of the table. *)
Definition product_key (r : abc_row) : group_key :=
  (p_ProductKey (a_product r), p_ProductName (a_product r)).

(** The rows that the grouping keeps: those with a product key and a
    product name. *)
Definition keyed (row : sales_row) : bool :=
  match key_of row with
  | Some _ => true
  | None => false
  end.

End AbcKeys.

(** ** The monthly demand behind the XYZ classes *)

Module XyzData.
Import Abc.
Local Open Scope Q_scope.

(** The month of every sales line (line 547), when the frame has the
    OrderDate column. *)
Definition periods_of (df : frame) : list (option Z) :=
  map (fun r => option_map to_period_M (OrderDate r)) (rows df).

(** The months of the pivot table: its columns. *)
Definition months_of (df : frame) : list Z :=
  sorted_distinct (map (fun c => snd (fst c)) (pivot_cells (rows df) (periods_of df))).

(** The CV series of line 553. *)
Definition cv_series (df : frame) : list (Z * Num.root) :=
  map (fun kq => (fst kq, coefficient_of_variation (snd kq)))
      (pivot_table (rows df) (periods_of df)).

(** The product has a sales line with an order date. *)
Definition has_dated_line (df : frame) (k : Z) : bool :=
  existsb (fun row =>
             match ProductKey row, OrderDate row with
             | Some k', Some _ => (k' =? k)%Z
             | _, _ => false
             end)
          (rows df).

(** Two products, the second without any order date. *)
Definition undated_product : frame :=
  mk_frame true
    [mk_sales_row (Some 1%Z) (Some "P1"%string) (Some 0%Z) (Some 4) (Some 600)
                  (Some 0) (Some "SO1"%string);
     mk_sales_row (Some 2%Z) (Some "P2"%string) None (Some 1) (Some 300)
                  (Some 0) (Some "SO2"%string)].

(** One product sold in January and in February 1970. *)
Definition two_months : frame :=
  mk_frame true
    [mk_sales_row (Some 1%Z) (Some "P1"%string) (Some 0%Z) (Some 4) (Some 600)
                  (Some 0) (Some "SO1"%string);
     mk_sales_row (Some 1%Z) (Some "P1"%string) (Some 3456000000000000%Z)
                  (Some 1) (Some 300) (Some 0) (Some "SO2"%string)].

End XyzData.

(** ** More steps of [clean_data] *)

(** Line 88: [df.drop_duplicates()] with its default [keep='first'].  A
    row is dropped when an equal row came before it; rows are compared
    value by value, a missing value being equal to a missing value. *)
Module Dedup.

Section Rows.
Variable row : Type.
Variable eqb : row -> row -> bool.

Fixpoint drop_from (seen df : list row) : list row :=
  match df with
  | [] => []
  | r :: rest =>
      if existsb (eqb r) seen then drop_from seen rest
      else r :: drop_from (r :: seen) rest
  end.

Definition drop_duplicates (df : list row) : list row := drop_from [] df.

(** Line 89: [initial_count - len(df)]. *)
Definition removed (df : list row) : nat :=
  List.length df - List.length (drop_duplicates df).

End Rows.

Arguments drop_from {row} eqb seen df.
Arguments drop_duplicates {row} eqb df.
Arguments removed {row} eqb df.

End Dedup.

(** Lines 109-114: the [fillna] of the key columns. *)
Module Fill.

Local Open Scope string_scope.

(** The three columns the step touches; a column the frame does not
    have is [None]. *)
Record frame : Type := mk_frame {
  Color : option (list (option string));
  SubCategory : option (list (option string));
  Category : option (list (option string))
}.

(** [Series.fillna(value)]. *)
Definition fillna (value : string) (col : list (option string))
    : list (option string) :=
  map (fun x => match x with
                | Some s => Some s
                | None => Some value
                end) col.

(** Reading a column the frame does not have raises KeyError. *)
Definition column (name : string) (col : option (list (option string)))
    : result (list (option string)) :=
  match col with
  | Some c => Ok c
  | None => Raise (KeyError name)
  end.

Definition fill_key_columns (df : frame) : result frame :=
  let df :=
    match Color df with
    | Some c => mk_frame (Some (fillna "Not Specified" c)) (SubCategory df)
                         (Category df)
    | None => df
    end in
  match SubCategory df with
  | Some sub =>
      let df := mk_frame (Color df) (Some (fillna "Unknown" sub)) (Category df) in
      cat <- column "Category" (Category df) ;;
      Ok (mk_frame (Color df) (SubCategory df) (Some (fillna "Unknown" cat)))
  | None => Ok df
  end.

(** The column has no missing value. *)
Definition complete (col : option (list (option string))) : Prop :=
  exists c, col = Some c /\ Forall (fun x => x <> None) c.

End Fill.

(** Lines 141-143 and 152-153: day counts. *)
Module Dates.

Local Open Scope Z_scope.

(** [(ship - order).days] of one record; NaT gives a missing value. *)
Definition delivery_days (ship order : option Z) : option Z :=
  match ship, order with
  | Some s, Some o => Some (Rfm.days (s - o))
  | _, _ => None
  end.

(** The date columns of the frame, timestamps in nanoseconds. *)
Record frame : Type := mk_frame {
  OrderDate : option (list (option Z));
  ShipDate : option (list (option Z));
  BirthDate : option (list (option Z))
}.

(** Lines 135-143: the column is made inside the OrderDate branch. *)
Definition DeliveryDays (df : frame) : option (list (option Z)) :=
  match OrderDate df with
  | Some order =>
      match ShipDate df with
      | Some ship => Some (Clean.zip_with delivery_days ship order)
      | None => None
      end
  | None => None
  end.

(** Line 153: [(now - birth).days // 365], [now] being the time of the
    run. *)
Definition age (now : Z) (birth : option Z) : option Z :=
  option_map (fun b => Rfm.days (now - b) / 365) birth.

Definition Age (now : Z) (df : frame) : option (list (option Z)) :=
  option_map (map (age now)) (BirthDate df).

End Dates.

(** ** The figures of the final conclusion: [generate_final_conclusion] *)

Module Conclusion.
Import Num.

Local Open Scope string_scope.
Local Open Scope Q_scope.

(** The SalesAmount column of the ABC-XYZ result. *)
Definition SalesAmount (r : Abc.abcxyz_row) : Q :=
  Abc.p_SalesAmount (Abc.a_product (Abc.x_abc r)).

Definition is_A (r : Abc.abcxyz_row) : bool :=
  String.eqb (Abc.ABC_Category (Abc.x_abc r)) "A".

(** Lines 655-657. *)
Definition a_products_revenue (abc_xyz_results : list Abc.abcxyz_row) : Q :=
  Abc.sum (map SalesAmount (filter is_A abc_xyz_results)).

Definition total_revenue (abc_xyz_results : list Abc.abcxyz_row) : Q :=
  Abc.sum (map SalesAmount abc_xyz_results).

Definition a_percentage (abc_xyz_results : list Abc.abcxyz_row) : num :=
  mul (div (Fin (a_products_revenue abc_xyz_results))
           (Fin (total_revenue abc_xyz_results)))
      (of_Z 100).

(** Lines 651-652. *)
Definition segment_count (segment : string) (rfm_results : list RfmScores.profile)
    : nat :=
  List.length (filter (fun p => String.eqb (RfmScores.Segment p) segment)
                      rfm_results).

Definition champions_count := segment_count "Champions".
Definition hibernating_count := segment_count "Hibernating".

End Conclusion.

(** ** Key figures: [extract_insights] *)

Module Insights.
Import Num.

Local Open Scope string_scope.
Local Open Scope Q_scope.

(** The columns of the enriched frame that the function reads.  The
    sales columns are always there (they come from the sales table);
    Region, Category, OrderDate and Profit are read only when the frame
    has them. *)
Record row : Type := mk_row {
  CustomerKey : option Z;
  ProductKey : option Z;
  SalesOrderNumber : option string;
  SalesAmount : option Q;
  Region : option string;
  Category : option string;
  OrderDate : option Z;
  Profit : option Q
}.

Record frame : Type := mk_frame {
  has_Region : bool;
  has_Category : bool;
  has_OrderDate : bool;
  has_Profit : bool;
  rows : list row
}.

(** [Series.nunique()] of a column of keys. *)
Definition nunique (col : list (option Z)) : Z :=
  Z.of_nat (List.length (nodup Z.eq_dec (dropna col))).

Section Grouping.
Variable K : Type.
Variable compare : K -> K -> comparison.

(** [groupby(key)]: the group keys are the distinct keys that are not
    missing, in increasing order. *)
Fixpoint insert_key (k : K) (keys : list K) : list K :=
  match keys with
  | [] => [k]
  | k' :: rest =>
      match compare k k' with
      | Lt => k :: keys
      | Eq => keys
      | Gt => k' :: insert_key k rest
      end
  end.

Definition group_keys (col : list (option K)) : list K :=
  fold_right insert_key [] (dropna col).

Definition in_group (key : row -> option K) (k : K) (r : row) : bool :=
  match key r with
  | Some k' => match compare k k' with Eq => true | _ => false end
  | None => false
  end.

(** [df.groupby(key)['SalesAmount'].sum()]. *)
Definition revenue_by (key : row -> option K) (df : list row) : list (K * Q) :=
  map (fun k => (k, Abc.sum (dropna (map SalesAmount (filter (in_group key k) df)))))
      (group_keys (map key df)).

(** [idxmax()] and [idxmin()] with the value found: the first label of
    the largest (smallest) value; [None] stands for the ValueError of an
    empty series. *)
Fixpoint idxmax (s : list (K * Q)) : option (K * Q) :=
  match s with
  | [] => None
  | kv :: rest =>
      match idxmax rest with
      | Some best => if Qle_bool (snd best) (snd kv) then Some kv else Some best
      | None => Some kv
      end
  end.

Fixpoint idxmin (s : list (K * Q)) : option (K * Q) :=
  match s with
  | [] => None
  | kv :: rest =>
      match idxmin rest with
      | Some best => if Qle_bool (snd kv) (snd best) then Some kv else Some best
      | None => Some kv
      end
  end.

(** [nlargest(n)]: the first [n] entries in descending order of value,
    entries of equal value in their order. *)
Fixpoint insert_desc (p : K * Q) (sorted : list (K * Q)) : list (K * Q) :=
  match sorted with
  | [] => [p]
  | p' :: rest =>
      if Qlt_bool (snd p) (snd p') then p' :: insert_desc p rest
      else p :: sorted
  end.

Definition nlargest (n : nat) (s : list (K * Q)) : list (K * Q) :=
  firstn n (fold_right insert_desc [] s).

End Grouping.

Arguments insert_key {K} compare k keys.
Arguments group_keys {K} compare col.
Arguments in_group {K} compare key k r.
Arguments revenue_by {K} compare key df.
Arguments idxmax {K} s.
Arguments idxmin {K} s.
Arguments insert_desc {K} p sorted.
Arguments nlargest {K} n s.

(** Lines 380-383. *)
Definition total_revenue (df : frame) : Q :=
  Abc.sum (dropna (map SalesAmount (rows df))).

Definition orders (df : frame) : list (string * Q) :=
  revenue_by String.compare SalesOrderNumber (rows df).

(** The mean of an empty series is NaN. *)
Definition avg_order_value (df : frame) : num := Abc.mean (map snd (orders df)).

(** Lines 391-395.  [int(n * 0.2)] is the whole part of a fifth of
    [n]. *)
Definition customer_value (df : frame) : list (Z * Q) :=
  revenue_by Z.compare CustomerKey (rows df).

Definition top_20_percent (df : frame) : nat :=
  (List.length (customer_value df) / 5)%nat.

Definition top_20_customers (df : frame) : Q :=
  Abc.sum (map snd (nlargest (top_20_percent df) (customer_value df))).

Definition percent_top_20 (df : frame) : num :=
  mul (div (Fin (top_20_customers df)) (Fin (total_revenue df))) (of_Z 100).

(** Line 413: [dt.month], from 1 to 12. *)
Definition month (r : row) : option Z :=
  option_map (fun ts => (Abc.to_period_M ts mod 12 + 1)%Z) (OrderDate r).

(** Lines 428-429. *)
Definition total_profit (df : frame) : Q :=
  Abc.sum (dropna (map Profit (rows df))).

Definition avg_profit_margin (df : frame) : num :=
  mul (div (Fin (total_profit df)) (Fin (total_revenue df))) (of_Z 100).

(** An insight: what the formatted line reports. *)
Inductive insight : Type :=
| TotalRevenue (revenue : Q)
| Customers (n : Z)
| Products (n : Z)
| AverageOrder (value : num)
| Top20 (percent : num)
| BestRegion (region : string) (revenue : Q)
| BestCategory (category : string) (revenue : Q)
| BestMonth (month : Z) (revenue : Q)
| WorstMonth (month : Z) (revenue : Q)
| TotalProfit (profit : Q)
| AverageMargin (percent : num).

Definition empty_argmax : exn :=
  ValueError "attempt to get argmax of an empty sequence".

(** Lines 400-403 and 406-409: the best group of a column the frame
    has. *)
Definition best_of (present : bool) (key : row -> option string)
    (make : string -> Q -> insight) (df : frame) (insights : list insight)
    : result (list insight) :=
  if present
  then match idxmax (revenue_by String.compare key (rows df)) with
       | Some (name, revenue) => Ok (insights ++ [make name revenue])%list
       | None => Raise empty_argmax
       end
  else Ok insights.

Definition extract_insights (df : frame) : result (list insight) :=
  let insights :=
    [TotalRevenue (total_revenue df);
     Customers (nunique (map CustomerKey (rows df)));
     Products (nunique (map ProductKey (rows df)));
     AverageOrder (avg_order_value df)] in
  let insights :=
    if (0 <? List.length (customer_value df))%nat
    then (insights ++ [Top20 (percent_top_20 df)])%list
    else insights in
  insights <- best_of (has_Region df) Region BestRegion df insights ;;
  insights <- best_of (has_Category df) Category BestCategory df insights ;;
  let insights :=
    if has_OrderDate df
    then
      let monthly_revenue := revenue_by Z.compare month (rows df) in
      match idxmax monthly_revenue, idxmin monthly_revenue with
      | Some (best_month, best), Some (worst_month, worst) =>
          (insights ++ [BestMonth best_month best; WorstMonth worst_month worst])%list
      | _, _ => insights
      end
    else insights in
  let insights :=
    if has_Profit df
    then (insights ++ [TotalProfit (total_profit df);
                       AverageMargin (avg_profit_margin df)])%list
    else insights in
  Ok insights.

(** What stands at a place of the list: lines 669 and 676 of the
    conclusion print [insights[4]] and [insights[5]] when the list is
    long enough. *)
Definition is_top20 (i : option insight) : bool :=
  match i with
  | Some (Top20 _) => true
  | _ => false
  end.

Definition is_region (i : option insight) : bool :=
  match i with
  | Some (BestRegion _ _) => true
  | _ => false
  end.

(** The rows with an order number, and those with a customer key. *)
Definition ordered (r : row) : bool :=
  match SalesOrderNumber r with
  | Some _ => true
  | None => false
  end.

Definition with_customer (r : row) : bool :=
  match CustomerKey r with
  | Some _ => true
  | None => false
  end.

(** Two orders of one customer, without the optional columns. *)
Definition two_orders : frame :=
  mk_frame false false false false
    [mk_row (Some 1%Z) (Some 1%Z) (Some "SO1") (Some 100) None None None None;
     mk_row (Some 1%Z) (Some 2%Z) (Some "SO1") (Some 50) None None None None;
     mk_row (Some 1%Z) (Some 1%Z) (Some "SO2") (Some 30) None None None None].

(** Two regions with the same revenue. *)
Definition two_regions : frame :=
  mk_frame true false false false
    [mk_row (Some 1%Z) (Some 1%Z) (Some "SO1") (Some 100) (Some "South") None
            None None;
     mk_row (Some 2%Z) (Some 1%Z) (Some "SO2") (Some 100) (Some "North") None
            None None].

End Insights.

(** ** Tick labels of the product chart: [create_eda_visualizations] *)

Module Labels.

Section Characters.
(** A label is a sequence of characters; [dot] is the full stop. *)
Variable char : Type.
Variable dot : char.

(** Line 242: [label[:25] + '...' if len(label) > 25 else label]. *)
Definition tick_label (label : list char) : list char :=
  if (25 <? List.length label)%nat
  then firstn 25 label ++ [dot; dot; dot]
  else label.

End Characters.

Arguments tick_label {char} dot label.

End Labels.

(** ** The XYZ stage with its exceptions: lines 544-572 *)

Module AbcXyz.
Import Num Abc.

Local Open Scope string_scope.

(** The type of the ABC_Category column that [apply] builds, line 541:
    strings, but an empty float64 column when the table has no row
    ([apply] on an empty column keeps its type).  The merge of line 555
    keeps the type of the column. *)
Inductive dtype : Type :=
| object
| float64.

Definition category_dtype (product_sales : list abc_row) : dtype :=
  match product_sales with
  | [] => float64
  | _ :: _ => object
  end.

Definition float_plus_str : exn :=
  TypeError "ufunc 'add' did not contain a loop with signature matching types".

(** [product_sales['ABC_Category'] + '-...'], lines 566 and 572: a
    string cannot be added to a float64 column, even an empty one. *)
Definition add_str (d : dtype) : result unit :=
  match d with
  | object => Ok tt
  | float64 => Raise float_plus_str
  end.

(** Lines 545-555: the pivot, the coefficients of variation and their
    merge into the table. *)
Definition merged_cv (df : frame) (product_sales : list abc_row)
    : result (list (abc_row * root)) :=
  periods <- order_periods df ;;
  let monthly_product_sales := pivot_table (rows df) periods in
  let cv := map (fun kq => (fst kq, coefficient_of_variation (snd kq)))
                monthly_product_sales in
  Ok (merge_cv product_sales cv).

(** Lines 565-566 on the merged table. *)
Definition xyz_rows (merged : list (abc_row * root)) : list abcxyz_row :=
  map (fun rc =>
         mk_abcxyz_row (fst rc) (Some (snd rc))
           (xyz_category (snd rc))
           (ABC_Category (fst rc) ++ "-" ++ xyz_category (snd rc)))
      merged.

(** Lines 569-572, the handler.  It works on the table that
    [product_sales] names when the exception is caught: the ABC table,
    without a CV column, before the merge of line 555, and the merged
    table after it. *)
Definition unknown_rows (current : list (abc_row * option root))
    : list abcxyz_row :=
  map (fun rc =>
         mk_abcxyz_row (fst rc) (snd rc) "Unknown"
           (ABC_Category (fst rc) ++ "-Unknown"))
      current.

Definition handler (d : dtype) (current : list (abc_row * option root))
    : result (list abcxyz_row) :=
  match add_str d with
  | Ok _ => Ok (unknown_rows current)
  | Raise e => Raise e
  end.

(** Lines 544-572 for a given outcome of lines 545-555: [except
    Exception] catches whatever the [try] raises.  An exception of lines
    545-555 leaves [product_sales] the ABC table; after line 555 it is
    the merged table. *)
Definition try_except (product_sales : list abc_row)
    (outcome : result (list (abc_row * root))) : result (list abcxyz_row) :=
  let d := category_dtype product_sales in
  match outcome with
  | Raise _ => handler d (map (fun r => (r, None)) product_sales)
  | Ok merged =>
      match add_str d with
      | Ok _ => Ok (xyz_rows merged)
      | Raise _ => handler d (map (fun rc => (fst rc, Some (snd rc))) merged)
      end
  end.

Definition perform_abc_xyz_analysis (df : frame) : result (list abcxyz_row) :=
  let product_sales := abc_analysis (rows df) in
  try_except product_sales (merged_cv df product_sales).

(** A frame without rows and without an OrderDate column. *)
Definition no_sales : frame := mk_frame false [].

End AbcXyz.

(** ** The ABC categories in binary64: lines 529-541 *)

(** [SalesAmount] is a float64 column here, as a column of decimal
    amounts is; the operations are those of IEEE 754 binary64, rounding
    to nearest.  (An int64 column whose sums stay below 2^53 gives the
    same values.) *)
Module AbcFloat.
Import PrimFloat.

Local Open Scope string_scope.
Local Open Scope float_scope.
#[local] Set Warnings "-inexact-float".

(** A missing value counts as 0 in [cumsum()] and [sum()]. *)
Definition fill (x : float) : float := if is_nan x then 0 else x.

(** [cumsum()], line 529: the running totals from the first row down,
    each including its own row; the row of a missing value gets NaN. *)
Fixpoint cumsum_from (acc : float) (col : list float) : list float :=
  match col with
  | [] => []
  | x :: rest =>
      (if is_nan x then nan else acc + x) :: cumsum_from (acc + fill x) rest
  end.

Definition cumsum (col : list float) : list float :=
  match col with
  | [] => []
  | x :: rest => (if is_nan x then nan else x) :: cumsum_from (fill x) rest
  end.

(** [sum()], line 530.  The order in which the values are added is the
    library's (numpy adds in blocks and pairs), and the rounding of the
    total depends on it: [adds_up col total] says that [total] is what
    the additions of the values of [col] give in some order. *)
Inductive additions : Type :=
| term (x : float)
| plus (l r : additions).

Fixpoint terms (t : additions) : list float :=
  match t with
  | term x => [x]
  | plus l r => terms l ++ terms r
  end.

Fixpoint value (t : additions) : float :=
  match t with
  | term x => x
  | plus l r => value l + value r
  end.

Definition adds_up (col : list float) (total : float) : Prop :=
  (col = [] /\ total = 0) \/
  exists t, Permutation (terms t) (map fill col) /\ value t = total.

(** Lines 529-530: [cumsum / sum * 100]. *)
Definition percentage (total running : float) : float :=
  running / total * 100.

Definition cumulative_percentage (revenue : list float) (total : float)
    : list float :=
  map (percentage total) (cumsum revenue).

(** Lines 533-539. *)
Definition abc_category (x : float) : string :=
  if x <=? 80 then "A"
  else if x <=? 95 then "B"
  else "C".

(** The running total of the rows down to a row, added from the first
    row on. *)
Definition running_total (col : list float) : float :=
  match col with
  | [] => 0
  | x :: rest => fold_left add (map fill rest) (fill x)
  end.

Section Table.
Variable product : Type.
Variable SalesAmount : product -> float.

(** A row of [product_sales] after line 541. *)
Record abc_row : Type := mk_abc_row {
  a_product : product;
  CumulativePercentage : float;
  ABC_Category : string
}.

(** [sort_values('SalesAmount', ascending=False)], line 528: descending
    revenue, a missing revenue last.  [x] may come before [y] when [y]
    is missing or [x] is not below [y]. *)
Definition precedes (x y : float) : bool :=
  if is_nan y then true
  else if is_nan x then false
  else negb (x <? y).

(** Equal revenues keep their order here; the library's quicksort may
    arrange them otherwise. *)
Fixpoint insert_desc (p : product) (sorted : list product) : list product :=
  match sorted with
  | [] => [p]
  | p' :: rest =>
      if precedes (SalesAmount p) (SalesAmount p') then p :: sorted
      else p' :: insert_desc p rest
  end.

Definition sort_values_desc (ps : list product) : list product :=
  fold_right insert_desc [] ps.

(** Every row may come before the next one. *)
Definition descending (ps : list product) : Prop :=
  Sorted (fun a b => precedes (SalesAmount a) (SalesAmount b) = true) ps.

(** Lines 529-541 on the sorted table, [total] being the value of
    [sum()]. *)
Definition abc_rows (sorted : list product) (total : float) : list abc_row :=
  let pct := cumulative_percentage (map SalesAmount sorted) total in
  map (fun pp => mk_abc_row (fst pp) (snd pp) (abc_category (snd pp)))
      (combine sorted pct).

End Table.

Arguments a_product {product} _.
Arguments CumulativePercentage {product} _.
Arguments ABC_Category {product} _.
Arguments abc_rows {product} SalesAmount sorted total.
Arguments insert_desc {product} SalesAmount p sorted.
Arguments sort_values_desc {product} SalesAmount ps.
Arguments descending {product} SalesAmount ps.

End AbcFloat.

(** * Properties *)

Lemma in_dropna {A} (col : list (option A)) (a : A) :
  In a (dropna col) <-> In (Some a) col.
Proof.
  induction col as [|[b|] col IH]; cbn; [tauto| |].
  - rewrite IH. split; intros [H|H]; auto; left; congruence.
  - rewrite IH. split; [auto|]. intros [H|H]; [discriminate|exact H].
Qed.

Lemma dropna_map_Some {A} (col : list A) : dropna (map Some col) = col.
Proof.
  induction col as [|x col IH]; cbn; congruence.
Qed.

Module SegmentFacts.
Import Segment.
Local Open Scope string_scope.
Local Open Scope Z_scope.

Lemma decision_table_sound : Forall rule_sound decision_table.
Proof.
  unfold decision_table.
  repeat (apply Forall_cons; [intros r f m; cbn;
    rewrite ?andb_true_iff, ?Z.leb_le; lia|]).
  apply Forall_nil.
Qed.

Lemma first_match_first_wins rules default r f m :
  Forall rule_sound rules ->
  first_wins r f m default rules (first_match rules default r f m).
Proof.
  induction 1 as [|ru rest Hru _ IH]; cbn.
  - constructor.
  - destruct (rule_test ru r f m) eqn:E.
    + apply fw_hit, Hru, E.
    + apply fw_skip; [|exact IH].
      intro H. apply Hru in H. congruence.
Qed.

Lemma first_wins_functional r f m default rules l1 l2 :
  first_wins r f m default rules l1 ->
  first_wins r f m default rules l2 -> l1 = l2.
Proof.
  induction 1; inversion 1; subst; auto; contradiction.
Qed.

Lemma assign_segment_table row :
  assign_segment row = table_segment (R_Score row) (F_Score row) (M_Score row).
Proof.
  unfold assign_segment, table_segment, decision_table; cbn.
  rewrite !Z.geb_leb. reflexivity.
Qed.

End SegmentFacts.

Module NumFacts.
Import Num.
Local Open Scope Q_scope.

Lemma Qlt_bool_iff x y : Qlt_bool x y = true <-> x < y.
Proof.
  unfold Qlt_bool. rewrite negb_true_iff.
  split; intro H.
  - apply Qnot_le_lt. intro L. apply Qle_bool_iff in L. congruence.
  - destruct (Qle_bool y x) eqn:E; [|reflexivity].
    apply Qle_bool_iff in E. exfalso. apply (Qlt_not_le _ _ H E).
Qed.

Lemma Qlt_bool_false x y : Qlt_bool x y = false <-> y <= x.
Proof.
  unfold Qlt_bool. rewrite negb_false_iff. apply Qle_bool_iff.
Qed.

Lemma Qle_bool_false x y : Qle_bool x y = false <-> y < x.
Proof.
  rewrite <- Qlt_bool_iff. unfold Qlt_bool.
  destruct (Qle_bool x y); cbn; intuition congruence.
Qed.

Lemma Qeq_bool_false x y : Qeq_bool x y = false <-> ~ x == y.
Proof.
  split.
  - intros E H. apply Qeq_bool_iff in H. congruence.
  - intro H. destruct (Qeq_bool x y) eqn:E; [|reflexivity].
    apply Qeq_bool_iff in E. contradiction.
Qed.

End NumFacts.

(** Turns every boolean comparison of rationals in the context and the
    goal into the proposition it decides. *)
Ltac q_reflect :=
  repeat match goal with
  | H : Qle_bool _ _ = true |- _ => apply Qle_bool_iff in H
  | H : Qle_bool _ _ = false |- _ => apply NumFacts.Qle_bool_false in H
  | H : Num.Qlt_bool _ _ = true |- _ => apply NumFacts.Qlt_bool_iff in H
  | H : Num.Qlt_bool _ _ = false |- _ => apply NumFacts.Qlt_bool_false in H
  | H : Qeq_bool _ _ = true |- _ => apply Qeq_bool_iff in H
  | H : Qeq_bool _ _ = false |- _ => apply NumFacts.Qeq_bool_false in H
  end.

(** Settles closed comparisons of rational constants. *)
Ltac q_decide := repeat split; unfold Qle, Qlt, Qeq; cbn; lia.

Ltac q_cases :=
  repeat match goal with
  | |- context [Qle_bool ?a ?b] => destruct (Qle_bool a b) eqn:?
  | |- context [Num.Qlt_bool ?a ?b] => destruct (Num.Qlt_bool a b) eqn:?
  | |- context [Qeq_bool ?a ?b] => destruct (Qeq_bool a b) eqn:?
  end; q_reflect.

Module CleanFacts.
Import Num NumFacts Clean.
Local Open Scope string_scope.
Local Open Scope Q_scope.

Lemma zip_with_nth_error {A B C} (f : A -> B -> C) xs ys i x y :
  nth_error xs i = Some x -> nth_error ys i = Some y ->
  nth_error (zip_with f xs ys) i = Some (f x y).
Proof.
  revert ys i. induction xs as [|x0 xs IH]; intros [|y0 ys] [|i]; cbn;
    try discriminate.
  - intros [= ->] [= ->]. reflexivity.
  - apply IH.
Qed.

Lemma income_segment_finite (q : Q) :
  income_segment (Fin q) =
    if Qle_bool q 0 then None
    else if Qle_bool q 50000 then Some "Low"
    else if Qle_bool q 80000 then Some "Medium"
    else if Qle_bool q 100000 then Some "High"
    else Some "Very High".
Proof.
  unfold income_segment, cut, income_bins, income_labels, of_Z.
  cbn -[Qle_bool]. unfold Qlt_bool.
  change (inject_Z 0) with 0. change (inject_Z 50000) with 50000.
  change (inject_Z 80000) with 80000. change (inject_Z 100000) with 100000.
  q_cases; cbn; try reflexivity; exfalso; lra.
Qed.

Lemma IncomeSegment_at_record df i x :
  at_record (YearlyIncome df) i = Some x ->
  at_record (IncomeSegment df) i = Some (income_segment x).
Proof.
  unfold at_record, IncomeSegment.
  destruct (YearlyIncome df) as [incomes|]; [|discriminate].
  intro H. rewrite nth_error_map, H. reflexivity.
Qed.

(** C10. Income bands are the left-open, right-closed intervals over
    the breakpoints 0, 50000, 80000, 100000, +inf: a record whose
    YearlyIncome is 0 or below (or missing) has a missing IncomeSegment,
    and an income exactly at 50000, 80000, 100000 belongs to the lower
    band. *)
Theorem income_segment_left_open_right_closed df i x :
  at_record (YearlyIncome df) i = Some x ->
  exists s,
    at_record (IncomeSegment df) i = Some s /\
    match x with
    | Fin q =>
        (q <= 0 -> s = None) /\
        (0 < q <= 50000 -> s = Some "Low") /\
        (50000 < q <= 80000 -> s = Some "Medium") /\
        (80000 < q <= 100000 -> s = Some "High") /\
        (100000 < q -> s = Some "Very High")
    | PInf => s = Some "Very High"
    | NInf => s = None
    | NaN => s = None
    end.
Proof.
  intro H. exists (income_segment x).
  split; [apply IncomeSegment_at_record, H|].
  destruct x as [q| | |]; try reflexivity.
  rewrite income_segment_finite.
  repeat split; intros;
    repeat match goal with H : _ /\ _ |- _ => destruct H end;
    q_cases; try reflexivity; exfalso; lra.
Qed.

Lemma income_segment_left_open_right_closed_witness :
  let df := mk_frame (Some [of_Z 0; of_Z (-1); of_Z 50000; of_Z 80000;
                            of_Z 100000; of_Z 100001; NaN])
                     None None in
  IncomeSegment df
  = Some [None; None; Some "Low"; Some "Medium"; Some "High";
          Some "Very High"; None] /\
  at_record (IncomeSegment df) 0 = Some None /\
  at_record (IncomeSegment df) 2 = Some (Some "Low").
Proof.
  intro df. split; [reflexivity|].
  destruct (income_segment_left_open_right_closed df 0 (of_Z 0) eq_refl)
    as (s0 & E0 & H0 & _).
  destruct (income_segment_left_open_right_closed df 2 (of_Z 50000) eq_refl)
    as (s2 & E2 & _ & H2 & _).
  split.
  - rewrite E0, H0; [reflexivity|q_decide].
  - rewrite E2, H2; [reflexivity|q_decide].
Defined.

Lemma profit_margin_zero (q : Q) (c : num) :
  q == 0 ->
  profit_margin (Fin q) c =
    match c with
    | Fin k => if Qeq_bool k 0 then NaN else signed_inf (Qlt_bool k 0)
    | PInf => NInf
    | NInf => PInf
    | NaN => NaN
    end.
Proof.
  intro Hq. unfold profit_margin, profit, sub, of_Z.
  destruct c as [k| | |]; cbn -[Qeq_bool Qle_bool Qlt_bool].
  - assert (E : Qeq_bool q 0 = true) by (apply Qeq_bool_iff, Hq). rewrite E.
    q_cases; cbn; try reflexivity; exfalso; lra.
  - assert (E : Qle_bool 0 q = true) by (apply Qle_bool_iff; lra).
    unfold Qlt_bool. rewrite E. reflexivity.
  - assert (E : Qle_bool 0 q = true) by (apply Qle_bool_iff; lra).
    rewrite E. reflexivity.
  - reflexivity.
Qed.

Lemma profit_margin_nonzero (q k : Q) :
  ~ q == 0 ->
  profit_margin (Fin q) (Fin k) = Fin ((q - k) / q * 100).
Proof.
  intro Hq. unfold profit_margin, profit, sub, of_Z.
  cbn -[Qeq_bool]. apply Qeq_bool_false in Hq. rewrite Hq. reflexivity.
Qed.

Lemma ProfitMargin_at_record df i s c :
  at_record (SalesAmount df) i = Some s ->
  at_record (TotalProductCost df) i = Some c ->
  at_record (ProfitMargin df) i = Some (profit_margin s c).
Proof.
  unfold at_record, ProfitMargin.
  destruct (SalesAmount df) as [sales|]; [|discriminate].
  destruct (TotalProductCost df) as [cost|]; [|discriminate].
  apply zip_with_nth_error.
Qed.




End CleanFacts.

Module JoinFacts.
Import Join.

Lemma key_eqb_eq (a b : key) : key_eqb a b = true <-> a = b.
Proof.
  destruct a as [x|], b as [y|]; cbn; try (split; congruence).
  rewrite Z.eqb_eq. split; congruence.
Qed.

Lemma in_rows_with {R} (key_r : R -> key) right k r :
  In r (rows_with key_r right k) <-> In r right /\ key_r r = k.
Proof.
  unfold rows_with. rewrite filter_In, key_eqb_eq.
  split; intros [H1 H2]; auto.
Qed.

Section MergeLeft.
Context {L R : Type} (key_l : L -> key) (key_r : R -> key).

Lemma in_merge_left left right l o :
  In (l, o) (merge_left key_l key_r left right) <->
  In l left /\
  match o with
  | Some r => In r (rows_with key_r right (key_l l))
  | None => rows_with key_r right (key_l l) = []
  end.
Proof.
  unfold merge_left. rewrite in_flat_map.
  split.
  - intros (l' & Hl' & Hin).
    destruct (rows_with key_r right (key_l l')) as [|r0 rs] eqn:E.
    + destruct Hin as [[= <- <-]|[]]. auto.
    + apply in_map_iff in Hin. destruct Hin as (r & [= <- <-] & Hr).
      rewrite E. auto.
  - intros (Hl & Ho). exists l. split; [exact Hl|].
    destruct o as [r|].
    + destruct (rows_with key_r right (key_l l)) as [|r0 rs]; [contradiction|].
      apply in_map_iff. eauto.
    + rewrite Ho. left. reflexivity.
Qed.

Lemma map_fst_pairing (l : L) (ms : list R) :
  map fst (map (fun r => (l, Some r)) ms) = repeat l (List.length ms).
Proof.
  induction ms as [|m ms IH]; cbn; congruence.
Qed.

Lemma map_fst_merge_left left right :
  map fst (merge_left key_l key_r left right)
  = flat_map (fun l =>
      repeat l (Nat.max 1 (List.length (rows_with key_r right (key_l l))))) left.
Proof.
  unfold merge_left.
  induction left as [|l left IH]; cbn [flat_map]; [reflexivity|].
  rewrite map_app, IH. f_equal.
  destruct (rows_with key_r right (key_l l)) as [|r0 rs]; [reflexivity|].
  rewrite map_fst_pairing. reflexivity.
Qed.

End MergeLeft.

Lemma flat_map_repeat_mul {A} (f g : A -> nat) (xs : list A) :
  flat_map (fun x => repeat x (g x)) (flat_map (fun x => repeat x (f x)) xs)
  = flat_map (fun x => repeat x (f x * g x)%nat) xs.
Proof.
  induction xs as [|x xs IH]; cbn; [reflexivity|].
  rewrite flat_map_app, IH. f_equal.
  induction (f x) as [|n IHn]; cbn; [reflexivity|].
  rewrite IHn, repeat_app. reflexivity.
Qed.

Lemma map_flat_map_repeat {A B} (h : B -> A) (g : A -> nat) (ys : list B) :
  map h (flat_map (fun y => repeat y (g (h y))) ys)
  = flat_map (fun a => repeat a (g a)) (map h ys).
Proof.
  induction ys as [|y ys IH]; cbn; [reflexivity|].
  rewrite map_app, IH, map_repeat. reflexivity.
Qed.

Section MergeData.
Context {SalesAttrs CustomerAttrs ProductAttrs TerritoryAttrs : Type}.
Variables (customer_df : list (customer CustomerAttrs))
          (product_df : list (product ProductAttrs))
          (sales_df : list (sale SalesAttrs))
          (territories_df : list (territory TerritoryAttrs)).

Let out := merge_data customer_df product_df sales_df territories_df.

Lemma left_joined_option_map {R A} (ms : list R) (attrs : R -> A) (o : option R) :
  match o with Some r => In r ms | None => ms = [] end ->
  left_joined ms attrs (option_map attrs o).
Proof.
  destruct o as [r|]; cbn; eauto.
Qed.

Lemma left_joined_inv {R A} (ms : list R) (attrs : R -> A) (a : option A) :
  left_joined ms attrs a ->
  exists o, option_map attrs o = a /\
            match o with Some r => In r ms | None => ms = [] end.
Proof.
  destruct a as [a|]; cbn.
  - intros (r & Hr & <-). exists (Some r). auto.
  - intros ->. exists None. auto.
Qed.

Lemma in_merge_data row :
  In row out <-> In (m_sale row) sales_df /\
    joined_row customer_df product_df territories_df row.
Proof.
  unfold out, merge_data, joined_row, customers_of, products_of, territories_of.
  rewrite in_map_iff. split.
  - intros ([[[s c] p] t] & <- & Hin). cbn [m_sale m_customer m_product m_territory].
    apply in_merge_left in Hin. cbn [fst] in Hin. destruct Hin as (Hin & Ht).
    apply in_merge_left in Hin. cbn [fst] in Hin. destruct Hin as (Hin & Hp).
    apply in_merge_left in Hin. destruct Hin as (Hin & Hc).
    auto using left_joined_option_map.
  - destruct row as [s oc op ot]. cbn [m_sale m_customer m_product m_territory].
    intros (Hs & Hc & Hp & Ht).
    apply left_joined_inv in Hc, Hp, Ht.
    destruct Hc as (c & <- & Hc), Hp as (p & <- & Hp), Ht as (t & <- & Ht).
    exists (s, c, p, t). split; [reflexivity|].
    apply in_merge_left; cbn [fst]. split; [|exact Ht].
    apply in_merge_left; cbn [fst]. split; [|exact Hp].
    apply in_merge_left. auto.
Qed.

Lemma sales_of_merge_data :
  map m_sale out
  = flat_map (fun s => repeat s (copies customer_df product_df territories_df s))
             sales_df.
Proof.
  unfold out, merge_data, copies, customers_of, products_of, territories_of.
  rewrite map_map.
  rewrite (map_ext _ (fun row => fst (fst (fst row))))
    by (intros [[[s c] p] t]; reflexivity).
  rewrite <- (map_map fst (fun row => fst (fst row))).
  rewrite map_fst_merge_left.
  rewrite <- (map_map fst fst).
  rewrite (map_flat_map_repeat fst
    (fun sc => Nat.max 1 (List.length
       (rows_with territory_key territories_df (SalesTerritoryKey (fst sc)))))).
  rewrite map_fst_merge_left.
  rewrite (map_flat_map_repeat fst
    (fun s => Nat.max 1 (List.length
       (rows_with territory_key territories_df (SalesTerritoryKey s))))).
  rewrite (map_flat_map_repeat fst
    (fun s => Nat.max 1 (List.length
       (rows_with product_key product_df (ProductKey s))))).
  rewrite map_fst_merge_left.
  rewrite !flat_map_repeat_mul.
  apply flat_map_ext. intro s. f_equal. lia.
Qed.

Lemma copies_pos (s : sale SalesAttrs) :
  (1 <= copies customer_df product_df territories_df s)%nat.
Proof.
  unfold copies. nia.
Qed.

Lemma flat_map_repeat_id {A} (n : A -> nat) (xs : list A) :
  (forall x, In x xs -> n x = 1%nat) ->
  flat_map (fun x => repeat x (n x)) xs = xs.
Proof.
  induction xs as [|x xs IH]; intro H; cbn; [reflexivity|].
  rewrite (H x) by (left; reflexivity). cbn. f_equal.
  apply IH. intros y Hy. apply H. right. exact Hy.
Qed.

(** C9. [merge_data] is the left join of the sales table with the
    customer, product and territory tables on their keys.  Its rows,
    read through their sales part, are the sales rows in order, each
    at least once (once per combination of matching dimension rows), so
    no sales row is dropped and its keys are unchanged; a row is in the
    output exactly when its sales part is a sales row and, per
    dimension, its attributes are those of a table row with the sales
    row's key, or are missing when the table has no row with that key. *)
Theorem merge_data_left_join :
  map m_sale out
    = flat_map (fun s => repeat s (copies customer_df product_df territories_df s))
               sales_df /\
  (forall s : sale SalesAttrs,
     (1 <= copies customer_df product_df territories_df s)%nat) /\
  Forall (fun s => exists row, In row out /\ m_sale row = s) sales_df /\
  (forall row, In row out <->
     In (m_sale row) sales_df /\
     joined_row customer_df product_df territories_df row) /\
  ((forall s, In s sales_df ->
      copies customer_df product_df territories_df s = 1%nat) ->
   map m_sale out = sales_df).
Proof.
  split; [exact sales_of_merge_data|].
  split; [exact copies_pos|].
  split; [|split; [exact in_merge_data|]].
  - apply Forall_forall. intros s Hs.
    assert (Hin : In s (map m_sale out)).
    { rewrite sales_of_merge_data. apply in_flat_map. exists s.
      split; [exact Hs|].
      pose proof (copies_pos s) as Hc.
      destruct (copies customer_df product_df territories_df s); [lia|].
      left. reflexivity. }
    apply in_map_iff in Hin. destruct Hin as (row & E & Hrow). eauto.
  - intro H. rewrite sales_of_merge_data. apply flat_map_repeat_id, H.
Qed.

End MergeData.

(** Two sales rows; the second one's customer key 7 and territory key
    are in no dimension table. *)
Lemma merge_data_left_join_witness :
  let customer_df := [mk_customer (Some 1) "Ann"%string] in
  let product_df := [mk_product (Some 10) "Bike"%string] in
  let territories_df := [mk_territory (Some 100) "Europe"%string] in
  let sales_df := [mk_sale (Some 1) (Some 10) (Some 100) 25;
                   mk_sale (Some 7) (Some 10) None 40] in
  let out := merge_data customer_df product_df sales_df territories_df in
  map m_sale out = sales_df /\
  out = [mk_merged (mk_sale (Some 1) (Some 10) (Some 100) 25)
                   (Some "Ann"%string) (Some "Bike"%string) (Some "Europe"%string);
         mk_merged (mk_sale (Some 7) (Some 10) None 40)
                   None (Some "Bike"%string) None].
Proof.
  intros customer_df product_df territories_df sales_df out.
  split; [|reflexivity].
  apply (merge_data_left_join customer_df product_df sales_df territories_df).
  intros s [<-|[<-|[]]]; reflexivity.
Defined.

End JoinFacts.

Module RfmFacts.
Import Rfm.
Local Open Scope Z_scope.

Lemma fold_max_ge (ds : list Z) (d : Z) : d <= fold_left Z.max ds d.
Proof.
  revert d. induction ds as [|x ds IH]; intro d; cbn; [lia|].
  specialize (IH (Z.max d x)). lia.
Qed.

Lemma fold_max_upper (ds : list Z) (d x : Z) :
  In x ds -> x <= fold_left Z.max ds d.
Proof.
  revert d. induction ds as [|y ds IH]; intros d Hin; [destruct Hin|].
  destruct Hin as [->|H]; cbn.
  - pose proof (fold_max_ge ds (Z.max d x)). lia.
  - apply IH, H.
Qed.

Lemma fold_max_in (ds : list Z) (d : Z) :
  fold_left Z.max ds d = d \/ In (fold_left Z.max ds d) ds.
Proof.
  revert d. induction ds as [|y ds IH]; intro d; cbn; [auto|].
  destruct (IH (Z.max d y)) as [E|H]; [|auto].
  rewrite E. destruct (Z.max_spec d y) as [[_ ->]|[_ ->]]; auto.
Qed.

(** [max_date] is the latest of the valid dates. *)
Lemma max_date_spec (col : list (option Z)) (m : Z) :
  max_date col = Some m ->
  In (Some m) col /\ forall d, In (Some d) col -> d <= m.
Proof.
  unfold max_date. destruct (dropna col) as [|d0 ds] eqn:E; [discriminate|].
  intros [= <-]. split.
  - apply in_dropna. rewrite E.
    destruct (fold_max_in ds d0) as [->|H]; [left|right]; auto.
  - intros d Hd. apply in_dropna in Hd. rewrite E in Hd.
    destruct Hd as [<-|Hd]; [apply fold_max_ge|apply fold_max_upper, Hd].
Qed.

Lemma max_date_some (col : list (option Z)) (d : Z) :
  In (Some d) col -> exists m, max_date col = Some m.
Proof.
  intro H. apply in_dropna in H. unfold max_date.
  destruct (dropna col); [contradiction|eauto].
Qed.

Lemma in_group_dates (df : frame) (k d : Z) :
  In (Some d) (map OrderDate (group df k)) -> In (Some d) (map OrderDate df).
Proof.
  unfold group. rewrite !in_map_iff.
  intros (row & E & H). apply filter_In in H. exists row. tauto.
Qed.

Lemma days_at_least_one (delta : Z) : one_day <= delta -> 1 <= days delta.
Proof.
  unfold days, one_day. intro H.
  apply Z.div_le_lower_bound; lia.
Qed.

Lemma recency_of_customer (df : frame) (k m : Z) :
  last_order df k = Some m ->
  exists latest,
    max_date (map OrderDate df) = Some latest /\
    m <= latest /\
    recency (snapshot_date df) (map OrderDate (group df k))
      = Some (days (latest + one_day - m)).
Proof.
  unfold last_order. intro Hm.
  destruct (max_date_spec _ _ Hm) as (Hin & _).
  apply in_group_dates in Hin.
  destruct (max_date_some _ _ Hin) as (latest & Hl).
  exists latest. split; [exact Hl|]. split.
  - apply (max_date_spec _ _ Hl), Hin.
  - unfold recency, snapshot_date. rewrite Hl, Hm. reflexivity.
Qed.

(** The Recency of a customer who has a valid order date. *)
Lemma recency_of_rows (df : frame) :
  Forall (fun row =>
    forall m, last_order df (rfm_CustomerKey row) = Some m ->
    exists latest,
      max_date (map OrderDate df) = Some latest /\
      snapshot_date df = Some (latest + one_day) /\
      Recency row = Some (days (latest + one_day - m)) /\
      1 <= days (latest + one_day - m))
    (rfm_table df).
Proof.
  apply Forall_forall. intros row Hrow m Hm.
  unfold rfm_table in Hrow. apply in_map_iff in Hrow.
  destruct Hrow as (k & <- & _). cbn [rfm_CustomerKey Recency] in *.
  destruct (recency_of_customer df k m Hm) as (latest & Hl & Hle & Hr).
  exists latest. split; [exact Hl|]. split; [|split].
  - unfold snapshot_date. rewrite Hl. reflexivity.
  - exact Hr.
  - apply days_at_least_one. lia.
Qed.

(** A customer with a Recency has a valid order date. *)
Lemma recency_has_last_order (df : frame) :
  Forall (fun row =>
    Recency row <> None ->
    exists m, last_order df (rfm_CustomerKey row) = Some m)
    (rfm_table df).
Proof.
  apply Forall_forall. intros row Hrow Hr.
  unfold rfm_table in Hrow. apply in_map_iff in Hrow.
  destruct Hrow as (k & <- & _). cbn [rfm_CustomerKey Recency] in *.
  unfold last_order. unfold recency in Hr.
  destruct (snapshot_date df); [|contradiction].
  destruct (max_date (map OrderDate (group df k))) as [m|]; [eauto|contradiction].
Qed.

End RfmFacts.

Module AbcFacts.
Import Num NumFacts Abc.
Local Open Scope string_scope.
Local Open Scope Q_scope.

(** *** Lists *)

Lemma nth_error_combine {A B} (xs : list A) (ys : list B) i x y :
  nth_error xs i = Some x -> nth_error ys i = Some y ->
  nth_error (combine xs ys) i = Some (x, y).
Proof.
  revert ys i. induction xs as [|x0 xs IH]; intros [|y0 ys] [|i]; cbn;
    try discriminate.
  - intros [= ->] [= ->]. reflexivity.
  - apply IH.
Qed.

Lemma map_fst_combine_same_length {A B} (xs : list A) (ys : list B) :
  List.length xs = List.length ys -> map fst (combine xs ys) = xs.
Proof.
  revert ys. induction xs as [|x xs IH]; intros [|y ys]; cbn; try discriminate.
  - reflexivity.
  - intros [= H]. f_equal. apply IH, H.
Qed.

Lemma map_snd_combine_same_length {A B} (xs : list A) (ys : list B) :
  List.length xs = List.length ys -> map snd (combine xs ys) = ys.
Proof.
  revert ys. induction xs as [|x xs IH]; intros [|y ys]; cbn; try discriminate.
  - reflexivity.
  - intros [= H]. f_equal. apply IH, H.
Qed.

(** *** Running totals *)

Lemma cumsum_from_length acc col : List.length (cumsum_from acc col) = List.length col.
Proof.
  revert acc. induction col as [|x col IH]; intro acc; cbn; [reflexivity|].
  f_equal. apply IH.
Qed.

Lemma cumsum_from_nth acc col i x :
  nth_error col i = Some x ->
  nth_error (cumsum_from acc col) i = Some (fold_left Qplus (firstn (S i) col) acc).
Proof.
  revert acc i. induction col as [|y col IH]; intros acc [|i]; cbn;
    try discriminate.
  - destruct col; reflexivity.
  - intro H. apply (IH (acc + y) i H).
Qed.

Lemma cumulative_percentage_length revenue :
  List.length (cumulative_percentage revenue) = List.length revenue.
Proof.
  unfold cumulative_percentage, cumsum.
  rewrite length_map. apply cumsum_from_length.
Qed.

Lemma cumulative_percentage_nth revenue i x :
  nth_error revenue i = Some x ->
  nth_error (cumulative_percentage revenue) i
    = Some (percentage (sum revenue) (sum (firstn (S i) revenue))).
Proof.
  intro H. unfold cumulative_percentage, cumsum.
  rewrite nth_error_map, (cumsum_from_nth _ _ _ _ H). reflexivity.
Qed.

(** *** Sorting *)

Lemma insert_desc_perm p sorted : Permutation (insert_desc p sorted) (p :: sorted).
Proof.
  induction sorted as [|p' rest IH]; cbn; [reflexivity|].
  destruct (Qlt_bool _ _); [|reflexivity].
  rewrite IH. apply perm_swap.
Qed.

Lemma sort_values_desc_perm ps : Permutation (sort_values_desc ps) ps.
Proof.
  induction ps as [|p ps IH]; cbn; [reflexivity|].
  rewrite insert_desc_perm. apply perm_skip, IH.
Qed.

Lemma insert_desc_sorted p sorted :
  Sorted descending sorted -> Sorted descending (insert_desc p sorted).
Proof.
  induction 1 as [|p' rest Hs IH Hd]; cbn.
  - repeat constructor.
  - destruct (Qlt_bool (p_SalesAmount p) (p_SalesAmount p')) eqn:E; q_reflect.
    + constructor; [exact IH|].
      destruct rest as [|p'' rest]; cbn.
      * constructor. unfold descending. lra.
      * destruct (Qlt_bool (p_SalesAmount p) (p_SalesAmount p'')) eqn:E';
          constructor; [inversion Hd; assumption|unfold descending; lra].
    + constructor; [constructor; assumption|constructor; exact E].
Qed.

Lemma sort_values_desc_sorted ps : Sorted descending (sort_values_desc ps).
Proof.
  induction ps as [|p ps IH]; cbn; [constructor|].
  apply insert_desc_sorted, IH.
Qed.

(** *** The ABC table *)

Lemma abc_products df :
  map a_product (abc_analysis df) = sort_values_desc (aggregate df).
Proof.
  unfold abc_analysis. rewrite map_map. cbn.
  apply map_fst_combine_same_length.
  rewrite cumulative_percentage_length, length_map. reflexivity.
Qed.

Lemma abc_revenue df :
  revenue_column (abc_analysis df)
  = map p_SalesAmount (sort_values_desc (aggregate df)).
Proof.
  unfold revenue_column. rewrite <- abc_products, map_map. reflexivity.
Qed.

Lemma abc_percentages df :
  map CumulativePercentage (abc_analysis df)
  = cumulative_percentage (revenue_column (abc_analysis df)).
Proof.
  rewrite abc_revenue. unfold abc_analysis. rewrite map_map. cbn.
  apply map_snd_combine_same_length.
  rewrite cumulative_percentage_length, length_map. reflexivity.
Qed.

Lemma abc_categories df :
  map ABC_Category (abc_analysis df)
  = map abc_category (map CumulativePercentage (abc_analysis df)).
Proof.
  unfold abc_analysis. rewrite !map_map. reflexivity.
Qed.

Lemma abc_row_at df i row :
  nth_error (abc_analysis df) i = Some row ->
  CumulativePercentage row
    = percentage (sum (revenue_column (abc_analysis df)))
                 (sum (firstn (S i) (revenue_column (abc_analysis df)))) /\
  ABC_Category row = abc_category (CumulativePercentage row).
Proof.
  intro H. split.
  - assert (Hp : nth_error (map CumulativePercentage (abc_analysis df)) i
                 = Some (CumulativePercentage row))
      by (rewrite nth_error_map, H; reflexivity).
    rewrite abc_percentages in Hp.
    assert (Hr : nth_error (revenue_column (abc_analysis df)) i
                 = Some (p_SalesAmount (a_product row)))
      by (unfold revenue_column; rewrite nth_error_map, H; reflexivity).
    rewrite (cumulative_percentage_nth _ _ _ Hr) in Hp. congruence.
  - assert (Hc : nth_error (map ABC_Category (abc_analysis df)) i
                 = Some (ABC_Category row))
      by (rewrite nth_error_map, H; reflexivity).
    rewrite abc_categories, !nth_error_map, H in Hc. cbn in Hc. congruence.
Qed.

Lemma abc_category_bands (q : Q) :
  (q <= 80 -> abc_category (Fin q) = "A") /\
  (80 < q <= 95 -> abc_category (Fin q) = "B") /\
  (95 < q -> abc_category (Fin q) = "C").
Proof.
  unfold abc_category, leb, of_Z.
  change (inject_Z 80) with 80. change (inject_Z 95) with 95.
  repeat split; intros;
    repeat match goal with H : _ /\ _ |- _ => destruct H end;
    q_cases; try reflexivity; exfalso; lra.
Qed.

Lemma abc_category_special :
  abc_category NaN = "C" /\ abc_category PInf = "C" /\ abc_category NInf = "A".
Proof.
  repeat split.
Qed.

(** *** Monotonicity of the cumulative percentage *)

Lemma fold_plus_firstn_ge col acc j :
  Forall (fun x => 0 <= x) col -> acc <= fold_left Qplus (firstn j col) acc.
Proof.
  intro H. revert acc j. induction H as [|x col Hx _ IH]; intros acc [|j]; cbn;
    try lra.
  specialize (IH (acc + x) j). lra.
Qed.

Lemma sum_firstn_mono col acc i j :
  Forall (fun x => 0 <= x) col -> (i <= j)%nat ->
  fold_left Qplus (firstn i col) acc <= fold_left Qplus (firstn j col) acc.
Proof.
  intro H. revert acc i j.
  induction H as [|x col Hx Hcol IH]; intros acc i j Hij.
  - rewrite !firstn_nil. cbn. lra.
  - destruct i as [|i].
    + change (fold_left Qplus (firstn 0 (x :: col)) acc) with acc.
      apply fold_plus_firstn_ge. constructor; assumption.
    + destruct j as [|j]; [lia|]. cbn. apply IH. lia.
Qed.

Lemma percentage_mono total a b :
  0 < total -> a <= b -> leb (percentage total a) (percentage total b) = true.
Proof.
  intros Ht Hab. unfold percentage, of_Z. cbn -[Qeq_bool Qle_bool].
  assert (E : Qeq_bool total 0 = false) by (apply Qeq_bool_false; lra).
  rewrite E. cbn -[Qle_bool]. apply Qle_bool_iff.
  apply Qmult_le_compat_r; [|q_decide].
  unfold Qdiv. apply Qmult_le_compat_r; [exact Hab|].
  apply Qlt_le_weak, Qinv_lt_0_compat, Ht.
Qed.

(** C8, as the code has it.  When no product has a negative revenue and
    the total revenue is positive, the cumulative percentage does not
    decrease along the table: a product that sorts before another has a
    cumulative percentage that is at most the other's. *)
Theorem cumulative_percentage_monotone (df : list sales_row) i j r1 r2 :
  Forall (fun x => 0 <= x) (revenue_column (abc_analysis df)) ->
  0 < sum (revenue_column (abc_analysis df)) ->
  (i <= j)%nat ->
  nth_error (abc_analysis df) i = Some r1 ->
  nth_error (abc_analysis df) j = Some r2 ->
  leb (CumulativePercentage r1) (CumulativePercentage r2) = true.
Proof.
  intros Hpos Htotal Hij H1 H2.
  destruct (abc_row_at df i r1 H1) as (-> & _).
  destruct (abc_row_at df j r2 H2) as (-> & _).
  apply percentage_mono; [exact Htotal|].
  unfold sum. apply sum_firstn_mono; [exact Hpos|lia].
Qed.

Lemma cumulative_percentage_monotone_witness :
  exists r1 r2,
    nth_error (abc_analysis revenue_600_300_100) 0 = Some r1 /\
    nth_error (abc_analysis revenue_600_300_100) 2 = Some r2 /\
    leb (CumulativePercentage r1) (CumulativePercentage r2) = true.
Proof.
  destruct (nth_error (abc_analysis revenue_600_300_100) 0) as [r1|] eqn:E1;
    [|discriminate].
  destruct (nth_error (abc_analysis revenue_600_300_100) 2) as [r2|] eqn:E2;
    [|discriminate].
  exists r1, r2. split; [reflexivity|]. split; [reflexivity|].
  apply (cumulative_percentage_monotone revenue_600_300_100 0 2 r1 r2).
  - repeat constructor; q_decide.
  - q_decide.
  - lia.
  - exact E1.
  - exact E2.
Defined.

(** C8 fails as stated: with a product of negative revenue (returns
    exceeding sales) the product sorted first has the larger cumulative
    percentage: revenues 100 and -50 give 200% and then 100%. *)
Lemma cumulative_percentage_not_monotone :
  exists r1 r2,
    nth_error (abc_analysis revenue_100_refund_50) 0 = Some r1 /\
    nth_error (abc_analysis revenue_100_refund_50) 1 = Some r2 /\
    p_SalesAmount (a_product r2) <= p_SalesAmount (a_product r1) /\
    eqv (CumulativePercentage r1) (Fin 200) /\
    eqv (CumulativePercentage r2) (Fin 100) /\
    leb (CumulativePercentage r1) (CumulativePercentage r2) = false.
Proof.
  eexists. eexists. split; [reflexivity|]. split; [reflexivity|].
  split; [q_decide|]. repeat split.
Qed.

(** *** The XYZ fallback *)

Lemma xyz_try_raises_iff df product_sales :
  raises (xyz_try df product_sales) <-> has_OrderDate df = false.
Proof.
  unfold xyz_try, order_periods, raises.
  destruct (has_OrderDate df); cbn; split.
  - intros (e & H). discriminate.
  - discriminate.
  - reflexivity.
  - eauto.
Qed.

(** C4 fails on its example: with a single month of data nothing
    raises.  The deviation of a single monthly value is NaN, so is the
    CV, both comparisons of [xyz_category] are false and every product
    is "Z", not "Unknown". *)
Lemma single_month_is_z_not_unknown :
  order_periods single_month = Ok [Some 0%Z; Some 0%Z; Some 0%Z] /\
  returns (xyz_try single_month (abc_analysis (rows single_month))) /\
  map CV (perform_abc_xyz_analysis single_month) = [Some RootNaN; Some RootNaN] /\
  map XYZ_Category (perform_abc_xyz_analysis single_month) = ["Z"; "Z"] /\
  map ABC_XYZ (perform_abc_xyz_analysis single_month) = ["A-Z"; "C-Z"] /\
  returns (AbcXyz.merged_cv single_month (abc_analysis (rows single_month))) /\
  AbcXyz.perform_abc_xyz_analysis single_month
  = Ok (perform_abc_xyz_analysis single_month).
Proof.
  split; [reflexivity|]. split; [eexists; reflexivity|].
  split; [reflexivity|]. split; [reflexivity|]. split; [reflexivity|].
  split; [eexists; reflexivity|reflexivity].
Qed.

End AbcFacts.

Module QcutFacts.
Import Num NumFacts Qcut.
Local Open Scope Q_scope.

(** *** Counting *)

Lemma count_cons f x col :
  count f (x :: col) = ((if f x then 1 else 0) + count f col)%nat.
Proof.
  unfold count. cbn. destruct (f x); reflexivity.
Qed.

Lemma count_le_length f col : (count f col <= List.length col)%nat.
Proof.
  unfold count. apply filter_length_le.
Qed.

Lemma count_ext f g col :
  (forall w, f w = g w) -> count f col = count g col.
Proof.
  intro H. unfold count. rewrite (filter_ext f g H). reflexivity.
Qed.

Lemma count_firstn_le f col i j :
  (i <= j)%nat -> (count f (firstn i col) <= count f (firstn j col))%nat.
Proof.
  revert i j. induction col as [|x col IH]; intros i j Hij.
  - rewrite !firstn_nil. lia.
  - destruct i as [|i]; [cbn; lia|].
    destruct j as [|j]; [lia|].
    rewrite !firstn_cons, !count_cons.
    specialize (IH i j). lia.
Qed.

Lemma count_firstn_lt f col i j :
  (i < j)%nat -> (i < List.length col)%nat -> f (nth i col 0) = true ->
  (count f (firstn i col) < count f (firstn j col))%nat.
Proof.
  revert i j. induction col as [|x col IH]; intros i j Hij Hi Hf.
  - cbn in Hi. lia.
  - destruct j as [|j]; [lia|].
    destruct i as [|i].
    + cbn in Hf. rewrite firstn_cons, count_cons, Hf, firstn_0.
      change (count f []) with 0%nat. lia.
    + rewrite !firstn_cons, !count_cons.
      cbn in Hi, Hf. specialize (IH i j ltac:(lia) ltac:(lia) Hf). lia.
Qed.

Lemma count_disjoint_le f g h col :
  (forall w, f w = true -> h w = true) ->
  (forall w, g w = true -> h w = true) ->
  (forall w, f w = true -> g w = false) ->
  (count f col + count g col <= count h col)%nat.
Proof.
  intros Hf Hg Hfg. induction col as [|x col IH]; [cbn; lia|].
  rewrite !count_cons.
  specialize (Hf x). specialize (Hg x). specialize (Hfg x).
  destruct (f x), (g x), (h x); cbn;
    try lia; try (specialize (Hf eq_refl); discriminate);
    try (specialize (Hg eq_refl); discriminate);
    specialize (Hfg eq_refl); discriminate.
Qed.

Lemma count_all col : count (fun _ => true) col = List.length col.
Proof.
  unfold count. induction col as [|x col IH]; cbn; congruence.
Qed.

Lemma NoDup_map_in {A B} (g : A -> B) (l : list A) :
  NoDup l ->
  (forall x y, In x l -> In y l -> g x = g y -> x = y) ->
  NoDup (map g l).
Proof.
  induction 1 as [|a l Ha Hl IH]; intro Hg; cbn; constructor.
  - intro Hin. apply in_map_iff in Hin. destruct Hin as (b & E & Hb).
    assert (b = a) by (apply Hg; [right; exact Hb|left; reflexivity|exact E]).
    subst b. contradiction.
  - apply IH. intros x y Hx Hy. apply Hg; right; assumption.
Qed.

(** *** Ranks *)

Section Rank.
Variable col : list Q.
Let n := List.length col.
Let val (i : nat) : Q := nth i col 0.

Let below (v : Q) : nat := count (fun w => Qlt_bool w v) col.
Let equal_before (i : nat) (v : Q) : nat :=
  count (fun w => Qeq_bool w v) (firstn i col).
Let equal (v : Q) : nat := count (fun w => Qeq_bool w v) col.

Lemma rank_at_unfold i : rank_at col i = S (below (val i) + equal_before i (val i)).
Proof. reflexivity. Qed.

Lemma Qeq_bool_refl_true v : Qeq_bool v v = true.
Proof. apply Qeq_bool_iff. reflexivity. Qed.

Lemma equal_before_lt_equal i :
  (i < n)%nat -> (equal_before i (val i) < equal (val i))%nat.
Proof.
  intro Hi. unfold equal_before, equal.
  rewrite <- (firstn_all col) at 2.
  apply count_firstn_lt; [exact Hi|exact Hi|apply Qeq_bool_refl_true].
Qed.

Lemma below_equal_le v v' : v < v' -> (below v + equal v <= below v')%nat.
Proof.
  intro H. unfold below, equal. apply count_disjoint_le; intros w Hw; q_reflect.
  - apply Qlt_bool_iff. lra.
  - apply Qlt_bool_iff. lra.
  - apply Qeq_bool_false. lra.
Qed.

Lemma below_equal_le_length v : (below v + equal v <= n)%nat.
Proof.
  unfold below, equal, n.
  pose proof (count_disjoint_le (fun w => Qlt_bool w v) (fun w => Qeq_bool w v)
                (fun _ => true) col) as H.
  rewrite count_all in H. apply H; intros w Hw; q_reflect; try reflexivity.
  apply Qeq_bool_false. lra.
Qed.

Lemma below_compat v v' : v == v' -> below v = below v'.
Proof.
  intro H. unfold below. apply count_ext. intro w.
  destruct (Qlt_bool w v) eqn:E, (Qlt_bool w v') eqn:E'; q_reflect;
    try reflexivity; exfalso; lra.
Qed.

Lemma equal_before_compat i v v' : v == v' -> equal_before i v = equal_before i v'.
Proof.
  intro H. unfold equal_before. apply count_ext. intro w.
  destruct (Qeq_bool w v) eqn:E, (Qeq_bool w v') eqn:E'; q_reflect;
    try reflexivity; exfalso.
  - apply E'. rewrite E. exact H.
  - apply E. rewrite E'. symmetry. exact H.
Qed.

(** A smaller value has a smaller rank. *)
Lemma rank_at_lt_value i j :
  (i < n)%nat -> val i < val j -> (rank_at col i < rank_at col j)%nat.
Proof.
  intros Hi Hv. rewrite !rank_at_unfold.
  pose proof (equal_before_lt_equal i Hi).
  pose proof (below_equal_le _ _ Hv). lia.
Qed.

(** Of two equal values the one that appears first has the smaller rank. *)
Lemma rank_at_lt_tie i j :
  (i < j)%nat -> (i < n)%nat -> val i == val j ->
  (rank_at col i < rank_at col j)%nat.
Proof.
  intros Hij Hi Hv. rewrite !rank_at_unfold.
  rewrite (below_compat _ _ Hv), (equal_before_compat i _ _ Hv).
  assert (equal_before i (val j) < equal_before j (val j))%nat; [|lia].
  unfold equal_before. apply count_firstn_lt; [exact Hij|exact Hi|].
  apply Qeq_bool_iff. exact Hv.
Qed.

Lemma rank_at_range i : (i < n)%nat -> (1 <= rank_at col i <= n)%nat.
Proof.
  intro Hi. rewrite rank_at_unfold.
  pose proof (equal_before_lt_equal i Hi).
  pose proof (below_equal_le_length (val i)). lia.
Qed.

Lemma rank_at_lt_cases i j :
  (i < j)%nat -> (j < n)%nat ->
  (rank_at col i < rank_at col j)%nat \/ (rank_at col j < rank_at col i)%nat.
Proof.
  intros Hij Hj.
  destruct (Qlt_le_dec (val j) (val i)) as [Hlt|Hle].
  - right. apply rank_at_lt_value; [exact Hj|exact Hlt].
  - left. destruct (Qle_lt_or_eq _ _ Hle) as [Hlt|Heq].
    + apply rank_at_lt_value; [lia|exact Hlt].
    + apply rank_at_lt_tie; [exact Hij|lia|exact Heq].
Qed.

Lemma rank_at_inj i j :
  (i < n)%nat -> (j < n)%nat -> rank_at col i = rank_at col j -> i = j.
Proof.
  intros Hi Hj E.
  destruct (Nat.lt_trichotomy i j) as [H|[H|H]]; [|exact H|].
  - destruct (rank_at_lt_cases i j H Hj); lia.
  - destruct (rank_at_lt_cases j i H Hi); lia.
Qed.

Lemma ranks_perm : Permutation (map (rank_at col) (seq 0 n)) (seq 1 n).
Proof.
  apply NoDup_Permutation_bis.
  - apply NoDup_map_in; [apply seq_NoDup|].
    intros i j Hi Hj E. apply in_seq in Hi, Hj.
    apply rank_at_inj; [lia|lia|exact E].
  - rewrite length_map, !length_seq. lia.
  - intros r Hr. apply in_map_iff in Hr. destruct Hr as (i & <- & Hi).
    apply in_seq in Hi. apply in_seq.
    pose proof (rank_at_range i). lia.
Qed.

Lemma rank_first_perm : Permutation (rank_first col) (map of_nat (seq 1 n)).
Proof.
  unfold rank_first. fold n.
  rewrite <- (map_map (rank_at col) of_nat).
  apply Permutation_map, ranks_perm.
Qed.

End Rank.

(** *** Sorting *)

Lemma insert_asc_perm x sorted : Permutation (insert_asc x sorted) (x :: sorted).
Proof.
  induction sorted as [|y rest IH]; cbn; [reflexivity|].
  destruct (Qle_bool x y); [reflexivity|].
  rewrite IH. apply perm_swap.
Qed.

Lemma sort_asc_perm col : Permutation (sort_asc col) col.
Proof.
  induction col as [|x col IH]; cbn; [reflexivity|].
  rewrite insert_asc_perm. apply perm_skip, IH.
Qed.

Lemma insert_asc_sorted x sorted :
  Sorted Qle sorted -> Sorted Qle (insert_asc x sorted).
Proof.
  induction 1 as [|y rest Hs IH Hd]; cbn.
  - repeat constructor.
  - destruct (Qle_bool x y) eqn:E; q_reflect.
    + constructor; [constructor; assumption|constructor; exact E].
    + constructor; [exact IH|].
      destruct rest as [|z rest]; cbn.
      * constructor. lra.
      * destruct (Qle_bool x z); constructor;
          [lra|inversion Hd; assumption].
Qed.

Lemma sort_asc_sorted col : StronglySorted Qle (sort_asc col).
Proof.
  apply Sorted_StronglySorted; [exact Qle_trans|].
  induction col as [|x col IH]; cbn; [constructor|].
  apply insert_asc_sorted, IH.
Qed.

(** A list in strictly increasing order is the only sorted arrangement
    of its elements. *)
Lemma sorted_perm_unique (l1 l2 : list Q) :
  StronglySorted Qlt l1 -> StronglySorted Qle l2 -> Permutation l1 l2 ->
  l2 = l1.
Proof.
  intro H1. revert l2. induction H1 as [|a l1 Hs1 IH Ha]; intros l2 H2 Hp.
  - apply Permutation_nil in Hp. exact Hp.
  - destruct l2 as [|b l2].
    { apply Permutation_sym, Permutation_nil in Hp. discriminate. }
    inversion H2 as [|? ? Hs2 Hb]; subst.
    assert (Hab : b = a).
    { assert (Hin_b : In b (a :: l1))
        by (apply (Permutation_in b (Permutation_sym Hp)); left; reflexivity).
      assert (Hin_a : In a (b :: l2))
        by (apply (Permutation_in a Hp); left; reflexivity).
      destruct Hin_b as [E|Hin_b]; [congruence|].
      destruct Hin_a as [E|Hin_a]; [congruence|].
      rewrite Forall_forall in Ha, Hb.
      specialize (Ha b Hin_b). specialize (Hb a Hin_a). exfalso. lra. }
    subst b. f_equal. apply IH; [exact Hs2|].
    apply (Permutation_cons_inv Hp).
Qed.

Lemma of_nat_lt i j : (i < j)%nat -> of_nat i < of_nat j.
Proof.
  intro H. unfold of_nat. rewrite <- Zlt_Qlt. lia.
Qed.

Lemma seq_sorted start len : StronglySorted Qlt (map of_nat (seq start len)).
Proof.
  revert start. induction len as [|len IH]; intro start; cbn; constructor.
  - apply IH.
  - apply Forall_forall. intros x Hx. apply in_map_iff in Hx.
    destruct Hx as (i & <- & Hi). apply in_seq in Hi.
    apply of_nat_lt. lia.
Qed.

(** The sorted ranks are 1, 2, ..., n. *)
Lemma sort_rank_first col :
  sort_asc (rank_first col) = map of_nat (seq 1 (List.length col)).
Proof.
  apply sorted_perm_unique.
  - apply seq_sorted.
  - apply sort_asc_sorted.
  - rewrite sort_asc_perm. apply Permutation_sym, rank_first_perm.
Qed.

(** *** Quantiles of the ranks *)

Lemma nth_map_seq (f : nat -> Q) start len i d :
  (i < len)%nat -> nth i (map f (seq start len)) d = f (start + i)%nat.
Proof.
  intro H. rewrite (nth_indep _ d (f 0%nat)) by (rewrite length_map, length_seq; exact H).
  rewrite map_nth, seq_nth by exact H. reflexivity.
Qed.

Lemma quantile_seq (n : nat) (p : Q) :
  (1 <= n)%nat -> 0 <= p <= 1 ->
  quantile (map of_nat (seq 1 n)) p == 1 + p * (of_nat n - 1).
Proof.
  intros Hn [Hp0 Hp1]. unfold quantile.
  rewrite length_map, length_seq.
  set (N := inject_Z (Z.of_nat n - 1)).
  assert (HN : N == of_nat n - 1).
  { unfold N, of_nat, Zminus. rewrite inject_Z_plus. reflexivity. }
  assert (HN0 : 0 <= N).
  { unfold N. change 0 with (inject_Z 0). rewrite <- Zle_Qle. lia. }
  set (pos := p * N).
  assert (Hpos0 : 0 <= pos) by (unfold pos; apply Qmult_le_0_compat; assumption).
  assert (HposN : pos <= N).
  { unfold pos. rewrite <- (Qmult_1_l N) at 2.
    apply Qmult_le_compat_r; assumption. }
  set (lo := Qfloor pos).
  assert (Hlo0 : (0 <= lo)%Z).
  { unfold lo. rewrite <- (Qfloor_Z 0). apply Qfloor_resp_le. exact Hpos0. }
  assert (HloN : (lo <= Z.of_nat n - 1)%Z).
  { unfold lo. rewrite <- (Qfloor_Z (Z.of_nat n - 1)).
    apply Qfloor_resp_le. exact HposN. }
  assert (Hfl : inject_Z lo <= pos) by apply Qfloor_le.
  assert (Hfu : pos < inject_Z lo + 1).
  { pose proof (Qlt_floor pos) as H. fold lo in H.
    rewrite inject_Z_plus in H. exact H. }
  assert (Ha : nth (Z.to_nat lo) (map of_nat (seq 1 n)) 0 == inject_Z lo + 1).
  { rewrite nth_map_seq by lia. unfold of_nat.
    replace (Z.of_nat (1 + Z.to_nat lo)) with (lo + 1)%Z by lia.
    rewrite inject_Z_plus. reflexivity. }
  destruct (Nat.lt_ge_cases (S (Z.to_nat lo)) n) as [Hin|Hout].
  - assert (Hb : nth (S (Z.to_nat lo)) (map of_nat (seq 1 n))
                   (nth (Z.to_nat lo) (map of_nat (seq 1 n)) 0)
                 == inject_Z lo + 2).
    { rewrite nth_map_seq by exact Hin. unfold of_nat.
      replace (Z.of_nat (1 + S (Z.to_nat lo))) with (lo + 2)%Z by lia.
      rewrite inject_Z_plus. reflexivity. }
    rewrite Hb, Ha. rewrite <- HN. fold pos. ring.
  - assert (Hb : nth (S (Z.to_nat lo)) (map of_nat (seq 1 n))
                   (nth (Z.to_nat lo) (map of_nat (seq 1 n)) 0)
                 = nth (Z.to_nat lo) (map of_nat (seq 1 n)) 0)
      by (apply nth_overflow; rewrite length_map, length_seq; exact Hout).
    rewrite Hb, Ha. rewrite <- HN. fold pos.
    assert (HloN' : inject_Z lo == N).
    { unfold N. apply inject_Z_injective. lia. }
    assert (Hpos : pos == N) by lra.
    rewrite Hpos, HloN'. ring.
Qed.

Lemma all_distinct_sorted bins : StronglySorted Qlt bins -> all_distinct bins = true.
Proof.
  induction 1 as [|b rest Hs IH Hb]; cbn; [reflexivity|].
  rewrite IH, andb_true_r. apply forallb_forall. intros b' Hb'.
  rewrite Forall_forall in Hb. specialize (Hb b' Hb').
  apply negb_true_iff, Qeq_bool_false. lra.
Qed.

(** [qcut] on a column without missing values. *)
Lemma qcut_present values q labels :
  values <> [] ->
  qcut (map Some values) q labels
  = if all_distinct (quantile_edges values q)
    then Ok (map (fun v => label_of (quantile_edges values q) labels v) values)
    else Raise duplicate_edges.
Proof.
  intro H. unfold qcut. rewrite dropna_map_Some.
  destruct values as [|v vs]; [contradiction|].
  destruct (all_distinct _); [|reflexivity].
  rewrite map_map. reflexivity.
Qed.

Lemma ascending_label q :
  (1 <= q <= 5)%nat ->
  nth_error [1; 2; 3; 4; 5]%Z (q - 1) = Some (Z.of_nat q).
Proof.
  intro H.
  destruct q as [|[|[|[|[|[|q]]]]]]; try lia; reflexivity.
Qed.

Lemma quintile_mono n r r' :
  (r <= r')%nat -> (quintile n r <= quintile n r')%nat.
Proof.
  intro H. unfold quintile.
  repeat match goal with
  | |- context [(?a <=? ?b)%nat] => destruct (Nat.leb_spec a b)
  | |- context [(?a <? ?b)%nat] => destruct (Nat.ltb_spec a b)
  end; cbn; lia.
Qed.

Lemma quintile_range n r : (1 <= quintile n r <= 5)%nat.
Proof.
  unfold quintile.
  repeat match goal with
  | |- context [if ?c then _ else _] => destruct c
  end; lia.
Qed.

Lemma quintile_first n : quintile n 1 = 1%nat.
Proof. reflexivity. Qed.

Lemma quintile_last n : (2 <= n)%nat -> quintile n n = 5%nat.
Proof.
  intro H. unfold quintile.
  repeat match goal with
  | |- context [(?a <=? ?b)%nat] => destruct (Nat.leb_spec a b)
  | |- context [(?a <? ?b)%nat] => destruct (Nat.ltb_spec a b)
  end; cbn; lia.
Qed.

Lemma filter_perm_length {A} (f : A -> bool) (l l' : list A) :
  Permutation l l' -> List.length (filter f l) = List.length (filter f l').
Proof.
  induction 1 as [|x l l' _ IH|x y l|l l' l'' _ IH1 _ IH2]; cbn.
  - reflexivity.
  - destruct (f x); cbn; congruence.
  - destruct (f x), (f y); reflexivity.
  - congruence.
Qed.

(** Brings the defining facts of a division by 5 into the context. *)
Ltac div5 a :=
  pose proof (Nat.div_mod_eq a 5);
  pose proof (Nat.mod_upper_bound a 5 ltac:(discriminate)).

Ltac div5_edges n :=
  div5 (1 * (n - 1))%nat; div5 (2 * (n - 1))%nat; div5 (3 * (n - 1))%nat;
  div5 (4 * (n - 1))%nat; div5 (5 * (n - 1))%nat.

Lemma count_interval lo hi n :
  List.length (filter (fun r => (lo <? r) && (r <=? hi))%nat (seq 1 n))
  = (Nat.min hi n - Nat.min lo n)%nat.
Proof.
  induction n as [|n IH]; [cbn; lia|].
  rewrite seq_S, filter_app, length_app, IH. cbn [filter].
  destruct (Nat.ltb_spec lo (1 + n)), (Nat.leb_spec (1 + n) hi); cbn; lia.
Qed.

Lemma quintile_interval n r k :
  (2 <= n)%nat -> (1 <= r <= n)%nat -> (1 <= k <= 5)%nat ->
  (quintile n r =? k)%nat = ((upper n (k - 1) <? r) && (r <=? upper n k))%nat.
Proof.
  intros Hn Hr Hk.
  assert (Hcases : (k = 1 \/ k = 2 \/ k = 3 \/ k = 4 \/ k = 5)%nat) by lia.
  unfold quintile. div5_edges n.
  destruct Hcases as [->|[->|[->|[->| ->]]]]; cbn [upper Nat.sub];
    repeat match goal with
    | |- context [(?a <=? ?b)%nat] => destruct (Nat.leb_spec a b)
    | |- context [(?a <? ?b)%nat] => destruct (Nat.ltb_spec a b)
    | |- context [(?a =? ?b)%nat] => destruct (Nat.eqb_spec a b)
    end; cbn [negb andb] in *; try reflexivity; try discriminate;
    exfalso; lia.
Qed.

Lemma upper_le n k : (1 <= n)%nat -> (k <= 5)%nat -> (upper n k <= n)%nat.
Proof.
  intros Hn Hk.
  assert (Hcases : (k = 0 \/ k = 1 \/ k = 2 \/ k = 3 \/ k = 4 \/ k = 5)%nat) by lia.
  div5_edges n.
  destruct Hcases as [->|[->|[->|[->|[->| ->]]]]]; cbn [upper]; lia.
Qed.

(** The quintiles of the ranks 1..n are balanced: each holds the fifth of
    [n], rounded down or up. *)
Lemma quintile_count n k :
  (2 <= n)%nat -> (1 <= k <= 5)%nat ->
  (n / 5 <= List.length (filter (fun r => quintile n r =? k)%nat (seq 1 n))
        <= (n + 4) / 5)%nat.
Proof.
  intros Hn Hk.
  rewrite (filter_ext_in _ (fun r => (upper n (k - 1) <? r) && (r <=? upper n k))%nat).
  2:{ intros r Hr. apply in_seq in Hr. apply quintile_interval; lia. }
  rewrite count_interval.
  assert (Hcases : (k = 1 \/ k = 2 \/ k = 3 \/ k = 4 \/ k = 5)%nat) by lia.
  div5_edges n. div5 n. div5 (n + 4)%nat.
  destruct Hcases as [->|[->|[->|[->| ->]]]]; cbn [upper Nat.sub]; lia.
Qed.

(** *** The edges of a rank column *)

Section RankEdges.
Variable col : list Q.
Let n := List.length col.
Hypothesis n_pos : (1 <= n)%nat.

Let edge (k : nat) : Q :=
  quantile (sort_asc (rank_first col)) (of_nat k / of_nat 5).

Lemma quantile_edges_ranks :
  quantile_edges (rank_first col) 5
  = [edge 0; edge 1; edge 2; edge 3; edge 4; edge 5].
Proof. reflexivity. Qed.

Lemma edge_value k :
  (k <= 5)%nat -> edge k == 1 + of_nat k * (of_nat n - 1) * (1 # 5).
Proof.
  intro Hk. unfold edge. rewrite sort_rank_first. fold n.
  change (of_nat 5) with 5.
  assert (D : 1 + of_nat k * (of_nat n - 1) * (1 # 5)
              == 1 + (of_nat k / 5) * (of_nat n - 1)) by field.
  rewrite D.
  apply quantile_seq; [exact n_pos|].
  assert (H0 : 0 <= of_nat k).
  { unfold of_nat. change 0 with (inject_Z 0). rewrite <- Zle_Qle. lia. }
  assert (H5 : of_nat k <= 5).
  { unfold of_nat. change 5 with (inject_Z 5). rewrite <- Zle_Qle. lia. }
  split.
  - apply Qle_shift_div_l; lra.
  - apply Qle_shift_div_r; lra.
Qed.

(** An edge is below a rank exactly when [k (n - 1) < 5 (r - 1)]. *)
Lemma edge_lt_rank k r :
  (k <= 5)%nat -> (1 <= r)%nat ->
  edge k < of_nat r <-> (k * (n - 1) < 5 * (r - 1))%nat.
Proof.
  intros Hk Hr. rewrite (edge_value k Hk).
  assert (E : of_nat (k * (n - 1)) == of_nat k * (of_nat n - 1)).
  { unfold of_nat. rewrite Nat2Z.inj_mul, Nat2Z.inj_sub by exact n_pos.
    rewrite inject_Z_mult. unfold Zminus. rewrite inject_Z_plus. reflexivity. }
  assert (E' : of_nat (5 * (r - 1)) == 5 * (of_nat r - 1)).
  { unfold of_nat. rewrite Nat2Z.inj_mul, Nat2Z.inj_sub by exact Hr.
    rewrite inject_Z_mult. unfold Zminus. rewrite inject_Z_plus. reflexivity. }
  rewrite <- E.
  split.
  - intro H. apply Nat2Z.inj_lt. rewrite Zlt_Qlt.
    fold (of_nat (k * (n - 1))). fold (of_nat (5 * (r - 1))).
    rewrite E'. lra.
  - intro H. apply Nat2Z.inj_lt in H. rewrite Zlt_Qlt in H.
    fold (of_nat (k * (n - 1))) in H. fold (of_nat (5 * (r - 1))) in H.
    rewrite E' in H. lra.
Qed.

Lemma edge_ltb k r :
  (k <= 5)%nat -> (1 <= r)%nat ->
  Qlt_bool (edge k) (of_nat r) = (k * (n - 1) <? 5 * (r - 1))%nat.
Proof.
  intros Hk Hr.
  destruct (Nat.ltb_spec (k * (n - 1)) (5 * (r - 1))) as [H|H].
  - apply Qlt_bool_iff, edge_lt_rank; assumption.
  - apply Qlt_bool_false. apply Qnot_lt_le. intro L.
    apply edge_lt_rank in L; [lia|exact Hk|exact Hr].
Qed.

Lemma lowest_edge_eqb r :
  (1 <= r)%nat -> Qeq_bool (of_nat r) (edge 0) = (r <=? 1)%nat.
Proof.
  intro Hr.
  assert (E0 : edge 0 == 1).
  { rewrite edge_value by lia. change (of_nat 0) with 0. ring. }
  destruct (Nat.leb_spec r 1) as [H|H].
  - apply Qeq_bool_iff. rewrite E0.
    replace r with 1%nat by lia. reflexivity.
  - apply Qeq_bool_false. rewrite E0. intro E.
    assert (L : of_nat 1 < of_nat r) by (apply of_nat_lt; lia).
    change (of_nat 1) with 1 in L. lra.
Qed.

Lemma edge_lt k k' :
  (2 <= n)%nat -> (k < k')%nat -> (k' <= 5)%nat -> edge k < edge k'.
Proof.
  intros Hn Hk Hk'.
  rewrite (edge_value k), (edge_value k') by lia.
  assert (L : of_nat k < of_nat k') by (apply of_nat_lt; exact Hk).
  assert (M : 0 < of_nat n - 1).
  { assert (of_nat 1 < of_nat n) by (apply of_nat_lt; lia).
    change (of_nat 1) with 1 in *. lra. }
  apply Qplus_lt_r. apply Qmult_lt_compat_r; [reflexivity|].
  apply Qmult_lt_compat_r; [exact M|exact L].
Qed.

(** The bin of a rank is its quintile. *)
Lemma bin_of_rank r :
  (2 <= n)%nat -> (1 <= r <= n)%nat ->
  bin_of (quantile_edges (rank_first col) 5) (of_nat r) = Some (quintile n r).
Proof.
  intros Hn Hr. rewrite quantile_edges_ranks.
  unfold bin_of, quintile, searchsorted_left. cbn [hd List.length].
  rewrite lowest_edge_eqb by lia.
  rewrite !edge_ltb by lia.
  destruct (Nat.leb_spec r 1); [reflexivity|].
  repeat match goal with
  | |- context [(?a <? ?b)%nat] => destruct (Nat.ltb_spec a b)
  end; cbn; try reflexivity; exfalso; lia.
Qed.

Lemma rank_edges_sorted :
  (2 <= n)%nat -> StronglySorted Qlt (quantile_edges (rank_first col) 5).
Proof.
  intro Hn. rewrite quantile_edges_ranks.
  repeat (constructor; [|repeat (constructor; [apply edge_lt; lia|]); constructor]).
  constructor.
Qed.

Lemma rank_first_nonempty : rank_first col <> [].
Proof.
  intro E. apply (f_equal (@List.length Q)) in E.
  unfold rank_first in E. rewrite length_map, length_seq in E.
  fold n in E. cbn in E. lia.
Qed.

(** The scores that [qcut] gives a rank column with ascending labels. *)
Lemma qcut_rank_first :
  (2 <= n)%nat ->
  qcut (map Some (rank_first col)) 5 [1; 2; 3; 4; 5]%Z
  = Ok (map (fun i => Some (Z.of_nat (quintile n (rank_at col i)))) (seq 0 n)).
Proof.
  intro Hn. rewrite (qcut_present _ _ _ rank_first_nonempty).
  rewrite (all_distinct_sorted _ (rank_edges_sorted Hn)).
  f_equal. unfold rank_first at 2. fold n. rewrite map_map.
  apply map_ext_in. intros i Hi. apply in_seq in Hi.
  pose proof (rank_at_range col i) as Hr. cbn zeta in Hr. fold n in Hr.
  specialize (Hr ltac:(lia)).
  unfold label_of. rewrite bin_of_rank by lia.
  apply ascending_label, quintile_range.
Qed.

End RankEdges.

(** *** Binning a column on its values *)

Lemma sorted_nth (l : list Q) i j :
  StronglySorted Qle l -> (i <= j)%nat -> (j < List.length l)%nat ->
  nth i l 0 <= nth j l 0.
Proof.
  intro H. revert i j. induction H as [|a l Hs IH Ha]; intros i j Hij Hj.
  - cbn in Hj. lia.
  - destruct j as [|j].
    + replace i with 0%nat by lia. cbn. lra.
    + destruct i as [|i].
      * cbn. rewrite Forall_forall in Ha. apply Ha, nth_In. cbn in Hj. lia.
      * cbn. apply IH; cbn in Hj; lia.
Qed.

Lemma sort_asc_length col : List.length (sort_asc col) = List.length col.
Proof.
  apply Permutation_length, sort_asc_perm.
Qed.

(** Every value lies between the first and the last sorted value. *)
Lemma sorted_bounds col v :
  In v col ->
  nth 0 (sort_asc col) 0 <= v /\
  v <= nth (List.length col - 1) (sort_asc col) 0.
Proof.
  intro Hv.
  apply (Permutation_in v (Permutation_sym (sort_asc_perm col))) in Hv.
  destruct (In_nth _ _ 0 Hv) as (i & Hi & <-).
  rewrite sort_asc_length in Hi.
  split; apply sorted_nth; try apply sort_asc_sorted;
    rewrite ?sort_asc_length; lia.
Qed.

(** A quantile whose position is a whole number is the value there. *)
Lemma quantile_at_index sorted p i :
  p * inject_Z (Z.of_nat (List.length sorted) - 1) == of_nat i ->
  quantile sorted p == nth i sorted 0.
Proof.
  intro H. unfold quantile.
  set (pos := p * inject_Z (Z.of_nat (List.length sorted) - 1)) in *.
  assert (Hlo : Qfloor pos = Z.of_nat i).
  { rewrite H. unfold of_nat. apply Qfloor_Z. }
  rewrite Hlo, Nat2Z.id. fold (of_nat i). rewrite H. ring.
Qed.

Lemma quantile_lowest col :
  col <> [] ->
  quantile (sort_asc col) (of_nat 0 / of_nat 5) == nth 0 (sort_asc col) 0.
Proof.
  intros _. apply quantile_at_index. change (of_nat 0) with 0.
  unfold Qdiv. ring.
Qed.

Lemma quantile_highest col :
  col <> [] ->
  quantile (sort_asc col) (of_nat 5 / of_nat 5)
  == nth (List.length col - 1) (sort_asc col) 0.
Proof.
  intro H. apply quantile_at_index. rewrite sort_asc_length.
  assert (E : of_nat 5 / of_nat 5 == 1) by reflexivity.
  rewrite E, Qmult_1_l. unfold of_nat.
  destruct col as [|x col]; [contradiction|].
  cbn [List.length]. f_equiv. lia.
Qed.

Lemma searchsorted_left_mono bins x y :
  x <= y -> (searchsorted_left bins x <= searchsorted_left bins y)%nat.
Proof.
  intro H. induction bins as [|b rest IH]; cbn; [lia|].
  destruct (Qlt_bool b x) eqn:Ex, (Qlt_bool b y) eqn:Ey; q_reflect;
    try lia. exfalso. lra.
Qed.

(** The search stops at the latest at an edge that is not below [x]. *)
Lemma searchsorted_left_stop bins x k :
  (k < List.length bins)%nat -> x <= nth k bins 0 ->
  (searchsorted_left bins x <= k)%nat.
Proof.
  revert k. induction bins as [|b rest IH]; intros k Hk Hx; cbn in *; [lia|].
  destruct (Qlt_bool b x) eqn:E; q_reflect; [|lia].
  destruct k as [|k]; [exfalso; lra|].
  specialize (IH k ltac:(lia) Hx). lia.
Qed.

Lemma descending_label ids :
  (1 <= ids <= 5)%nat ->
  nth_error [5; 4; 3; 2; 1]%Z (ids - 1) = Some (6 - Z.of_nat ids)%Z.
Proof.
  intro H.
  destruct ids as [|[|[|[|[|[|q]]]]]]; try lia; reflexivity.
Qed.

Section ValueBins.
Variable col : list Q.
Hypothesis col_nonempty : col <> [].

Let bins := quantile_edges col 5.

Lemma bins_length : List.length bins = 6%nat.
Proof. reflexivity. Qed.

Lemma lowest_bin : hd 0 bins == nth 0 (sort_asc col) 0.
Proof.
  apply (quantile_lowest col col_nonempty).
Qed.

Lemma highest_bin : nth 5 bins 0 == nth (List.length col - 1) (sort_asc col) 0.
Proof.
  apply (quantile_highest col col_nonempty).
Qed.

(** The number of the bin of [x]: 1 at the lowest edge, else the result
    of the search. *)
Let ids (x : Q) : nat :=
  if Qeq_bool x (hd 0 bins) then 1%nat else searchsorted_left bins x.

Lemma ids_range v : In v col -> (1 <= ids v <= 5)%nat.
Proof.
  intro Hv. destruct (sorted_bounds col v Hv) as (Hlo & Hhi).
  unfold ids. destruct (Qeq_bool v (hd 0 bins)) eqn:E; q_reflect; [lia|].
  split.
  - assert (L : hd 0 bins < v).
    { pose proof lowest_bin. apply Qnot_le_lt. intro Hle. apply E. lra. }
    unfold bins, quantile_edges in *. cbn [seq map hd searchsorted_left] in *.
    apply Qlt_bool_iff in L. rewrite L. lia.
  - apply searchsorted_left_stop; [rewrite bins_length; lia|].
    rewrite highest_bin. exact Hhi.
Qed.

Lemma ids_mono v w : In v col -> v <= w -> (ids v <= ids w)%nat.
Proof.
  intros Hv Hvw. destruct (sorted_bounds col v Hv) as (Hlo & _).
  pose proof lowest_bin as Hb.
  unfold ids.
  destruct (Qeq_bool v (hd 0 bins)) eqn:Ev, (Qeq_bool w (hd 0 bins)) eqn:Ew;
    q_reflect.
  - lia.
  - assert (L : hd 0 bins < w).
    { apply Qnot_le_lt. intro Hle. apply Ew. lra. }
    unfold bins, quantile_edges in *. cbn [seq map hd searchsorted_left] in *.
    apply Qlt_bool_iff in L. rewrite L. lia.
  - exfalso. apply Ev. lra.
  - apply searchsorted_left_mono, Hvw.
Qed.

Lemma bin_of_value v : In v col -> bin_of bins v = Some (ids v).
Proof.
  intro Hv. pose proof (ids_range v Hv) as H.
  unfold bin_of. fold (ids v). rewrite bins_length.
  destruct (Nat.eqb_spec (ids v) 6); [lia|].
  destruct (Nat.eqb_spec (ids v) 0); [lia|]. reflexivity.
Qed.

(** With the labels 5, 4, 3, 2, 1 a value in bin [i] scores [6 - i]. *)
Lemma descending_score v :
  In v col ->
  label_of bins [5; 4; 3; 2; 1]%Z v = Some (6 - Z.of_nat (ids v))%Z.
Proof.
  intro Hv. unfold label_of. rewrite (bin_of_value v Hv).
  apply descending_label, ids_range, Hv.
Qed.

Lemma descending_scores_range v :
  In v col ->
  exists z, label_of bins [5; 4; 3; 2; 1]%Z v = Some z /\ (1 <= z <= 5)%Z.
Proof.
  intro Hv. rewrite (descending_score v Hv). eexists. split; [reflexivity|].
  pose proof (ids_range v Hv). lia.
Qed.

Lemma descending_scores_mono v w zv zw :
  In v col -> In w col -> v <= w ->
  label_of bins [5; 4; 3; 2; 1]%Z v = Some zv ->
  label_of bins [5; 4; 3; 2; 1]%Z w = Some zw ->
  (zw <= zv)%Z.
Proof.
  intros Hv Hw Hvw E1 E2.
  rewrite (descending_score v Hv) in E1. rewrite (descending_score w Hw) in E2.
  assert (Ev : (6 - Z.of_nat (ids v))%Z = zv) by congruence.
  assert (Ew : (6 - Z.of_nat (ids w))%Z = zw) by congruence.
  pose proof (ids_mono v w Hv Hvw). lia.
Qed.

End ValueBins.

(** What [qcut] returns when it returns. *)
Lemma qcut_ok x q labels scores :
  qcut x q labels = Ok scores ->
  dropna x <> [] /\
  all_distinct (quantile_edges (dropna x) q) = true /\
  scores = map (fun v =>
                  match v with
                  | Some v => label_of (quantile_edges (dropna x) q) labels v
                  | None => None
                  end) x.
Proof.
  unfold qcut. destruct (dropna x) as [|v vs] eqn:E; [discriminate|].
  destruct (all_distinct _) eqn:D; [|discriminate].
  intros [= <-]. repeat split; congruence.
Qed.

Lemma qcut_returns_iff x q labels :
  returns (qcut x q labels) <->
  dropna x <> [] /\ all_distinct (quantile_edges (dropna x) q) = true.
Proof.
  split.
  - intros (scores & H). apply qcut_ok in H. tauto.
  - intros (Hne & Hd). unfold qcut.
    destruct (dropna x) as [|v vs]; [contradiction|].
    rewrite Hd. eexists. reflexivity.
Qed.

(** A column of one value has six equal edges. *)
Lemma quantile_singleton z p : quantile [z] p == z.
Proof.
  unfold quantile. cbn [List.length].
  change (inject_Z (Z.of_nat 1 - 1)) with 0.
  assert (E : p * 0 == 0) by ring.
  assert (Hlo : Qfloor (p * 0) = 0%Z) by (rewrite E; reflexivity).
  rewrite Hlo. cbn [Z.to_nat nth]. rewrite E. ring.
Qed.

Lemma qcut_single_value z q labels :
  qcut [Some z] (S q) labels = Raise duplicate_edges.
Proof.
  unfold qcut. cbn [dropna].
  assert (D : all_distinct (quantile_edges [z] (S q)) = false).
  { unfold quantile_edges. cbn [seq map sort_asc fold_right insert_asc all_distinct forallb].
    assert (E : Qeq_bool (quantile [z] (of_nat 0 / of_nat (S q)))
                         (quantile [z] (of_nat 1 / of_nat (S q))) = true).
    { apply Qeq_bool_iff. rewrite !quantile_singleton. reflexivity. }
    rewrite E. reflexivity. }
  rewrite D. reflexivity.
Qed.

End QcutFacts.

Module RfmScoresFacts.
Import Num NumFacts Rfm Qcut QcutFacts RfmScores.
Local Open Scope Z_scope.

Lemma filter_map_length {A B} (f : B -> bool) (g : A -> B) (l : list A) :
  List.length (filter f (map g l)) = List.length (filter (fun x => f (g x)) l).
Proof.
  induction l as [|x l IH]; cbn; [reflexivity|].
  destruct (f (g x)); cbn; congruence.
Qed.

Lemma nth_error_seq_inv start len i x :
  nth_error (seq start len) i = Some x -> (i < len)%nat /\ x = (start + i)%nat.
Proof.
  revert start i. induction len as [|len IH]; intros start [|i]; cbn;
    try discriminate.
  - intros [= <-]. lia.
  - intro H. apply IH in H. lia.
Qed.

(** *** Columns binned by rank *)

Section RankColumn.
Variable values : list Q.
Let n := List.length values.
Hypothesis two : (2 <= n)%nat.

Let scores : list (option Z) :=
  map (fun i => Some (Z.of_nat (quintile n (rank_at values i)))) (seq 0 n).

Lemma rank_scores_qcut :
  qcut (map Some (rank_first values)) 5 [1; 2; 3; 4; 5] = Ok scores.
Proof.
  apply qcut_rank_first; unfold n in two; lia.
Qed.

Lemma rank_scores_nth i z :
  nth_error scores i = Some (Some z) ->
  (i < n)%nat /\ z = Z.of_nat (quintile n (rank_at values i)).
Proof.
  unfold scores. rewrite nth_error_map.
  destruct (nth_error (seq 0 n) i) as [i'|] eqn:E; [|discriminate].
  apply nth_error_seq_inv in E. destruct E as (Hi & ->).
  cbn. intros [= <-]. auto.
Qed.

Lemma rank_scores_1_to_5 : scored_1_to_5 n scores.
Proof.
  split.
  - unfold scores. rewrite length_map, length_seq. reflexivity.
  - apply Forall_forall. intros s Hs. unfold scores in Hs.
    apply in_map_iff in Hs. destruct Hs as (i & <- & _).
    eexists. split; [reflexivity|].
    pose proof (quintile_range n (rank_at values i)). lia.
Qed.

Lemma rank_scores_balanced : balanced n scores.
Proof.
  intros k Hk. unfold score_count, scores.
  rewrite filter_map_length.
  rewrite (filter_ext _
    (fun i => (quintile n (rank_at values i) =? Z.to_nat k)%nat)).
  2:{ intro i. destruct (Z.eqb_spec (Z.of_nat (quintile n (rank_at values i))) k),
        (Nat.eqb_spec (quintile n (rank_at values i)) (Z.to_nat k));
        try reflexivity; exfalso; lia. }
  rewrite <- (filter_map_length (fun r => (quintile n r =? Z.to_nat k)%nat)
                                (rank_at values)).
  rewrite (filter_perm_length _ _ _ (ranks_perm values)). fold n.
  apply quintile_count; lia.
Qed.

Lemma rank_scores_ascending : ascending_by_rank values scores.
Proof.
  intros i j zi zj Hi Hj Hlt.
  apply rank_scores_nth in Hi, Hj. destruct Hi as (Hi & ->), Hj as (Hj & ->).
  apply inj_le, quintile_mono.
  destruct Hlt as [Hlt|[Heq Hij]].
  - pose proof (rank_at_lt_value values i j Hi Hlt). lia.
  - pose proof (rank_at_lt_tie values i j Hij Hi Heq). lia.
Qed.

End RankColumn.

Lemma rank_binned (values : list Q) :
  (2 <= List.length values)%nat ->
  exists scores,
    qcut (map Some (rank_first values)) 5 [1; 2; 3; 4; 5] = Ok scores /\
    scored_1_to_5 (List.length values) scores /\
    balanced (List.length values) scores /\
    ascending_by_rank values scores.
Proof.
  intro H.
  exists (map (fun i => Some (Z.of_nat (quintile (List.length values)
                                            (rank_at values i))))
              (seq 0 (List.length values))).
  split; [exact (rank_scores_qcut values H)|].
  split; [apply rank_scores_1_to_5; exact H|].
  split; [exact (rank_scores_balanced values H)|].
  apply rank_scores_ascending; exact H.
Qed.

(** *** The Recency column *)

Lemma recency_scores (x : list (option Q)) (r : list (option Z)) :
  qcut x 5 [5; 4; 3; 2; 1] = Ok r ->
  List.length r = List.length x /\
  (forall i v, nth_error x i = Some (Some v) ->
     exists z, nth_error r i = Some (Some z) /\ 1 <= z <= 5 /\
               label_of (quantile_edges (dropna x) 5) [5; 4; 3; 2; 1] v = Some z) /\
  (forall i, nth_error x i = Some None -> nth_error r i = Some None).
Proof.
  intro H. apply qcut_ok in H. destruct H as (Hne & _ & ->).
  split; [apply length_map|]. split.
  - intros i v Hi.
    assert (Hv : In v (dropna x)) by (apply in_dropna; eapply nth_error_In; eauto).
    destruct (descending_scores_range (dropna x) Hne v Hv) as (z & Hz & Hr).
    exists z. split; [|auto].
    rewrite nth_error_map, Hi. cbn [option_map]. rewrite Hz. reflexivity.
  - intros i Hi. rewrite nth_error_map, Hi. reflexivity.
Qed.

Lemma recency_scores_present (values : list Q) (r : list (option Z)) :
  qcut (map Some values) 5 [5; 4; 3; 2; 1] = Ok r ->
  scored_1_to_5 (List.length values) r /\ descending_by_value values r.
Proof.
  intro H. apply qcut_ok in H. rewrite dropna_map_Some in H.
  destruct H as (Hne & _ & ->). rewrite map_map.
  split; [split|].
  - apply length_map.
  - apply Forall_forall. intros s Hs. apply in_map_iff in Hs.
    destruct Hs as (v & <- & Hv).
    apply (descending_scores_range values Hne v Hv).
  - intros i j zi zj Hi Hj Hle.
    rewrite nth_error_map in Hi, Hj.
    destruct (nth_error values i) as [v|] eqn:Ev; [|discriminate].
    destruct (nth_error values j) as [w|] eqn:Ew; [|discriminate].
    cbn [option_map] in Hi, Hj.
    rewrite (nth_error_nth _ _ 0%Q Ev), (nth_error_nth _ _ 0%Q Ew) in Hle.
    apply (descending_scores_mono values Hne v w zi zj).
    + exact (nth_error_In _ _ Ev).
    + exact (nth_error_In _ _ Ew).
    + exact Hle.
    + congruence.
    + congruence.
Qed.

(** *** Segment assignment over the table *)

Lemma returns_Ok {A} (a : A) : returns (Ok a).
Proof. exists a. reflexivity. Qed.

Lemma not_returns_Raise {A} (e : exn) : ~ returns (@Raise A e).
Proof. intros (a & H). discriminate. Qed.

Lemma returns_bind_Ok {A B} (c : result A) (g : A -> B) :
  returns (x <- c ;; Ok (g x)) <-> returns c.
Proof.
  destruct c as [a|e]; cbn; split; intro H;
    try apply returns_Ok; exfalso; exact (not_returns_Raise e H).
Qed.

Lemma assign_segments_returns rfm r f m :
  List.length r = List.length rfm ->
  List.length f = List.length rfm ->
  List.length m = List.length rfm ->
  returns (assign_segments rfm r f m) <->
  Forall (fun s => s <> None) r /\
  Forall (fun s => s <> None) f /\
  Forall (fun s => s <> None) m.
Proof.
  revert r f m. induction rfm as [|row rfm IH]; intros [|r0 r] [|f0 f] [|m0 m];
    cbn [List.length]; try discriminate; intros Hr Hf Hm.
  - cbn. split; [auto|intros _; apply returns_Ok].
  - injection Hr as Hr. injection Hf as Hf. injection Hm as Hm.
    specialize (IH r f m Hr Hf Hm). cbn [assign_segments].
    destruct r0 as [ri|], f0 as [fi|], m0 as [mi|]; cbn [to_int bind];
      try (split; [intro H; exfalso; exact (not_returns_Raise _ H)
                  |intros (H1 & H2 & H3);
                   inversion H1; inversion H2; inversion H3; congruence]).
    rewrite returns_bind_Ok, IH.
    split; intros (H1 & H2 & H3).
    + repeat split; constructor; auto; discriminate.
    + inversion H1; inversion H2; inversion H3; auto.
Qed.

Lemma scored_not_missing n scores :
  scored_1_to_5 n scores -> Forall (fun s => s <> None) scores.
Proof.
  intros (_ & H). eapply Forall_impl; [|exact H].
  intros s (z & -> & _). discriminate.
Qed.

Lemma rfm_table_length df : List.length (rfm_table df) = List.length (customer_keys df).
Proof.
  unfold rfm_table. apply length_map.
Qed.

Lemma frequency_values_length rfm :
  List.length (frequency_values rfm) = List.length rfm.
Proof. apply length_map. Qed.

Lemma monetary_values_length rfm :
  List.length (monetary_values rfm) = List.length rfm.
Proof. apply length_map. Qed.

Lemma F_Score_ranked rfm :
  (2 <= List.length rfm)%nat ->
  exists f, F_Score rfm = Ok f /\
    scored_1_to_5 (List.length rfm) f /\
    balanced (List.length rfm) f /\
    ascending_by_rank (frequency_values rfm) f.
Proof.
  intro H. rewrite <- (frequency_values_length rfm) in *.
  apply (rank_binned (frequency_values rfm) H).
Qed.

Lemma M_Score_ranked rfm :
  (2 <= List.length rfm)%nat ->
  exists m, M_Score rfm = Ok m /\
    scored_1_to_5 (List.length rfm) m /\
    balanced (List.length rfm) m /\
    ascending_by_rank (monetary_values rfm) m.
Proof.
  intro H. rewrite <- (monetary_values_length rfm) in *.
  apply (rank_binned (monetary_values rfm) H).
Qed.

(** The analysis returns exactly when the Recency binning does and every
    customer has a Recency. *)
Lemma score_table_returns rfm :
  (2 <= List.length rfm)%nat ->
  returns (score_table rfm) <->
  returns (R_Score rfm) /\ Forall (fun row => Recency row <> None) rfm.
Proof.
  intro Hn.
  destruct (F_Score_ranked rfm Hn) as (f & EF & Hf & _).
  destruct (M_Score_ranked rfm Hn) as (m & EM & Hm & _).
  unfold score_table. rewrite EF, EM.
  destruct (R_Score rfm) as [r|e] eqn:ER; cbn [bind].
  2:{ split; [intro H|intros (H & _)]; exfalso; exact (not_returns_Raise _ H). }
  destruct (recency_scores _ _ ER) as (Hlen & Hsome & Hnone).
  rewrite length_map in Hlen.
  rewrite (assign_segments_returns rfm r f m Hlen (proj1 Hf) (proj1 Hm)).
  split.
  - intros (Hr & _). split; [apply returns_Ok|].
    apply Forall_forall. intros row Hrow Hmiss.
    destruct (In_nth_error _ _ Hrow) as (i & Hi).
    assert (Hx : nth_error (map (fun row => option_map inject_Z (Recency row)) rfm) i
                 = Some None)
      by (rewrite nth_error_map, Hi; cbn; rewrite Hmiss; reflexivity).
    apply Hnone in Hx. apply nth_error_In in Hx.
    rewrite Forall_forall in Hr. exact (Hr None Hx eq_refl).
  - intros (_ & Hall). split; [|split; eapply scored_not_missing; eauto].
    apply Forall_forall. intros s Hs Hmiss. subst s.
    destruct (In_nth_error _ _ Hs) as (i & Hi).
    assert (Hi' : (i < List.length rfm)%nat)
      by (rewrite <- Hlen; apply nth_error_Some; congruence).
    destruct (nth_error rfm i) as [row|] eqn:Erow;
      [|apply nth_error_None in Erow; lia].
    rewrite Forall_forall in Hall.
    specialize (Hall row (nth_error_In _ _ Erow)).
    destruct (Recency row) as [z|] eqn:Ez; [|contradiction].
    destruct (Hsome i (inject_Z z)) as (s & Hs' & _).
    { rewrite nth_error_map, Erow. cbn. rewrite Ez. reflexivity. }
    congruence.
Qed.

Lemma R_Score_present rfm recency :
  recency_values rfm = map Some recency ->
  (returns (R_Score rfm) <->
     recency <> [] /\ all_distinct (quantile_edges recency 5) = true) /\
  (forall r, R_Score rfm = Ok r ->
     scored_1_to_5 (List.length rfm) r /\ descending_by_value recency r).
Proof.
  intro H.
  assert (Hlen : List.length recency = List.length rfm).
  { apply (f_equal (@List.length _)) in H.
    unfold recency_values in H. rewrite !length_map in H. congruence. }
  change (R_Score rfm) with (qcut (recency_values rfm) 5 [5; 4; 3; 2; 1]).
  rewrite H. split.
  - rewrite qcut_returns_iff, dropna_map_Some. reflexivity.
  - intros r Hr. rewrite <- Hlen. apply recency_scores_present, Hr.
Qed.

Lemma balanced_nonempty n scores k :
  (5 <= n)%nat -> balanced n scores -> 1 <= k <= 5 ->
  (1 <= score_count scores k)%nat.
Proof.
  intros Hn Hb Hk. specialize (Hb k Hk). div5 n. lia.
Qed.

(** C3 fails as stated for Recency.  With Recency 1, 2, 3, 3, 4, 5, 6
    the analysis returns, the two customers with Recency 3 share a score
    (no tie-breaking) and no customer scores 3, so the Recency bins are
    not five balanced groups; with five customers who share one last
    order date the Recency binning raises and the analysis aborts. *)
Lemma recency_bins_not_balanced :
  List.length (customer_keys tied_recency) = 7%nat /\
  map Recency (rfm_table tied_recency)
    = [Some 1; Some 2; Some 3; Some 3; Some 4; Some 5; Some 6] /\
  R_Score (rfm_table tied_recency)
    = Ok [Some 5; Some 5; Some 4; Some 4; Some 2; Some 1; Some 1] /\
  returns (perform_rfm_analysis tied_recency) /\
  ~ balanced 7 [Some 5; Some 5; Some 4; Some 4; Some 2; Some 1; Some 1] /\
  List.length (customer_keys same_day) = 5%nat /\
  perform_rfm_analysis same_day = Raise duplicate_edges.
Proof.
  split; [vm_compute; reflexivity|]. split; [vm_compute; reflexivity|].
  split; [vm_compute; reflexivity|].
  split; [eexists; vm_compute; reflexivity|].
  split; [|split; vm_compute; reflexivity].
  intro H. specialize (H 3 ltac:(lia)). vm_compute in H. lia.
Qed.

(** *** Fewer than five customers *)

Lemma score_table_at_most_one rfm :
  (List.length rfm <= 1)%nat -> score_table rfm = Raise duplicate_edges.
Proof.
  intro H. unfold score_table.
  assert (E : R_Score rfm = Raise duplicate_edges); [|rewrite E; reflexivity].
  unfold R_Score.
  destruct rfm as [|row [|row' rfm]]; cbn [List.length] in H; [| |lia].
  - reflexivity.
  - cbn [map]. destruct (Recency row) as [z|]; cbn [option_map].
    + apply qcut_single_value.
    + reflexivity.
Qed.

(** C5, as the code has it.  With fewer than 5 customers there is no
    fallback.  With at most one customer the scoring always raises
    ValueError (all bin edges coincide).  With 2 to 4 customers the
    Frequency and Monetary rank binning returns scores from 1 to 5 in
    rank order, at most one customer per score; the Recency binning of
    customers who all have a valid last order date returns exactly when
    its six quantile edges are distinct; and the analysis returns exactly
    when the Recency binning does and every customer has a Recency,
    raising otherwise. *)
Theorem small_population_scoring (df : frame) :
  (List.length (customer_keys df) < 5)%nat ->
  let rfm := rfm_table df in
  let n := List.length (customer_keys df) in
  ((n <= 1)%nat -> perform_rfm_analysis df = Raise duplicate_edges) /\
  ((2 <= n)%nat ->
     (exists f, F_Score rfm = Ok f /\ scored_1_to_5 n f /\
        (forall k, 1 <= k <= 5 -> (score_count f k <= 1)%nat) /\
        ascending_by_rank (frequency_values rfm) f) /\
     (exists m, M_Score rfm = Ok m /\ scored_1_to_5 n m /\
        (forall k, 1 <= k <= 5 -> (score_count m k <= 1)%nat) /\
        ascending_by_rank (monetary_values rfm) m) /\
     (forall recency, recency_values rfm = map Some recency ->
        (returns (R_Score rfm) <->
           all_distinct (quantile_edges recency 5) = true) /\
        (forall r, R_Score rfm = Ok r ->
           scored_1_to_5 n r /\ descending_by_value recency r)) /\
     (returns (perform_rfm_analysis df) <->
        returns (R_Score rfm) /\ Forall (fun row => Recency row <> None) rfm)).
Proof.
  intros Hn rfm n. subst n. rewrite <- (rfm_table_length df) in *.
  fold rfm in Hn |- *. split.
  - intro H. apply score_table_at_most_one, H.
  - intro H2. split; [|split; [|split]].
    + destruct (F_Score_ranked rfm H2) as (f & E & H1 & Hb & H3).
      exists f. split; [exact E|]. split; [exact H1|]. split; [|exact H3].
      intros k Hk. specialize (Hb k Hk). div5 (List.length rfm + 4)%nat. lia.
    + destruct (M_Score_ranked rfm H2) as (m & E & H1 & Hb & H3).
      exists m. split; [exact E|]. split; [exact H1|]. split; [|exact H3].
      intros k Hk. specialize (Hb k Hk). div5 (List.length rfm + 4)%nat. lia.
    + intros recency Hrec.
      destruct (R_Score_present rfm recency Hrec) as (Hret & Hok).
      split; [|exact Hok].
      rewrite Hret. split; [tauto|]. intro Hd. split; [|exact Hd].
      intro E. subst recency. apply (f_equal (@List.length _)) in Hrec.
      unfold recency_values in Hrec. rewrite length_map in Hrec. cbn in Hrec. lia.
    + apply score_table_returns, H2.
Qed.

Lemma small_population_scoring_witness :
  perform_rfm_analysis one_customer = Raise duplicate_edges /\
  (exists m, M_Score (rfm_table three_customers) = Ok m /\
             forall k, 1 <= k <= 5 -> (score_count m k <= 1)%nat) /\
  M_Score (rfm_table three_customers) = Ok [Some 1; Some 3; Some 5] /\
  returns (perform_rfm_analysis three_customers).
Proof.
  assert (H1 : (List.length (customer_keys one_customer) < 5)%nat)
    by (vm_compute; lia).
  assert (H3 : (List.length (customer_keys three_customers) < 5)%nat)
    by (vm_compute; lia).
  destruct (small_population_scoring one_customer H1) as (Hone & _).
  destruct (small_population_scoring three_customers H3) as (_ & Hthree).
  split; [apply Hone; vm_compute; lia|].
  destruct Hthree as (_ & HM & HR & Hret); [vm_compute; lia|].
  split; [|split].
  - destruct HM as (m & E & _ & Hc & _). exists m. split; assumption.
  - vm_compute. reflexivity.
  - apply Hret. split.
    + apply (HR (map inject_Z [8; 5; 1])); vm_compute; reflexivity.
    + vm_compute. repeat constructor; discriminate.
Defined.

(** C5 fails as stated: with a single customer the quintile binning
    raises ValueError, and so it does with three customers who last
    ordered on the same day; nothing in the analysis catches it. *)
Lemma single_customer_raises :
  List.length (customer_keys one_customer) = 1%nat /\
  perform_rfm_analysis one_customer = Raise duplicate_edges /\
  List.length (customer_keys (firstn 3 same_day)) = 3%nat /\
  perform_rfm_analysis (firstn 3 same_day) = Raise duplicate_edges.
Proof.
  repeat split; vm_compute; reflexivity.
Qed.

(** *** Recency in the output *)

Lemma assign_segments_rows rfm r f m profiles :
  List.length r = List.length rfm ->
  List.length f = List.length rfm ->
  List.length m = List.length rfm ->
  assign_segments rfm r f m = Ok profiles ->
  map p_rfm profiles = rfm.
Proof.
  revert r f m profiles.
  induction rfm as [|row rfm IH]; intros [|r0 r] [|f0 f] [|m0 m] profiles;
    cbn [List.length]; try discriminate; intros Hr Hf Hm.
  - cbn. intros [= <-]. reflexivity.
  - injection Hr as Hr. injection Hf as Hf. injection Hm as Hm.
    cbn [assign_segments].
    destruct r0 as [ri|], f0 as [fi|], m0 as [mi|]; cbn [to_int bind];
      try discriminate.
    destruct (assign_segments rfm r f m) as [rest|e] eqn:E; cbn [bind];
      [|discriminate].
    intros [= <-]. cbn [map p_rfm]. f_equal. apply (IH r f m rest Hr Hf Hm E).
Qed.

Lemma score_table_rows rfm profiles :
  score_table rfm = Ok profiles -> map p_rfm profiles = rfm.
Proof.
  unfold score_table. intro H.
  destruct (R_Score rfm) as [r|e] eqn:ER; cbn [bind] in H; [|discriminate].
  destruct (F_Score rfm) as [f|e] eqn:EF; cbn [bind] in H; [|discriminate].
  destruct (M_Score rfm) as [m|e] eqn:EM; cbn [bind] in H; [|discriminate].
  apply qcut_ok in ER, EF, EM.
  destruct ER as (_ & _ & ->), EF as (_ & _ & ->), EM as (_ & _ & ->).
  apply (assign_segments_rows _ _ _ _ _) in H; [exact H| | |].
  - rewrite !length_map. reflexivity.
  - unfold rank_first. rewrite ?length_map, length_seq, ?length_map. reflexivity.
  - unfold rank_first. rewrite ?length_map, length_seq, ?length_map. reflexivity.
Qed.



End RfmScoresFacts.

(** *** The segment of a profile *)

Module SegmentProfiles.
Import Rfm RfmScores SegmentFacts RfmScoresFacts.
Local Open Scope string_scope.
Local Open Scope Z_scope.

(** Every profile that [assign_segments] makes carries the three scores
    of its customer and the label [assign_segment] gives them. *)
Lemma assign_segments_labels rfm r f m profiles :
  assign_segments rfm r f m = Ok profiles ->
  Forall (fun p =>
            exists ri fi mi,
              p_R p = Some ri /\ p_F p = Some fi /\ p_M p = Some mi /\
              Segment p = Segment.assign_segment (Segment.mk_scored_row ri fi mi))
         profiles.
Proof.
  revert r f m profiles.
  induction rfm as [|row rfm IH]; intros r f m profiles H.
  - cbn in H. injection H as <-. constructor.
  - destruct r as [|r0 r], f as [|f0 f], m as [|m0 m];
      try (cbn in H; injection H as <-; constructor).
    cbn [assign_segments] in H.
    destruct r0 as [ri|], f0 as [fi|], m0 as [mi|]; cbn [to_int bind] in H;
      try discriminate.
    destruct (assign_segments rfm r f m) as [rest|e] eqn:E; cbn [bind] in H;
      [|discriminate].
    injection H as <-. constructor.
    + exists ri, fi, mi. cbn. auto.
    + apply (IH r f m rest E).
Qed.

(** The label of a profile, read off the decision table. *)
Lemma table_label p :
  (exists ri fi mi,
     p_R p = Some ri /\ p_F p = Some fi /\ p_M p = Some mi /\
     Segment p = Segment.assign_segment (Segment.mk_scored_row ri fi mi)) ->
  exists r f m,
    p_R p = Some r /\ p_F p = Some f /\ p_M p = Some m /\
    Segment p = Segment.table_segment r f m /\
    Segment.first_wins r f m "Regular" Segment.decision_table (Segment p).
Proof.
  intros (ri & fi & mi & Hr & Hf & Hm & Hs).
  exists ri, fi, mi. rewrite Hs, assign_segment_table. cbn.
  repeat split; try assumption.
  apply first_match_first_wins, decision_table_sound.
Qed.

(** C1. For every profile the segment label is the outcome of the
    priority-ordered decision table on the profile's (R, F, M) scores,
    first match wins: the label of the first rule of the table whose
    condition the scores satisfy, "Regular" when no rule applies.  This
    holds of the profiles that line 488 makes from any three score
    columns, and so of the profiles the analysis returns, one per
    customer of the RFM table. *)
Theorem segment_is_decision_table :
  (forall rfm r f m profiles,
     assign_segments rfm r f m = Ok profiles ->
     Forall (fun p =>
               exists r f m,
                 p_R p = Some r /\ p_F p = Some f /\ p_M p = Some m /\
                 Segment p = Segment.table_segment r f m /\
                 Segment.first_wins r f m "Regular" Segment.decision_table
                                    (Segment p))
            profiles) /\
  (forall df profiles,
     perform_rfm_analysis df = Ok profiles ->
     map p_rfm profiles = rfm_table df /\
     Forall (fun p =>
               exists r f m,
                 p_R p = Some r /\ p_F p = Some f /\ p_M p = Some m /\
                 Segment p = Segment.table_segment r f m /\
                 Segment.first_wins r f m "Regular" Segment.decision_table
                                    (Segment p))
            profiles).
Proof.
  assert (Hany : forall rfm r f m profiles,
             assign_segments rfm r f m = Ok profiles ->
             Forall (fun p =>
                       exists r f m,
                         p_R p = Some r /\ p_F p = Some f /\ p_M p = Some m /\
                         Segment p = Segment.table_segment r f m /\
                         Segment.first_wins r f m "Regular"
                           Segment.decision_table (Segment p))
                    profiles).
  { intros rfm r f m profiles H.
    eapply Forall_impl; [|exact (assign_segments_labels _ _ _ _ _ H)].
    exact table_label. }
  split; [exact Hany|].
  intros df profiles H. unfold perform_rfm_analysis in H.
  split; [exact (score_table_rows _ _ H)|].
  unfold score_table in H.
  destruct (R_Score (rfm_table df)) as [r|e]; cbn [bind] in H; [|discriminate].
  destruct (F_Score (rfm_table df)) as [f|e]; cbn [bind] in H; [|discriminate].
  destruct (M_Score (rfm_table df)) as [m|e]; cbn [bind] in H; [|discriminate].
  exact (Hany _ _ _ _ _ H).
Qed.

Lemma segment_is_decision_table_witness :
  exists profiles,
    perform_rfm_analysis Extremes.ranked_customers = Ok profiles /\
    map Segment profiles = ["Hibernating"; "Loyal Customers"; "Champions"] /\
    Forall (fun p =>
              exists r f m,
                p_R p = Some r /\ p_F p = Some f /\ p_M p = Some m /\
                Segment p = Segment.table_segment r f m)
           profiles.
Proof.
  destruct (perform_rfm_analysis Extremes.ranked_customers) as [profiles|e] eqn:E;
    [|vm_compute in E; discriminate].
  exists profiles. split; [reflexivity|].
  destruct segment_is_decision_table as (_ & Hdf).
  destruct (Hdf Extremes.ranked_customers profiles E) as (_ & H).
  split.
  - vm_compute in E. injection E as <-. reflexivity.
  - eapply Forall_impl; [|exact H].
    intros p (r & f & m & Hr & Hf & Hm & Hs & _). eauto 8.
Defined.

End SegmentProfiles.

Module SegmentCases.
Import Segment.
Local Open Scope string_scope.
Local Open Scope Z_scope.

(** X1. The seven segments read as disjoint conditions on any integer
    scores, without the priority order: "Promising" is reached only with
    r = 3 (r >= 4 is taken by "New Customers"), "Loyal Customers" only
    when not all three scores are at least 4, and "Regular" exactly when
    F and M lie on opposite sides of the 2/3 split, whatever R is. *)
Theorem segment_conditions (row : scored_row) :
  let r := R_Score row in
  let f := F_Score row in
  let m := M_Score row in
  (assign_segment row = "Champions" <-> r >= 4 /\ f >= 4 /\ m >= 4) /\
  (assign_segment row = "Loyal Customers" <->
     r >= 3 /\ f >= 3 /\ m >= 3 /\ (r = 3 \/ f = 3 \/ m = 3)) /\
  (assign_segment row = "New Customers" <-> r >= 4 /\ f <= 2 /\ m <= 2) /\
  (assign_segment row = "Promising" <-> r = 3 /\ f <= 2 /\ m <= 2) /\
  (assign_segment row = "Need Attention" <-> r <= 2 /\ f >= 3 /\ m >= 3) /\
  (assign_segment row = "Hibernating" <-> r <= 2 /\ f <= 2 /\ m <= 2) /\
  (assign_segment row = "Regular" <->
     (f <= 2 /\ m >= 3) \/ (f >= 3 /\ m <= 2)).
Proof.
  intros r f m. unfold assign_segment. fold r f m.
  rewrite !Z.geb_leb.
  assert (Hr : r <= 2 \/ r = 3 \/ 4 <= r) by lia.
  assert (Hf : f <= 2 \/ f = 3 \/ 4 <= f) by lia.
  assert (Hm : m <= 2 \/ m = 3 \/ 4 <= m) by lia.
  destruct Hr as [Hr|[Hr|Hr]], Hf as [Hf|[Hf|Hf]], Hm as [Hm|[Hm|Hm]];
    repeat match goal with
    | |- context [(?a <=? ?b)] =>
        first [rewrite (proj2 (Z.leb_le a b)) by lia
              |rewrite (proj2 (Z.leb_gt a b)) by lia]
    end; cbn [andb];
    repeat split; intros; try discriminate; try reflexivity; lia.
Qed.

End SegmentCases.

Module JoinRows.
Import Join JoinFacts.

Lemma rows_with_unique {R} (key_r : R -> key) (right : list R) (k : key) :
  NoDup (map key_r right) -> (List.length (rows_with key_r right k) <= 1)%nat.
Proof.
  unfold rows_with. induction right as [|r right IH]; cbn; [lia|].
  intro H. inversion H as [|? ? Hnot Hrest]; subst.
  destruct (key_eqb k (key_r r)) eqn:E; [|auto].
  apply key_eqb_eq in E. subst k.
  assert (Hnone : filter (fun r' => key_eqb (key_r r) (key_r r')) right = []).
  { clear IH H Hrest. induction right as [|r' right IH]; cbn; [reflexivity|].
    destruct (key_eqb (key_r r) (key_r r')) eqn:E'.
    - exfalso. apply Hnot. left. apply key_eqb_eq in E'. congruence.
    - apply IH. intro Hin. apply Hnot. right. exact Hin. }
  rewrite Hnone. cbn. lia.
Qed.

Lemma length_flat_map_repeat {A} (n : A -> nat) (xs : list A) :
  List.length (flat_map (fun x => repeat x (n x)) xs) = list_sum (map n xs).
Proof.
  unfold list_sum. induction xs as [|x xs IH]; cbn; [reflexivity|].
  rewrite length_app, repeat_length, IH. reflexivity.
Qed.

Lemma list_sum_at_least {A} (n : A -> nat) (xs : list A) :
  (forall x, 1 <= n x)%nat -> (List.length xs <= list_sum (map n xs))%nat.
Proof.
  intro H. unfold list_sum. induction xs as [|x xs IH]; cbn; [lia|].
  specialize (H x). lia.
Qed.

Section Rows.
Context {SalesAttrs CustomerAttrs ProductAttrs TerritoryAttrs : Type}.
Variables (customer_df : list (customer CustomerAttrs))
          (product_df : list (product ProductAttrs))
          (sales_df : list (sale SalesAttrs))
          (territories_df : list (territory TerritoryAttrs)).

(** X2. When no dimension table repeats a key, the joined frame has
    exactly the sales rows, one output row each, in the same order. *)
Theorem merge_data_unique_keys :
  NoDup (map customer_key customer_df) ->
  NoDup (map product_key product_df) ->
  NoDup (map territory_key territories_df) ->
  map m_sale (merge_data customer_df product_df sales_df territories_df)
    = sales_df /\
  List.length (merge_data customer_df product_df sales_df territories_df)
    = List.length sales_df.
Proof.
  intros Hc Hp Ht.
  assert (E : map m_sale (merge_data customer_df product_df sales_df territories_df)
              = sales_df).
  { rewrite sales_of_merge_data. apply flat_map_repeat_id. intros s _.
    unfold copies, customers_of, products_of, territories_of.
    pose proof (rows_with_unique customer_key customer_df (CustomerKey s) Hc).
    pose proof (rows_with_unique product_key product_df (ProductKey s) Hp).
    pose proof (rows_with_unique territory_key territories_df
                  (SalesTerritoryKey s) Ht).
    nia. }
  split; [exact E|].
  rewrite <- E at 2. rewrite length_map. reflexivity.
Qed.

(** X3. The joined frame never has fewer rows than the sales table: its
    row count is the sum, over the sales rows, of the number of
    combinations of matching dimension rows (a table without a match
    counting once), so a key that a dimension table repeats multiplies
    the sales rows that carry it. *)
Theorem merge_data_row_count :
  List.length (merge_data customer_df product_df sales_df territories_df)
    = list_sum (map (copies customer_df product_df territories_df) sales_df) /\
  (List.length sales_df
     <= List.length (merge_data customer_df product_df sales_df territories_df))%nat.
Proof.
  assert (E : List.length (merge_data customer_df product_df sales_df territories_df)
              = list_sum (map (copies customer_df product_df territories_df)
                              sales_df)).
  { rewrite <- (length_map m_sale), sales_of_merge_data.
    apply length_flat_map_repeat. }
  split; [exact E|].
  rewrite E. apply list_sum_at_least. intro s. apply copies_pos.
Qed.

End Rows.

Lemma merge_data_unique_keys_witness :
  let customer_df := [mk_customer (Some 1) "Ann"%string;
                      mk_customer (Some 2) "Bob"%string] in
  let product_df := [mk_product (Some 10) "Bike"%string] in
  let territories_df := [mk_territory (Some 100) "Europe"%string] in
  let sales_df := [mk_sale (Some 2) (Some 10) (Some 100) 25;
                   mk_sale (Some 2) (Some 11) None 40;
                   mk_sale (Some 1) (Some 10) (Some 100) 5] in
  map m_sale (merge_data customer_df product_df sales_df territories_df)
  = sales_df.
Proof.
  intros customer_df product_df territories_df sales_df.
  apply (merge_data_unique_keys customer_df product_df sales_df territories_df).
  - repeat constructor; cbn; intuition discriminate.
  - repeat constructor; cbn; intuition discriminate.
  - repeat constructor; cbn; intuition discriminate.
Defined.

End JoinRows.

(** Sums over the groups of a [groupby]. *)

Module GroupSum.
Local Open Scope Q_scope.

Lemma fold_plus_acc (col : list Q) (a : Q) :
  fold_left Qplus col a == a + fold_left Qplus col 0.
Proof.
  revert a. induction col as [|x col IH]; intro a; cbn; [ring|].
  rewrite (IH (a + x)), (IH (0 + x)). ring.
Qed.

Lemma fold_plus_cons (x : Q) (col : list Q) :
  fold_left Qplus (x :: col) 0 == x + fold_left Qplus col 0.
Proof.
  cbn. rewrite fold_plus_acc. ring.
Qed.

Lemma fold_plus_perm (l l' : list Q) :
  Permutation l l' -> fold_left Qplus l 0 == fold_left Qplus l' 0.
Proof.
  induction 1 as [|x l l' _ IH|x y l|l l' l'' _ IH1 _ IH2].
  - reflexivity.
  - rewrite !fold_plus_cons, IH. reflexivity.
  - rewrite !fold_plus_cons. ring.
  - rewrite IH1. exact IH2.
Qed.

Lemma fold_plus_nonneg (col : list Q) :
  Forall (fun x => 0 <= x) col -> 0 <= fold_left Qplus col 0.
Proof.
  induction 1 as [|x col Hx _ IH]; [cbn; lra|].
  rewrite fold_plus_cons. lra.
Qed.

Lemma existsb_false {A} (l : list A) : existsb (fun _ => false) l = false.
Proof.
  induction l as [|x l IH]; cbn; auto.
Qed.

Section Groups.
Variables (row K : Type) (key : row -> option K) (val : row -> option Q).
Variable eqb : K -> K -> bool.
Hypothesis eqb_eq : forall a b, eqb a b = true <-> a = b.

(** The row belongs to the group of [k]. *)
Let has (k : K) (r : row) : bool :=
  match key r with
  | Some k' => eqb k k'
  | None => false
  end.

(** The sum of the values of some rows that are not missing. *)
Let total (rows : list row) : Q := fold_left Qplus (dropna (map val rows)) 0.

Lemma total_cons r rows :
  total (r :: rows)
  == match val r with Some v => v | None => 0 end + total rows.
Proof.
  unfold total. cbn [map dropna]. destruct (val r) as [v|].
  - apply fold_plus_cons.
  - ring.
Qed.

Lemma total_split (p q : row -> bool) (rows : list row) :
  (forall r, p r = true -> q r = false) ->
  total (filter (fun r => p r || q r) rows)
  == total (filter p rows) + total (filter q rows).
Proof.
  intro H. induction rows as [|r rows IH]; [unfold total; cbn; ring|].
  cbn [filter]. specialize (H r).
  destruct (p r), (q r); cbn [orb]; rewrite ?total_cons, IH;
    try ring. specialize (H eq_refl). discriminate.
Qed.

(** The groups of distinct keys partition the rows that have one of the
    keys, so the group sums add up to the sum over those rows. *)
Lemma group_totals (keys : list K) (rows : list row) :
  NoDup keys ->
  fold_left Qplus (map (fun k => total (filter (has k) rows)) keys) 0
  == total (filter (fun r => existsb (fun k => has k r) keys) rows).
Proof.
  induction 1 as [|k keys Hk _ IH].
  - cbn [map existsb fold_left].
    assert (E : filter (fun _ : row => false) rows = [])
      by (induction rows; cbn; auto).
    rewrite E. reflexivity.
  - cbn [map existsb]. rewrite fold_plus_cons, IH.
    symmetry. apply total_split.
    intros r Hr. unfold has in *.
    destruct (key r) as [k'|]; [|discriminate].
    apply eqb_eq in Hr. subst k'.
    destruct (existsb (fun k0 => eqb k0 k) keys) eqn:E; [|reflexivity].
    apply existsb_exists in E. destruct E as (k0 & Hin & E).
    apply eqb_eq in E. subst k0. contradiction.
Qed.

(** When the keys are all the keys of the rows, the group sums add up to
    the sum over the rows that have a key. *)
Lemma group_totals_all (keys : list K) (rows : list row) :
  NoDup keys ->
  (forall r k, In r rows -> key r = Some k -> In k keys) ->
  fold_left Qplus (map (fun k => total (filter (has k) rows)) keys) 0
  == total (filter (fun r => match key r with Some _ => true | None => false end)
                   rows).
Proof.
  intros Hnd Hall. rewrite (group_totals keys rows Hnd).
  assert (E : filter (fun r => existsb (fun k => has k r) keys) rows
              = filter (fun r => match key r with Some _ => true | None => false end)
                       rows).
  { apply filter_ext_in. intros r Hr. unfold has.
    destruct (key r) as [k|] eqn:Ek.
    - apply existsb_exists. exists k. split; [exact (Hall r k Hr Ek)|].
      apply eqb_eq. reflexivity.
    - apply existsb_false. }
  rewrite E. reflexivity.
Qed.

End Groups.

End GroupSum.

Module RfmTable.
Import Rfm RfmFacts.
Local Open Scope Z_scope.

(** *** The group keys *)

Lemma in_insert_key k keys x : In x (insert_key k keys) <-> x = k \/ In x keys.
Proof.
  induction keys as [|k' keys IH]; cbn; [intuition|].
  destruct (Z.ltb_spec k k'); [cbn; intuition|].
  destruct (Z.eqb_spec k k'); [subst; cbn; intuition|].
  cbn. rewrite IH. intuition.
Qed.

Lemma insert_key_sorted k keys :
  Sorted Z.lt keys -> Sorted Z.lt (insert_key k keys).
Proof.
  induction 1 as [|k' keys Hs IH Hd]; cbn; [repeat constructor|].
  destruct (Z.ltb_spec k k'); [repeat constructor; assumption|].
  destruct (Z.eqb_spec k k'); [constructor; assumption|].
  constructor; [exact IH|].
  destruct keys as [|k'' keys]; cbn; [constructor; lia|].
  destruct (Z.ltb_spec k k''); [constructor; lia|].
  destruct (Z.eqb_spec k k''); constructor; [inversion Hd; lia|].
  inversion Hd. assumption.
Qed.

Lemma customer_keys_sorted df : StronglySorted Z.lt (customer_keys df).
Proof.
  apply Sorted_StronglySorted; [exact Z.lt_trans|].
  unfold customer_keys.
  induction (dropna (map CustomerKey df)) as [|k ks IH]; cbn; [constructor|].
  apply insert_key_sorted, IH.
Qed.

Lemma sorted_lt_NoDup keys : StronglySorted Z.lt keys -> NoDup keys.
Proof.
  induction 1 as [|k keys _ IH Hk]; constructor; [|exact IH].
  intro Hin. rewrite Forall_forall in Hk. specialize (Hk k Hin). lia.
Qed.

Lemma in_customer_keys df k :
  In k (customer_keys df) <-> exists row, In row df /\ CustomerKey row = Some k.
Proof.
  unfold customer_keys.
  assert (H : forall ks, In k (fold_right insert_key [] ks) <-> In k ks).
  { induction ks as [|k' ks IH]; cbn; [tauto|].
    rewrite in_insert_key, IH. intuition. }
  rewrite H, in_dropna, in_map_iff. split; intros (row & H1 & H2); eauto.
Qed.

Lemma group_spec df k row :
  In row (group df k) <-> In row df /\ CustomerKey row = Some k.
Proof.
  unfold group, key_is. rewrite filter_In.
  destruct (CustomerKey row) as [k'|]; [|intuition discriminate].
  rewrite Z.eqb_eq. intuition congruence.
Qed.

(** X4. The RFM table has exactly one row per customer key that occurs
    in the frame, in strictly increasing key order; records without a
    customer key belong to no row. *)
Theorem rfm_one_row_per_customer (df : frame) :
  map rfm_CustomerKey (rfm_table df) = customer_keys df /\
  StronglySorted Z.lt (map rfm_CustomerKey (rfm_table df)) /\
  NoDup (map rfm_CustomerKey (rfm_table df)) /\
  (forall k, In k (map rfm_CustomerKey (rfm_table df)) <->
             exists row, In row df /\ CustomerKey row = Some k).
Proof.
  assert (E : map rfm_CustomerKey (rfm_table df) = customer_keys df).
  { unfold rfm_table. rewrite map_map. cbn. apply map_id. }
  rewrite E. split; [reflexivity|].
  split; [apply customer_keys_sorted|].
  split; [apply sorted_lt_NoDup, customer_keys_sorted|].
  apply in_customer_keys.
Qed.

(** *** Frequency *)

Lemma nodup_length_le {A} (dec : forall x y : A, {x = y} + {x <> y}) (l : list A) :
  (List.length (nodup dec l) <= List.length l)%nat.
Proof.
  induction l as [|x l IH]; cbn; [lia|].
  destruct (in_dec dec x l); cbn; lia.
Qed.

Lemma nodup_constant {A} (dec : forall x y : A, {x = y} + {x <> y})
    (l : list A) (s : A) :
  l <> [] -> (forall x, In x l -> x = s) -> nodup dec l = [s].
Proof.
  induction l as [|x l IH]; [contradiction|]. intros _ H.
  assert (x = s) by (apply H; left; reflexivity). subst x.
  cbn. destruct (in_dec dec s l) as [Hin|Hout].
  - apply IH; [intro E; subst; contradiction|].
    intros y Hy. apply H. right. exact Hy.
  - destruct l as [|y l]; [reflexivity|].
    exfalso. apply Hout. left. apply H. right. left. reflexivity.
Qed.

Lemma dropna_length_le {A} (col : list (option A)) :
  (List.length (dropna col) <= List.length col)%nat.
Proof.
  induction col as [|[a|] col IH]; cbn; lia.
Qed.

(** X5. Frequency is the number of distinct order numbers of the
    customer: it lies between 0 and the number of the customer's
    records, and a customer whose records all carry one and the same
    order number has Frequency 1. *)
Theorem frequency_bounds (df : frame) :
  Forall (fun row =>
    let g := group df (rfm_CustomerKey row) in
    0 <= Frequency row <= Z.of_nat (List.length g) /\
    forall s, (forall r, In r g -> SalesOrderNumber r = Some s) ->
              Frequency row = 1)
    (rfm_table df).
Proof.
  apply Forall_forall. intros row Hrow.
  unfold rfm_table in Hrow. apply in_map_iff in Hrow.
  destruct Hrow as (k & <- & Hk). cbn [rfm_CustomerKey Frequency].
  unfold nunique. split.
  - pose proof (nodup_length_le string_dec
                  (dropna (map SalesOrderNumber (group df k)))).
    pose proof (dropna_length_le (map SalesOrderNumber (group df k))).
    rewrite length_map in *. lia.
  - intros s Hs.
    apply in_customer_keys in Hk. destruct Hk as (r0 & Hr0 & Hkey).
    assert (Hin : In r0 (group df k)) by (apply group_spec; auto).
    rewrite (nodup_constant string_dec _ s); [reflexivity| |].
    + intro E. assert (Hs0 : In s (dropna (map SalesOrderNumber (group df k)))).
      { apply in_dropna, in_map_iff. exists r0. split; [apply Hs, Hin|exact Hin]. }
      rewrite E in Hs0. contradiction.
    + intros x Hx. apply in_dropna, in_map_iff in Hx.
      destruct Hx as (r & Hr & Hrin). rewrite (Hs r Hrin) in Hr. congruence.
Qed.

Lemma frequency_bounds_witness :
  let df := [mk_order (Some 1) (Some 0) (Some "SO1"%string) (Some (5#1)%Q);
             mk_order (Some 1) (Some 0) (Some "SO1"%string) (Some (7#1)%Q);
             mk_order (Some 2) (Some 0) None (Some (7#1)%Q)] in
  exists row rest, rfm_table df = row :: rest /\ Frequency row = 1.
Proof.
  intro df. pose proof (frequency_bounds df) as H.
  destruct (rfm_table df) as [|row rest] eqn:E; [vm_compute in E; discriminate|].
  exists row, rest. split; [reflexivity|].
  apply Forall_inv in H. cbn zeta in H. destruct H as (_ & H).
  apply (H "SO1"%string). intros r Hr.
  assert (Ek : rfm_CustomerKey row = 1)
    by (vm_compute in E; injection E as <- _; reflexivity).
  rewrite Ek in Hr. vm_compute in Hr.
  destruct Hr as [<-|[<-|[]]]; reflexivity.
Defined.

(** *** Monetary *)

Lemma groups_add_row (r : order_row) (k0 : Z) (df : frame) (keys : list Z) :
  CustomerKey r = Some k0 -> NoDup keys -> In k0 keys ->
  Permutation (List.concat (map (group (r :: df)) keys))
              (r :: List.concat (map (group df) keys)).
Proof.
  intros Hr. induction 1 as [|k keys Hk Hnd IH]; intro Hin; [contradiction|].
  cbn [map List.concat]. unfold group at 1. cbn [filter]. unfold key_is at 1.
  rewrite Hr. destruct (Z.eqb_spec k k0) as [->|Hne].
  - fold (key_is k0). fold (group df k0). cbn [app]. apply perm_skip.
    apply Permutation_app_head.
    rewrite (map_ext_in (group (r :: df)) (group df)); [apply Permutation_refl|].
    intros k' Hk'. unfold group. cbn [filter]. unfold key_is at 1. rewrite Hr.
    destruct (Z.eqb_spec k' k0) as [->|_]; [contradiction|reflexivity].
  - fold (key_is k). fold (group df k).
    destruct Hin as [E|Hin]; [contradiction|].
    apply (perm_trans (Permutation_app_head _ (IH Hin))).
    apply Permutation_sym, Permutation_middle.
Qed.

Lemma groups_skip_row (r : order_row) (df : frame) (keys : list Z) :
  CustomerKey r = None ->
  List.concat (map (group (r :: df)) keys) = List.concat (map (group df) keys).
Proof.
  intro Hr. f_equal. apply map_ext. intro k.
  unfold group. cbn [filter]. unfold key_is at 1. rewrite Hr. reflexivity.
Qed.

(** The groups hold every record with a customer key once. *)
Lemma groups_partition (df : frame) (keys : list Z) :
  NoDup keys ->
  (forall r k, In r df -> CustomerKey r = Some k -> In k keys) ->
  Permutation (List.concat (map (group df) keys))
              (filter (fun row => match CustomerKey row with
                                  | Some _ => true
                                  | None => false
                                  end) df).
Proof.
  intros Hnd. induction df as [|r df IH]; intro Hall.
  - cbn [filter].
    assert (E : List.concat (map (group []) keys) = []).
    { clear. induction keys as [|k keys IH]; [reflexivity|exact IH]. }
    rewrite E. apply perm_nil.
  - assert (Hdf : forall r' k, In r' df -> CustomerKey r' = Some k -> In k keys)
      by (intros r' k Hr'; apply Hall; right; exact Hr').
    cbn [filter]. destruct (CustomerKey r) as [k0|] eqn:Hr.
    + apply (perm_trans (groups_add_row r k0 df keys Hr Hnd
                           (Hall r k0 (or_introl eq_refl) Hr))).
      apply perm_skip, IH, Hdf.
    + rewrite (groups_skip_row r df keys Hr). apply IH, Hdf.
Qed.

(** X6. Grouping loses no revenue.  The groups of the customer keys
    hold every record that has a customer key exactly once.  When every
    sales amount is a whole number and the absolute amounts add up to
    less than 2^53, so that the sums of the code are exact, the Monetary
    values of the RFM table add up to the sales amount of all records
    that have a customer key (missing amounts counting as nothing). *)
Theorem monetary_total (df : frame) :
  let keyed := filter (fun row => match CustomerKey row with
                                  | Some _ => true
                                  | None => false
                                  end) df in
  Permutation (List.concat (map (group df) (customer_keys df))) keyed /\
  (exact_amounts df ->
   (fold_left Qplus (map Monetary (rfm_table df)) 0
    == sum (map SalesAmount keyed))%Q).
Proof.
  intro keyed. subst keyed. split.
  - apply groups_partition.
    + apply sorted_lt_NoDup, customer_keys_sorted.
    + intros r k Hr Hk. apply in_customer_keys. eauto.
  - intros _. unfold rfm_table. rewrite map_map. cbn [Monetary].
    apply (GroupSum.group_totals_all order_row Z CustomerKey SalesAmount
             Z.eqb Z.eqb_eq (customer_keys df) df).
    + apply sorted_lt_NoDup, customer_keys_sorted.
    + intros r k Hr Hk. apply in_customer_keys. eauto.
Qed.

Lemma monetary_total_witness :
  let df := [mk_order (Some 1) (Some 0) (Some "SO1"%string) (Some (5#1)%Q);
             mk_order (Some 2) (Some 0) (Some "SO2"%string) (Some (7#1)%Q);
             mk_order (Some 1) (Some 0) (Some "SO3"%string) None;
             mk_order None (Some 0) (Some "SO4"%string) (Some (9#1)%Q);
             mk_order (Some 1) (Some 0) (Some "SO5"%string) (Some (2#1)%Q)] in
  exact_amounts df /\
  map Monetary (rfm_table df) = [(7#1)%Q; (7#1)%Q] /\
  (fold_left Qplus (map Monetary (rfm_table df)) 0 == 14)%Q.
Proof.
  intro df.
  assert (H : exact_amounts df).
  { split; [repeat constructor|reflexivity]. }
  split; [exact H|]. split; [reflexivity|].
  rewrite (proj2 (monetary_total df) H). reflexivity.
Defined.

(** *** Recency *)

Lemma days_mono a b : a <= b -> days a <= days b.
Proof.
  intro H. unfold days, one_day. apply Z.div_le_mono; lia.
Qed.

Lemma days_one : days one_day = 1.
Proof. reflexivity. Qed.

(** X7. Recency is inverted with respect to the last order date: of two
    customers the one who ordered later never has the larger Recency,
    and a customer whose last order is the latest order of the whole
    frame has Recency exactly 1. *)
Theorem recency_order (df : frame) (a b : rfm_row) (ma mb : Z) :
  In a (rfm_table df) -> In b (rfm_table df) ->
  last_order df (rfm_CustomerKey a) = Some ma ->
  last_order df (rfm_CustomerKey b) = Some mb ->
  ma <= mb ->
  exists ra rb,
    Recency a = Some ra /\ Recency b = Some rb /\ 1 <= rb <= ra /\
    (max_date (map OrderDate df) = Some mb -> rb = 1).
Proof.
  intros Ha Hb Hma Hmb Hle.
  pose proof (recency_of_rows df) as H. rewrite Forall_forall in H.
  destruct (H a Ha ma Hma) as (latest & Hl & _ & Hra & Hda).
  destruct (H b Hb mb Hmb) as (latest' & Hl' & _ & Hrb & Hdb).
  assert (latest' = latest) by congruence. subst latest'.
  exists (days (latest + one_day - ma)), (days (latest + one_day - mb)).
  split; [exact Hra|]. split; [exact Hrb|]. split.
  - split; [exact Hdb|]. apply days_mono. lia.
  - intro Hmax. assert (mb = latest) by congruence. subst mb.
    replace (latest + one_day - latest) with one_day by lia. apply days_one.
Qed.

Lemma recency_order_witness :
  let df := [mk_order (Some 1) (Some (3 * one_day)) None None;
             mk_order (Some 2) (Some (10 * one_day)) None None] in
  map Recency (rfm_table df) = [Some 8; Some 1] /\
  exists ra rb,
    Recency (mk_rfm 1 (Some 8) 0 0%Q) = Some ra /\
    Recency (mk_rfm 2 (Some 1) 0 0%Q) = Some rb /\ 1 <= rb <= ra.
Proof.
  intro df. split; [vm_compute; reflexivity|].
  destruct (recency_order df (mk_rfm 1 (Some 8) 0 0%Q) (mk_rfm 2 (Some 1) 0 0%Q)
              (3 * one_day) (10 * one_day)) as (ra & rb & H1 & H2 & H3 & _).
  - vm_compute. left. reflexivity.
  - vm_compute. right. left. reflexivity.
  - vm_compute. reflexivity.
  - vm_compute. reflexivity.
  - vm_compute. discriminate.
  - exists ra, rb. auto.
Defined.

End RfmTable.

Module ScoreExtremes.
Import Num NumFacts Rfm Qcut QcutFacts RfmScores RfmScoresFacts Extremes.
Local Open Scope Q_scope.

(** *** Where a quantile lies *)

Lemma quantile_index (n : nat) (p : Q) :
  (1 <= n)%nat -> 0 <= p <= 1 ->
  let pos := p * inject_Z (Z.of_nat n - 1) in
  (0 <= Qfloor pos <= Z.of_nat n - 1)%Z /\
  inject_Z (Qfloor pos) <= pos /\ pos < inject_Z (Qfloor pos) + 1.
Proof.
  intros Hn [Hp0 Hp1] pos.
  assert (HN0 : 0 <= inject_Z (Z.of_nat n - 1)).
  { change 0 with (inject_Z 0). rewrite <- Zle_Qle. lia. }
  assert (Hpos0 : 0 <= pos) by (unfold pos; apply Qmult_le_0_compat; assumption).
  assert (HposN : pos <= inject_Z (Z.of_nat n - 1)).
  { unfold pos. rewrite <- (Qmult_1_l (inject_Z (Z.of_nat n - 1))) at 2.
    apply Qmult_le_compat_r; assumption. }
  split; [split|split].
  - rewrite <- (Qfloor_Z 0). apply Qfloor_resp_le. exact Hpos0.
  - rewrite <- (Qfloor_Z (Z.of_nat n - 1)). apply Qfloor_resp_le. exact HposN.
  - apply Qfloor_le.
  - pose proof (Qlt_floor pos) as H. rewrite inject_Z_plus in H. exact H.
Qed.

Lemma fifth_in_unit k : (k <= 5)%nat -> 0 <= of_nat k / of_nat 5 <= 1.
Proof.
  intro Hk. change (of_nat 5) with 5.
  assert (H0 : 0 <= of_nat k).
  { unfold of_nat. change 0 with (inject_Z 0). rewrite <- Zle_Qle. lia. }
  assert (H5 : of_nat k <= 5).
  { unfold of_nat. change 5 with (inject_Z 5). rewrite <- Zle_Qle. lia. }
  split.
  - apply Qle_shift_div_l; lra.
  - apply Qle_shift_div_r; lra.
Qed.

(** A quantile of equal values is that value. *)
Lemma quantile_constant (sorted : list Q) (v p : Q) :
  sorted <> [] -> (forall x, In x sorted -> x = v) -> 0 <= p <= 1 ->
  quantile sorted p == v.
Proof.
  intros Hne Hall Hp.
  assert (Hn : (1 <= List.length sorted)%nat)
    by (destruct sorted; [contradiction|cbn; lia]).
  destruct (quantile_index _ p Hn Hp) as ((Hlo0 & HloN) & _).
  unfold quantile.
  set (lo := Qfloor (p * inject_Z (Z.of_nat (List.length sorted) - 1))) in *.
  assert (Ha : nth (Z.to_nat lo) sorted 0 = v) by (apply Hall, nth_In; lia).
  rewrite Ha.
  assert (Hb : nth (S (Z.to_nat lo)) sorted v = v).
  { destruct (Nat.lt_ge_cases (S (Z.to_nat lo)) (List.length sorted)) as [H|H].
    - apply Hall, nth_In, H.
    - apply nth_overflow, H. }
  rewrite Hb. ring.
Qed.

(** A quantile is not above the greatest value. *)
Lemma quantile_upper (sorted : list Q) (p : Q) :
  StronglySorted Qle sorted -> sorted <> [] -> 0 <= p <= 1 ->
  quantile sorted p <= nth (List.length sorted - 1) sorted 0.
Proof.
  intros Hs Hne Hp.
  assert (Hn : (1 <= List.length sorted)%nat)
    by (destruct sorted; [contradiction|cbn; lia]).
  destruct (quantile_index _ p Hn Hp) as ((Hlo0 & HloN) & Hfl & Hfu).
  unfold quantile.
  set (pos := p * inject_Z (Z.of_nat (List.length sorted) - 1)) in *.
  set (lo := Qfloor pos) in *.
  set (a := nth (Z.to_nat lo) sorted 0).
  assert (Ha : a <= nth (List.length sorted - 1) sorted 0)
    by (apply sorted_nth; [exact Hs|lia|lia]).
  destruct (Nat.lt_ge_cases (S (Z.to_nat lo)) (List.length sorted)) as [Hin|Hout].
  - set (b := nth (S (Z.to_nat lo)) sorted a).
    assert (Eb : b = nth (S (Z.to_nat lo)) sorted 0)
      by (apply nth_indep; exact Hin).
    assert (Hab : a <= b) by (rewrite Eb; apply sorted_nth; [exact Hs|lia|lia]).
    assert (Hb : b <= nth (List.length sorted - 1) sorted 0)
      by (rewrite Eb; apply sorted_nth; [exact Hs|lia|lia]).
    assert (Hm : (pos - inject_Z lo) * (b - a) <= 1 * (b - a))
      by (apply Qmult_le_compat_r; lra).
    lra.
  - assert (Hb : nth (S (Z.to_nat lo)) sorted a = a) by (apply nth_overflow, Hout).
    rewrite Hb.
    assert (E : a + (pos - inject_Z lo) * (a - a) == a) by ring.
    rewrite E. exact Ha.
Qed.

(** *** Equal values *)

Lemma all_equal_sorted (values : list Q) (v : Q) :
  (forall x, In x values -> x = v) -> forall x, In x (sort_asc values) -> x = v.
Proof.
  intros H x Hx. apply H.
  apply (Permutation_in x (sort_asc_perm values) Hx).
Qed.

Lemma qcut_equal_values (values : list Q) (v : Q) (labels : list Z) :
  (forall x, In x values -> x = v) ->
  qcut (map Some values) 5 labels = Raise duplicate_edges.
Proof.
  intro H. unfold qcut. rewrite dropna_map_Some.
  destruct values as [|x values]; [reflexivity|].
  set (col := x :: values) in *.
  assert (Hne : sort_asc col <> []).
  { intro E. apply (f_equal (@List.length Q)) in E.
    rewrite sort_asc_length in E. discriminate. }
  assert (D : all_distinct (quantile_edges col 5) = false).
  { unfold quantile_edges. cbn [seq map all_distinct forallb].
    assert (E : Qeq_bool (quantile (sort_asc col) (of_nat 0 / of_nat 5))
                         (quantile (sort_asc col) (of_nat 1 / of_nat 5)) = true).
    { apply Qeq_bool_iff.
      rewrite !(quantile_constant (sort_asc col) v);
        try reflexivity; try assumption;
        try (apply all_equal_sorted; exact H);
        apply fifth_in_unit; lia. }
    rewrite E. reflexivity. }
  rewrite D. reflexivity.
Qed.

(** X8. When all customers have the same Recency (the same last order
    day), the Recency binning finds six equal quantile edges and the
    analysis raises ValueError, however many customers there are. *)
Theorem equal_recency_raises (df : frame) (z : Z) :
  Forall (fun row => Recency row = Some z) (rfm_table df) ->
  perform_rfm_analysis df = Raise duplicate_edges.
Proof.
  intro H. unfold perform_rfm_analysis, score_table.
  assert (E : R_Score (rfm_table df) = Raise duplicate_edges);
    [|rewrite E; reflexivity].
  unfold R_Score.
  assert (Ex : map (fun row => option_map inject_Z (Recency row)) (rfm_table df)
               = map Some (map (fun _ => inject_Z z) (rfm_table df))).
  { rewrite map_map. apply map_ext_in. intros row Hrow.
    rewrite Forall_forall in H. rewrite (H row Hrow). reflexivity. }
  rewrite Ex. apply (qcut_equal_values _ (inject_Z z)).
  intros x Hx. apply in_map_iff in Hx. destruct Hx as (row & <- & _). reflexivity.
Qed.

Lemma equal_recency_raises_witness :
  perform_rfm_analysis same_day = Raise duplicate_edges.
Proof.
  apply (equal_recency_raises same_day 1).
  vm_compute. repeat constructor.
Defined.

(** *** The ends of the inverted scale *)

Lemma all_distinct_nth bins i j :
  all_distinct bins = true -> (i < j < List.length bins)%nat ->
  ~ nth i bins 0 == nth j bins 0.
Proof.
  revert i j. induction bins as [|b rest IH]; intros i j Hd Hij;
    [cbn in Hij; lia|].
  cbn [all_distinct] in Hd. apply andb_prop in Hd. destruct Hd as (Hb & Hd).
  cbn [List.length] in Hij.
  destruct j as [|j]; [lia|]. destruct i as [|i]; cbn [nth].
  - rewrite forallb_forall in Hb.
    specialize (Hb (nth j rest 0) ltac:(apply nth_In; lia)).
    apply negb_true_iff in Hb. q_reflect. exact Hb.
  - apply IH; [exact Hd|lia].
Qed.

Section Ends.
Variable values : list Q.
Hypothesis values_nonempty : values <> [].
Hypothesis distinct : all_distinct (quantile_edges values 5) = true.

Let edge (k : nat) : Q := quantile (sort_asc values) (of_nat k / of_nat 5).
Let top : Q := nth (List.length values - 1) (sort_asc values) 0.
Let bottom : Q := nth 0 (sort_asc values) 0.

Lemma sorted_nonempty : sort_asc values <> [].
Proof.
  intro E. apply (f_equal (@List.length Q)) in E.
  rewrite sort_asc_length in E. destruct values; [contradiction|discriminate].
Qed.

Lemma edge_below_top k : (k < 5)%nat -> edge k < top.
Proof.
  intro Hk.
  assert (Hle : edge k <= top).
  { unfold edge, top. rewrite <- (sort_asc_length values).
    apply quantile_upper;
      [apply sort_asc_sorted|apply sorted_nonempty|apply fifth_in_unit; lia]. }
  assert (Htop : edge 5 == top) by (apply quantile_highest, values_nonempty).
  assert (Hne : ~ edge k == edge 5).
  { pose proof (all_distinct_nth _ k 5 distinct) as H.
    unfold quantile_edges in H.
    rewrite !nth_map_seq in H by lia. apply H.
    rewrite length_map, length_seq. lia. }
  destruct (Qle_lt_or_eq _ _ Hle) as [H|H]; [exact H|].
  exfalso. apply Hne. rewrite H, Htop. reflexivity.
Qed.

Lemma least_is_bottom v :
  In v values -> (forall w, In w values -> v <= w) -> v == bottom.
Proof.
  intros Hv Hmin. apply Qle_antisym.
  - apply Hmin. apply (Permutation_in _ (sort_asc_perm values)).
    apply nth_In. rewrite sort_asc_length.
    destruct values; [contradiction|cbn; lia].
  - apply (sorted_bounds values v Hv).
Qed.

Lemma greatest_is_top v :
  In v values -> (forall w, In w values -> w <= v) -> v == top.
Proof.
  intros Hv Hmax. apply Qle_antisym.
  - apply (sorted_bounds values v Hv).
  - apply Hmax. apply (Permutation_in _ (sort_asc_perm values)).
    apply nth_In. rewrite sort_asc_length.
    destruct values; [contradiction|cbn; lia].
Qed.

Lemma least_label v :
  In v values -> (forall w, In w values -> v <= w) ->
  label_of (quantile_edges values 5) [5; 4; 3; 2; 1]%Z v = Some 5%Z.
Proof.
  intros Hv Hmin.
  assert (B : Qeq_bool v (hd 0 (quantile_edges values 5)) = true).
  { apply Qeq_bool_iff. rewrite (lowest_bin values values_nonempty).
    apply least_is_bottom; assumption. }
  unfold label_of, bin_of. rewrite B. reflexivity.
Qed.

Lemma greatest_label v :
  In v values -> (forall w, In w values -> w <= v) ->
  label_of (quantile_edges values 5) [5; 4; 3; 2; 1]%Z v = Some 1%Z.
Proof.
  intros Hv Hmax.
  pose proof (greatest_is_top v Hv Hmax) as Hv'.
  assert (Hk : forall k, (k < 5)%nat -> Qlt_bool (edge k) v = true).
  { intros k Hk. apply Qlt_bool_iff. rewrite Hv'. apply edge_below_top, Hk. }
  assert (H5 : Qlt_bool (edge 5) v = false).
  { apply Qlt_bool_false. rewrite Hv'.
    assert (Htop : edge 5 == top) by (apply quantile_highest, values_nonempty).
    rewrite Htop. apply Qle_refl. }
  assert (B : Qeq_bool v (edge 0) = false).
  { apply Qeq_bool_false. intro E.
    pose proof (edge_below_top 0 ltac:(lia)) as H. rewrite <- E, Hv' in H.
    exact (Qlt_irrefl _ H). }
  pose proof (Hk 0%nat ltac:(lia)) as L0. pose proof (Hk 1%nat ltac:(lia)) as L1.
  pose proof (Hk 2%nat ltac:(lia)) as L2. pose proof (Hk 3%nat ltac:(lia)) as L3.
  pose proof (Hk 4%nat ltac:(lia)) as L4.
  unfold edge in *.
  unfold label_of, bin_of, quantile_edges.
  cbn [seq map hd searchsorted_left List.length].
  rewrite B, L0, L1, L2, L3, L4, H5. reflexivity.
Qed.

End Ends.

Lemma inverted_ends (values : list Q) (r : list (option Z)) :
  qcut (map Some values) 5 [5; 4; 3; 2; 1]%Z = Ok r -> ends_inverted values r.
Proof.
  intro H. apply qcut_ok in H. rewrite dropna_map_Some in H.
  destruct H as (Hne & Hd & ->). rewrite map_map.
  intros j v Hj. rewrite nth_error_map, Hj. cbn [option_map].
  pose proof (nth_error_In _ _ Hj) as Hv.
  split; intro Hall; do 2 f_equal.
  - apply least_label; assumption.
  - apply greatest_label; assumption.
Qed.

(** *** The ends of the ascending scale *)

Lemma rank_at_greatest (col : list Q) (j : nat) :
  (j < List.length col)%nat ->
  (forall i, (i < List.length col)%nat -> i <> j -> nth i col 0 < nth j col 0) ->
  rank_at col j = List.length col.
Proof.
  intros Hj Hmax.
  assert (Hin : In (List.length col) (map (rank_at col) (seq 0 (List.length col)))).
  { apply (Permutation_in _ (Permutation_sym (ranks_perm col))).
    apply in_seq. lia. }
  apply in_map_iff in Hin. destruct Hin as (i & Hi & Hin). apply in_seq in Hin.
  destruct (Nat.eq_dec i j) as [->|Hne]; [exact Hi|].
  pose proof (rank_at_lt_value col i j ltac:(lia) (Hmax i ltac:(lia) Hne)).
  pose proof (rank_at_range col j Hj). lia.
Qed.

Lemma rank_at_least (col : list Q) (j : nat) :
  (j < List.length col)%nat ->
  (forall i, (i < List.length col)%nat -> i <> j -> nth j col 0 < nth i col 0) ->
  rank_at col j = 1%nat.
Proof.
  intros Hj Hmin.
  assert (Hin : In 1%nat (map (rank_at col) (seq 0 (List.length col)))).
  { apply (Permutation_in _ (Permutation_sym (ranks_perm col))).
    apply in_seq. lia. }
  apply in_map_iff in Hin. destruct Hin as (i & Hi & Hin). apply in_seq in Hin.
  destruct (Nat.eq_dec i j) as [->|Hne]; [exact Hi|].
  pose proof (rank_at_lt_value col j i Hj (Hmin i ltac:(lia) Hne)).
  pose proof (rank_at_range col j Hj). lia.
Qed.

Lemma ascending_ends (values : list Q) :
  (2 <= List.length values)%nat ->
  exists scores,
    qcut (map Some (rank_first values)) 5 [1; 2; 3; 4; 5]%Z = Ok scores /\
    ends_ascending values scores.
Proof.
  intro Hn. eexists. split; [exact (rank_scores_qcut values Hn)|].
  intros j Hj.
  assert (E : forall k,
             rank_at values j = k ->
             nth_error
               (map (fun i => Some (Z.of_nat (quintile (List.length values)
                                                       (rank_at values i))))
                    (seq 0 (List.length values))) j
             = Some (Some (Z.of_nat (quintile (List.length values) k)))).
  { intros k <-. rewrite nth_error_map.
    rewrite (nth_error_nth' _ 0%nat) by (rewrite length_seq; exact Hj).
    rewrite seq_nth by exact Hj. reflexivity. }
  split; intro H.
  - rewrite (E _ (rank_at_greatest values j Hj H)).
    rewrite (quintile_last _ Hn). reflexivity.
  - rewrite (E _ (rank_at_least values j Hj H)).
    rewrite quintile_first. reflexivity.
Qed.

(** X10. With at least two customers, the customer whose Frequency is
    above every other customer's has F_Score 5 and the one whose
    Frequency is below every other's has F_Score 1; the same holds for
    Monetary and M_Score. *)
Theorem frequency_monetary_ends (rfm : list rfm_row) :
  (2 <= List.length rfm)%nat ->
  exists f m,
    F_Score rfm = Ok f /\ M_Score rfm = Ok m /\
    ends_ascending (frequency_values rfm) f /\
    ends_ascending (monetary_values rfm) m.
Proof.
  intro Hn.
  destruct (ascending_ends (frequency_values rfm)) as (f & Ef & Hf);
    [rewrite frequency_values_length; exact Hn|].
  destruct (ascending_ends (monetary_values rfm)) as (m & Em & Hm);
    [rewrite monetary_values_length; exact Hn|].
  exists f, m. auto.
Qed.

Lemma frequency_monetary_ends_witness :
  exists f m,
    F_Score (rfm_table three_customers) = Ok f /\
    M_Score (rfm_table three_customers) = Ok m /\
    nth_error m 2 = Some (Some 5%Z) /\ nth_error m 0 = Some (Some 1%Z).
Proof.
  destruct (frequency_monetary_ends (rfm_table three_customers))
    as (f & m & Ef & Em & _ & Hm); [vm_compute; lia|].
  exists f, m. split; [exact Ef|]. split; [exact Em|].
  split.
  - apply (Hm 2%nat); [vm_compute; lia|].
    intros [|[|[|i]]] Hi Hne; try (vm_compute in Hi; lia); try congruence;
      vm_compute; reflexivity.
  - apply (Hm 0%nat); [vm_compute; lia|].
    intros [|[|[|i]]] Hi Hne; try (vm_compute in Hi; lia); try congruence;
      vm_compute; reflexivity.
Defined.

(** *** The best and the worst customer *)

Lemma assign_segments_nth rfm r f m profiles j p :
  assign_segments rfm r f m = Ok profiles ->
  nth_error profiles j = Some p ->
  exists ri fi mi,
    nth_error r j = Some (Some ri) /\
    nth_error f j = Some (Some fi) /\
    nth_error m j = Some (Some mi) /\
    nth_error rfm j = Some (p_rfm p) /\
    Segment p = Segment.assign_segment (Segment.mk_scored_row ri fi mi).
Proof.
  revert r f m profiles j.
  induction rfm as [|row rfm IH]; intros r f m profiles j H Hj.
  - cbn in H. injection H as <-. destruct j; discriminate.
  - destruct r as [|r0 r], f as [|f0 f], m as [|m0 m];
      try (cbn in H; injection H as <-; destruct j; discriminate).
    cbn [assign_segments] in H.
    destruct r0 as [ri|], f0 as [fi|], m0 as [mi|]; cbn [to_int bind] in H;
      try discriminate.
    destruct (assign_segments rfm r f m) as [rest|e] eqn:E; cbn [bind] in H;
      [|discriminate].
    injection H as <-. destruct j as [|j].
    + cbn in Hj. injection Hj as <-. exists ri, fi, mi. cbn. auto.
    + cbn [nth_error] in *. apply (IH r f m rest j E Hj).
Qed.

Section Scored.
Variable rfm : list rfm_row.
Variable profiles : list profile.
Hypothesis scored : score_table rfm = Ok profiles.

Lemma scored_two : (2 <= List.length rfm)%nat.
Proof.
  destruct (Nat.le_gt_cases (List.length rfm) 1) as [Hle|Hgt]; [|lia].
  rewrite (score_table_at_most_one _ Hle) in scored. discriminate.
Qed.

Lemma scored_recency : Forall (fun row => Recency row <> None) rfm.
Proof.
  assert (H : returns (score_table rfm)) by (eexists; exact scored).
  apply (score_table_returns _ scored_two) in H. apply H.
Qed.

Let recency : list Q :=
  map (fun row => match Recency row with
                  | Some z => inject_Z z
                  | None => 0
                  end) rfm.

Lemma scored_recency_values : recency_values rfm = map Some recency.
Proof.
  unfold recency_values, recency. rewrite map_map. apply map_ext_in.
  intros row Hrow. pose proof scored_recency as H.
  rewrite Forall_forall in H. specialize (H row Hrow).
  destruct (Recency row); [reflexivity|contradiction].
Qed.

Lemma scored_row i q :
  nth_error profiles i = Some q -> nth_error rfm i = Some (p_rfm q).
Proof.
  intro H. rewrite <- (score_table_rows _ _ scored), nth_error_map, H.
  reflexivity.
Qed.

Lemma scored_profile i :
  (i < List.length rfm)%nat -> exists q, nth_error profiles i = Some q.
Proof.
  intro H. rewrite <- (score_table_rows _ _ scored), length_map in H.
  destruct (nth_error profiles i) as [q|] eqn:E; [eauto|].
  apply nth_error_None in E. lia.
Qed.

Lemma nth_column {A} (g : rfm_row -> A) (d : A) i row :
  nth_error rfm i = Some row -> nth i (map g rfm) d = g row.
Proof.
  intro H. apply nth_error_nth. rewrite nth_error_map, H. reflexivity.
Qed.

(** The three score columns behind the profiles. *)
Lemma scored_columns :
  exists r f m,
    assign_segments rfm r f m = Ok profiles /\
    ends_inverted recency r /\
    ends_ascending (frequency_values rfm) f /\
    ends_ascending (monetary_values rfm) m.
Proof.
  pose proof scored as H. unfold score_table in H.
  destruct (R_Score rfm) as [r|e] eqn:ER; cbn [bind] in H; [|discriminate].
  destruct (ascending_ends (frequency_values rfm)) as (f & Ef & Hf);
    [rewrite frequency_values_length; exact scored_two|].
  destruct (ascending_ends (monetary_values rfm)) as (m & Em & Hm);
    [rewrite monetary_values_length; exact scored_two|].
  change (F_Score rfm = Ok f) in Ef. change (M_Score rfm = Ok m) in Em.
  rewrite Ef, Em in H. cbn [bind] in H.
  exists r, f, m. split; [exact H|]. split; [|auto].
  apply inverted_ends.
  change (R_Score rfm) with (qcut (recency_values rfm) 5 [5; 4; 3; 2; 1]%Z) in ER.
  rewrite scored_recency_values in ER. exact ER.
Qed.

Lemma best_scores j p :
  nth_error profiles j = Some p ->
  (forall i q, nth_error profiles i = Some q -> i <> j ->
               ahead_of (p_rfm p) (p_rfm q)) ->
  Segment p = "Champions"%string.
Proof.
  intros Hj Hbest.
  destruct scored_columns as (r & f & m & Ha & Hr & Hf & Hm).
  destruct (assign_segments_nth _ _ _ _ _ _ _ Ha Hj)
    as (ri & fi & mi & Eri & Efi & Emi & Erow & ->).
  assert (Hlen : (j < List.length rfm)%nat)
    by (apply nth_error_Some; congruence).
  assert (Er : ri = 5%Z).
  { pose proof scored_recency as Hall. rewrite Forall_forall in Hall.
    pose proof (Hall _ (nth_error_In _ _ Erow)) as Hz.
    destruct (Recency (p_rfm p)) as [z|] eqn:Ez; [|contradiction].
    destruct (Hr j (inject_Z z)) as (H5 & _).
    { unfold recency. rewrite nth_error_map, Erow. cbn. rewrite Ez. reflexivity. }
    rewrite H5 in Eri; [congruence|].
    intros w Hw. destruct (In_nth_error _ _ Hw) as (i & Hi).
    unfold recency in Hi. rewrite nth_error_map in Hi.
    destruct (nth_error rfm i) as [row|] eqn:Ei; [|discriminate].
    cbn in Hi. injection Hi as <-.
    destruct (Nat.eq_dec i j) as [->|Hne].
    - assert (row = p_rfm p) by congruence. subst row. rewrite Ez. apply Qle_refl.
    - destruct (scored_profile i) as (q & Hq);
        [apply nth_error_Some; congruence|].
      pose proof (scored_row _ _ Hq) as Hq'.
      assert (row = p_rfm q) by congruence. subst row.
      pose proof (Hall _ (nth_error_In _ _ Ei)) as Hzq.
      destruct (Recency (p_rfm q)) as [zq|] eqn:Ezq; [|contradiction].
      destruct (Hbest i q Hq Hne) as (_ & _ & Hrec).
      rewrite <- Zle_Qle. apply (Hrec z zq); [exact Ez|exact Ezq]. }
  assert (Ef : fi = 5%Z).
  { destruct (Hf j) as (H5 & _);
      [rewrite frequency_values_length; exact Hlen|].
    rewrite H5 in Efi; [congruence|].
    rewrite frequency_values_length. intros i Hi Hne.
    destruct (scored_profile i Hi) as (q & Hq).
    unfold frequency_values.
    rewrite (nth_column _ _ _ _ (scored_row _ _ Hq)), (nth_column _ _ _ _ Erow).
    rewrite <- Zlt_Qlt. apply (Hbest i q Hq Hne). }
  assert (Em : mi = 5%Z).
  { destruct (Hm j) as (H5 & _);
      [rewrite monetary_values_length; exact Hlen|].
    rewrite H5 in Emi; [congruence|].
    rewrite monetary_values_length. intros i Hi Hne.
    destruct (scored_profile i Hi) as (q & Hq).
    unfold monetary_values.
    rewrite (nth_column _ _ _ _ (scored_row _ _ Hq)), (nth_column _ _ _ _ Erow).
    apply (Hbest i q Hq Hne). }
  subst. reflexivity.
Qed.

Lemma worst_scores j p :
  nth_error profiles j = Some p ->
  (forall i q, nth_error profiles i = Some q -> i <> j ->
               ahead_of (p_rfm q) (p_rfm p)) ->
  Segment p = "Hibernating"%string.
Proof.
  intros Hj Hworst.
  destruct scored_columns as (r & f & m & Ha & Hr & Hf & Hm).
  destruct (assign_segments_nth _ _ _ _ _ _ _ Ha Hj)
    as (ri & fi & mi & Eri & Efi & Emi & Erow & ->).
  assert (Hlen : (j < List.length rfm)%nat)
    by (apply nth_error_Some; congruence).
  assert (Er : ri = 1%Z).
  { pose proof scored_recency as Hall. rewrite Forall_forall in Hall.
    pose proof (Hall _ (nth_error_In _ _ Erow)) as Hz.
    destruct (Recency (p_rfm p)) as [z|] eqn:Ez; [|contradiction].
    destruct (Hr j (inject_Z z)) as (_ & H1).
    { unfold recency. rewrite nth_error_map, Erow. cbn. rewrite Ez. reflexivity. }
    rewrite H1 in Eri; [congruence|].
    intros w Hw. destruct (In_nth_error _ _ Hw) as (i & Hi).
    unfold recency in Hi. rewrite nth_error_map in Hi.
    destruct (nth_error rfm i) as [row|] eqn:Ei; [|discriminate].
    cbn in Hi. injection Hi as <-.
    destruct (Nat.eq_dec i j) as [->|Hne].
    - assert (row = p_rfm p) by congruence. subst row. rewrite Ez. apply Qle_refl.
    - destruct (scored_profile i) as (q & Hq);
        [apply nth_error_Some; congruence|].
      pose proof (scored_row _ _ Hq) as Hq'.
      assert (row = p_rfm q) by congruence. subst row.
      pose proof (Hall _ (nth_error_In _ _ Ei)) as Hzq.
      destruct (Recency (p_rfm q)) as [zq|] eqn:Ezq; [|contradiction].
      destruct (Hworst i q Hq Hne) as (_ & _ & Hrec).
      rewrite <- Zle_Qle. apply (Hrec zq z); [exact Ezq|exact Ez]. }
  assert (Ef : fi = 1%Z).
  { destruct (Hf j) as (_ & H1);
      [rewrite frequency_values_length; exact Hlen|].
    rewrite H1 in Efi; [congruence|].
    rewrite frequency_values_length. intros i Hi Hne.
    destruct (scored_profile i Hi) as (q & Hq).
    unfold frequency_values.
    rewrite (nth_column _ _ _ _ (scored_row _ _ Hq)), (nth_column _ _ _ _ Erow).
    rewrite <- Zlt_Qlt. apply (Hworst i q Hq Hne). }
  assert (Em : mi = 1%Z).
  { destruct (Hm j) as (_ & H1);
      [rewrite monetary_values_length; exact Hlen|].
    rewrite H1 in Emi; [congruence|].
    rewrite monetary_values_length. intros i Hi Hne.
    destruct (scored_profile i Hi) as (q & Hq).
    unfold monetary_values.
    rewrite (nth_column _ _ _ _ (scored_row _ _ Hq)), (nth_column _ _ _ _ Erow).
    apply (Hworst i q Hq Hne). }
  subst. reflexivity.
Qed.

End Scored.



End ScoreExtremes.

Module AbcShape.
Import Num NumFacts Abc AbcFacts GroupSum.
Local Open Scope string_scope.
Local Open Scope Q_scope.

(** *** Sums of parts of a column *)

Lemma sum_app (l1 l2 : list Q) : sum (l1 ++ l2) == sum l1 + sum l2.
Proof.
  unfold sum. rewrite fold_left_app, fold_plus_acc. reflexivity.
Qed.

Lemma sum_split (n : nat) (col : list Q) :
  sum col == sum (firstn n col) + sum (skipn n col).
Proof.
  rewrite <- sum_app, firstn_skipn. reflexivity.
Qed.

Lemma sum_nonpos (col : list Q) : Forall (fun x => x <= 0) col -> sum col <= 0.
Proof.
  unfold sum. induction 1 as [|x col Hx _ IH]; [cbn; lra|].
  rewrite fold_plus_cons. lra.
Qed.

Lemma Forall_skipn_of {A} (P : A -> Prop) (n : nat) (l : list A) :
  Forall P l -> Forall P (skipn n l).
Proof.
  intro H. rewrite <- (firstn_skipn n l) in H.
  apply Forall_app in H. apply H.
Qed.

(** In a column in descending order, either the first [j] values are
    all non-negative or the values after them are all non-positive. *)
Lemma sign_split (col : list Q) (j : nat) :
  StronglySorted (fun a b => b <= a) col ->
  Forall (fun x => 0 <= x) (firstn j col) \/
  Forall (fun x => x <= 0) (skipn j col).
Proof.
  intro H. revert j. induction H as [|x col Hs IH Hx]; intro j.
  - left. rewrite firstn_nil. constructor.
  - destruct j as [|j]; [left; constructor|].
    destruct (Qlt_le_dec x 0) as [Hneg|Hpos].
    + right. cbn [skipn]. apply Forall_skipn_of.
      eapply Forall_impl; [|exact Hx]. cbn. intros y Hy. lra.
    + destruct (IH j) as [Hl|Hr]; [left|right].
      * cbn [firstn]. constructor; assumption.
      * exact Hr.
Qed.

(** Hence a running total is not above a later one, unless the later
    one is already at least the total. *)
Lemma running_dichotomy (col : list Q) (i j : nat) :
  StronglySorted (fun a b => b <= a) col -> (i <= j)%nat ->
  sum (firstn i col) <= sum (firstn j col) \/ sum col <= sum (firstn j col).
Proof.
  intros Hs Hij. destruct (sign_split col j Hs) as [Hl|Hr].
  - left. pose proof (sum_firstn_mono (firstn j col) 0 i j Hl Hij) as H.
    rewrite firstn_firstn, Nat.min_l in H by exact Hij.
    rewrite firstn_firstn, Nat.min_id in H. exact H.
  - right. rewrite (sum_split j col) at 1.
    pose proof (sum_nonpos _ Hr). lra.
Qed.

(** *** The bands of a positive total *)

Lemma percentage_pos (total a : Q) :
  0 < total -> percentage total a = Fin (a / total * inject_Z 100).
Proof.
  intro Ht. unfold percentage, of_Z. cbn -[Qeq_bool].
  assert (E : Qeq_bool total 0 = false) by (apply Qeq_bool_false; lra).
  rewrite E. reflexivity.
Qed.

Lemma share_le (total a c : Q) :
  0 < total -> (a / total * inject_Z 100 <= c * 100 <-> a <= c * total).
Proof.
  intro Ht. change (inject_Z 100) with 100.
  assert (Ea : a == a / total * total)
    by (field; intro E; rewrite E in Ht; exact (Qlt_irrefl _ Ht)).
  set (y := a / total) in *. split; intro H.
  - rewrite Ea. apply Qmult_le_compat_r; lra.
  - rewrite Ea in H. apply Qmult_le_r in H; [lra|exact Ht].
Qed.

Lemma category_A_iff (total a : Q) :
  0 < total ->
  (abc_category (percentage total a) = "A" <-> a <= (4 # 5) * total).
Proof.
  intro Ht. rewrite (percentage_pos _ _ Ht), <- (share_le total a (4 # 5) Ht).
  unfold abc_category, leb, of_Z.
  change (inject_Z 80) with 80. change (inject_Z 95) with 95.
  destruct (Qle_bool (a / total * inject_Z 100) 80) eqn:E; q_reflect.
  - split; [intros _; lra|reflexivity].
  - split; [|intro H; exfalso; lra].
    destruct (Qle_bool _ 95); discriminate.
Qed.

Lemma percentage_of_total (total : Q) :
  abc_category (percentage total total) = "C".
Proof.
  unfold percentage, of_Z, div.
  destruct (Qeq_bool total 0) eqn:E; [reflexivity|]. q_reflect.
  cbn [mul]. unfold abc_category, leb, of_Z.
  change (inject_Z 80) with 80. change (inject_Z 95) with 95.
  change (inject_Z 100) with 100.
  assert (E1 : total / total * 100 == 100) by (field; exact E).
  destruct (Qle_bool (total / total * 100) 80) eqn:E80; q_reflect;
    [exfalso; lra|].
  destruct (Qle_bool (total / total * 100) 95) eqn:E95; q_reflect;
    [exfalso; lra|].
  reflexivity.
Qed.

(** *** Rows that satisfy a downward closed condition form a prefix *)

Lemma filter_prefix {A} (P : A -> bool) (l : list A) :
  (forall i j x y, (i <= j)%nat ->
     nth_error l i = Some x -> nth_error l j = Some y ->
     P y = true -> P x = true) ->
  filter P l = firstn (List.length (filter P l)) l.
Proof.
  induction l as [|x l IH]; intro H; [reflexivity|].
  cbn [filter]. destruct (P x) eqn:Ex.
  - cbn [List.length firstn]. f_equal. apply IH.
    intros i j a b Hij Ha Hb. apply (H (S i) (S j) a b); [lia|exact Ha|exact Hb].
  - assert (E : filter P l = []).
    { destruct (filter P l) as [|y rest] eqn:Ef; [reflexivity|].
      assert (Hy : In y (filter P l)) by (rewrite Ef; left; reflexivity).
      apply filter_In in Hy. destruct Hy as (Hy & Py).
      destruct (In_nth_error _ _ Hy) as (j & Hj).
      pose proof (H 0%nat (S j) x y ltac:(lia) eq_refl Hj Py). congruence. }
    rewrite E. reflexivity.
Qed.

(** *** The table *)

Lemma descending_trans : Relation_Definitions.transitive _ descending.
Proof.
  intros a b c Hab Hbc. unfold descending in *. lra.
Qed.

Lemma revenue_sorted (df : list sales_row) :
  StronglySorted (fun a b => b <= a) (revenue_column (abc_analysis df)).
Proof.
  rewrite abc_revenue.
  pose proof (Sorted_StronglySorted descending_trans
                (sort_values_desc_sorted (aggregate df))) as H.
  induction H as [|p ps Hs IH Hp]; cbn [map]; constructor; [exact IH|].
  apply Forall_map. exact Hp.
Qed.

Section Table.
Variable df : list sales_row.
Let abc := abc_analysis df.
Let revenue := revenue_column abc.
Hypothesis total_pos : 0 < sum revenue.

Let is_A (r : abc_row) : bool := String.eqb (ABC_Category r) "A".

Lemma is_A_iff i row :
  nth_error abc i = Some row ->
  (is_A row = true <-> sum (firstn (S i) revenue) <= (4 # 5) * sum revenue).
Proof.
  intro H. destruct (abc_row_at df i row H) as (Hp & Hc).
  unfold is_A. rewrite String.eqb_eq, Hc, Hp.
  apply category_A_iff, total_pos.
Qed.

Lemma is_A_downward i j x y :
  (i <= j)%nat -> nth_error abc i = Some x -> nth_error abc j = Some y ->
  is_A y = true -> is_A x = true.
Proof.
  intros Hij Hx Hy Ay.
  apply (is_A_iff i x Hx). apply (is_A_iff j y Hy) in Ay.
  destruct (running_dichotomy revenue (S i) (S j) (revenue_sorted df)
              ltac:(lia)) as [H|H]; lra.
Qed.

Lemma a_products_prefix :
  filter is_A abc = firstn (List.length (filter is_A abc)) abc.
Proof.
  apply filter_prefix. exact is_A_downward.
Qed.

Lemma a_revenue_bound :
  sum (revenue_column (filter is_A abc)) <= (4 # 5) * sum revenue.
Proof.
  rewrite a_products_prefix.
  destruct (List.length (filter is_A abc)) as [|k] eqn:Ek.
  - change (sum (revenue_column (firstn 0 abc))) with 0.
    pose proof total_pos. lra.
  - assert (Hk : (k < List.length abc)%nat).
    { pose proof (filter_length_le is_A abc). lia. }
    destruct (nth_error abc k) as [row|] eqn:Erow;
      [|apply nth_error_None in Erow; lia].
    assert (Hin : In row (filter is_A abc)).
    { rewrite a_products_prefix, Ek.
      apply (nth_error_In _ k). rewrite nth_error_firstn.
      destruct (Nat.ltb_spec k (S k)); [exact Erow|lia]. }
    apply filter_In in Hin. destruct Hin as (_ & Ha).
    apply (is_A_iff k row Erow) in Ha.
    unfold revenue_column at 1. rewrite <- firstn_map. exact Ha.
Qed.

Lemma no_A_after_top top :
  nth_error abc 0 = Some top ->
  (4 # 5) * sum revenue < p_SalesAmount (a_product top) ->
  Forall (fun r => ABC_Category r <> "A") abc.
Proof.
  intros Htop Hdom. apply Forall_forall. intros r Hr Hcat.
  destruct (In_nth_error _ _ Hr) as (j & Hj).
  assert (Ar : is_A r = true) by (apply String.eqb_eq, Hcat).
  pose proof (is_A_downward 0 j top r ltac:(lia) Htop Hj Ar) as A0.
  apply (is_A_iff 0 top Htop) in A0.
  assert (E : sum (firstn 1 revenue) == p_SalesAmount (a_product top)).
  { unfold revenue, revenue_column.
    destruct abc as [|r0 rest]; [discriminate|].
    cbn in Htop. injection Htop as ->. unfold sum. cbn. ring. }
  rewrite E in A0. lra.
Qed.

End Table.







End AbcShape.

Module AbcGroups.
Import Num NumFacts Abc AbcFacts GroupSum AbcKeys.
Local Open Scope string_scope.
Local Open Scope Q_scope.

(** *** The order of the group keys *)

Lemma ascii_lt_trans a b c :
  Ascii.compare a b = Lt -> Ascii.compare b c = Lt -> Ascii.compare a c = Lt.
Proof.
  unfold Ascii.compare. rewrite !N.compare_lt_iff. apply N.lt_trans.
Qed.

Lemma string_compare_refl s : String.compare s s = Eq.
Proof.
  pose proof (String.compare_antisym s s) as H.
  destruct (String.compare s s); cbn in H; congruence.
Qed.

Lemma string_lt_trans s1 s2 s3 :
  String.compare s1 s2 = Lt -> String.compare s2 s3 = Lt ->
  String.compare s1 s3 = Lt.
Proof.
  revert s2 s3.
  induction s1 as [|a s1 IH]; intros [|b s2] [|c s3]; cbn;
    try discriminate; auto.
  destruct (Ascii.compare a b) eqn:Eab; try discriminate;
    destruct (Ascii.compare b c) eqn:Ebc; try discriminate; intros H1 H2.
  - apply Ascii.compare_eq_iff in Eab, Ebc. subst.
    assert (E : Ascii.compare c c = Eq)
      by (unfold Ascii.compare; apply N.compare_refl).
    rewrite E. eauto.
  - apply Ascii.compare_eq_iff in Eab. subst. rewrite Ebc. reflexivity.
  - apply Ascii.compare_eq_iff in Ebc. subst. rewrite Eab. reflexivity.
  - rewrite (ascii_lt_trans _ _ _ Eab Ebc). reflexivity.
Qed.

Lemma key_compare_eq a b : key_compare a b = Eq <-> a = b.
Proof.
  destruct a as (ka, na), b as (kb, nb). unfold key_compare. cbn [fst snd].
  destruct (Z.compare_spec ka kb) as [->|H|H].
  - split.
    + intro E. apply String.compare_eq_iff in E. congruence.
    + intros [= ->]. apply string_compare_refl.
  - split; [discriminate|]. intros [= -> _]. exfalso. exact (Z.lt_irrefl _ H).
  - split; [discriminate|]. intros [= -> _]. exfalso. exact (Z.lt_irrefl _ H).
Qed.

Lemma key_compare_gt a b : key_compare a b = Gt -> key_lt b a.
Proof.
  destruct a as (ka, na), b as (kb, nb). unfold key_lt, key_compare.
  cbn [fst snd]. rewrite (Z.compare_antisym ka kb).
  destruct (Z.compare ka kb); cbn [CompOpp]; try discriminate; [|reflexivity].
  rewrite (String.compare_antisym nb na).
  destruct (String.compare na nb); cbn; congruence.
Qed.

Lemma key_lt_trans a b c : key_lt a b -> key_lt b c -> key_lt a c.
Proof.
  destruct a as (ka, na), b as (kb, nb), c as (kc, nc).
  unfold key_lt, key_compare. cbn [fst snd].
  destruct (Z.compare_spec ka kb) as [->|Hab|Hab]; try discriminate;
    destruct (Z.compare_spec kb kc) as [->|Hbc|Hbc]; try discriminate;
    intros H1 H2.
  - eapply string_lt_trans; eassumption.
  - reflexivity.
  - rewrite (proj2 (Z.compare_lt_iff _ _) Hab). reflexivity.
  - rewrite (proj2 (Z.compare_lt_iff _ _) (Z.lt_trans _ _ _ Hab Hbc)).
    reflexivity.
Qed.

Lemma key_lt_irrefl a : ~ key_lt a a.
Proof.
  unfold key_lt. rewrite (proj2 (key_compare_eq a a) eq_refl). discriminate.
Qed.

(** *** The group keys *)

Lemma in_insert_group_key k keys x : In x (insert_key k keys) <-> x = k \/ In x keys.
Proof.
  induction keys as [|k' keys IH]; cbn; [intuition|].
  destruct (key_compare k k') eqn:E.
  - apply key_compare_eq in E. subst. cbn. intuition.
  - cbn. intuition.
  - cbn. rewrite IH. intuition.
Qed.

Lemma insert_group_key_sorted k keys :
  StronglySorted key_lt keys -> StronglySorted key_lt (insert_key k keys).
Proof.
  induction 1 as [|k' keys Hs IH Hk]; cbn; [repeat constructor|].
  destruct (key_compare k k') eqn:E.
  - constructor; assumption.
  - constructor; [constructor; assumption|].
    constructor; [exact E|].
    eapply Forall_impl; [|exact Hk]. intros x Hx.
    exact (key_lt_trans _ _ _ E Hx).
  - constructor; [exact IH|].
    apply Forall_forall. intros x Hx. apply in_insert_group_key in Hx.
    destruct Hx as [->|Hx]; [exact (key_compare_gt _ _ E)|].
    rewrite Forall_forall in Hk. exact (Hk x Hx).
Qed.

Lemma group_keys_sorted df : StronglySorted key_lt (group_keys df).
Proof.
  unfold group_keys.
  induction (dropna (map key_of df)) as [|k ks IH]; cbn; [constructor|].
  apply insert_group_key_sorted, IH.
Qed.

Lemma group_keys_NoDup df : NoDup (group_keys df).
Proof.
  induction (group_keys_sorted df) as [|k keys _ IH Hk];
    constructor; [|exact IH].
  intro Hin. rewrite Forall_forall in Hk.
  exact (key_lt_irrefl k (Hk k Hin)).
Qed.

Lemma in_group_keys df k :
  In k (group_keys df) <-> exists row, In row df /\ key_of row = Some k.
Proof.
  unfold group_keys.
  assert (H : forall ks, In k (fold_right insert_key [] ks) <-> In k ks).
  { induction ks as [|k' ks IH]; cbn; [tauto|].
    rewrite in_insert_group_key, IH. intuition. }
  rewrite H, in_dropna, in_map_iff. split; intros (row & H1 & H2); eauto.
Qed.

Lemma key_of_spec row k n :
  key_of row = Some (k, n) <-> ProductKey row = Some k /\ ProductName row = Some n.
Proof.
  unfold key_of. destruct (ProductKey row), (ProductName row);
    intuition congruence.
Qed.

(** *** The products of the table *)

Lemma aggregate_keys df :
  map (fun p => (p_ProductKey p, p_ProductName p)) (aggregate df) = group_keys df.
Proof.
  unfold aggregate. rewrite map_map. cbn.
  rewrite <- (map_id (group_keys df)) at 2.
  apply map_ext. intros (k, n). reflexivity.
Qed.

Lemma product_keys_perm df :
  Permutation (map product_key (abc_analysis df)) (group_keys df).
Proof.
  rewrite <- aggregate_keys.
  change (map product_key (abc_analysis df))
    with (map (fun r => (fun p => (p_ProductKey p, p_ProductName p)) (a_product r))
              (abc_analysis df)).
  rewrite <- (map_map a_product), abc_products.
  apply Permutation_map, sort_values_desc_perm.
Qed.

Lemma aggregate_total (val : sales_row -> option Q) (col : product -> Q) df :
  (forall k,
     col (mk_product (fst k) (snd k)
            (sum (dropna (map SalesAmount (filter (in_group k) df))))
            (sum (dropna (map OrderQuantity (filter (in_group k) df))))
            (sum (dropna (map Profit (filter (in_group k) df))))
            (nunique (map SalesOrderNumber (filter (in_group k) df))))
     = sum (dropna (map val (filter (in_group k) df)))) ->
  sum (map col (aggregate df)) == sum (dropna (map val (filter keyed df))).
Proof.
  intro Hcol. unfold aggregate. rewrite map_map.
  rewrite (map_ext _ _ Hcol).
  apply (group_totals_all sales_row group_key key_of val
           (fun a b => match key_compare a b with Eq => true | _ => false end)).
  - intros a b. rewrite <- key_compare_eq.
    destruct (key_compare a b); intuition congruence.
  - apply group_keys_NoDup.
  - intros r k Hr Hk. apply in_group_keys. eauto.
Qed.

Lemma table_total (col : product -> Q) df :
  sum (map (fun r => col (a_product r)) (abc_analysis df))
  == sum (map col (aggregate df)).
Proof.
  rewrite <- (map_map a_product col), abc_products.
  apply fold_plus_perm, Permutation_map, sort_values_desc_perm.
Qed.


End AbcGroups.

Module XyzFacts.
Import Num NumFacts Abc AbcFacts GroupSum XyzData.
Local Open Scope string_scope.
Local Open Scope Q_scope.

(** *** The analysis when the frame has the OrderDate column *)

Lemma perform_with_dates (df : frame) :
  has_OrderDate df = true ->
  perform_abc_xyz_analysis df
  = map (fun rc =>
           mk_abcxyz_row (fst rc) (Some (snd rc))
             (xyz_category (snd rc))
             (ABC_Category (fst rc) ++ "-" ++ xyz_category (snd rc)))
        (merge_cv (abc_analysis (rows df)) (cv_series df)).
Proof.
  intro H. unfold perform_abc_xyz_analysis, xyz_try, order_periods.
  rewrite H. reflexivity.
Qed.

Lemma in_merge_cv product_sales cv r c :
  In (r, c) (merge_cv product_sales cv) <->
  In r product_sales /\ lookup_cv cv (p_ProductKey (a_product r)) = Some c.
Proof.
  unfold merge_cv. rewrite in_dropna, in_map_iff. split.
  - intros (r' & E & Hr).
    destruct (lookup_cv cv (p_ProductKey (a_product r'))) as [c'|] eqn:El;
      [|discriminate].
    cbn in E. injection E as <- <-. auto.
  - intros (Hr & El). exists r. rewrite El. auto.
Qed.

Lemma map_fst_merge_cv product_sales cv :
  map fst (merge_cv product_sales cv)
  = filter (fun r => match lookup_cv cv (p_ProductKey (a_product r)) with
                     | Some _ => true
                     | None => false
                     end)
           product_sales.
Proof.
  unfold merge_cv. induction product_sales as [|r rest IH]; [reflexivity|].
  cbn [map filter].
  destruct (lookup_cv cv (p_ProductKey (a_product r))); cbn; [f_equal|];
    exact IH.
Qed.

(** *** The months and products of the pivot *)

Lemma in_insert_Z k keys x : In x (insert_Z k keys) <-> x = k \/ In x keys.
Proof.
  induction keys as [|k' keys IH]; cbn; [intuition|].
  destruct (Z.ltb_spec k k'); [cbn; intuition|].
  destruct (Z.eqb_spec k k'); [subst; cbn; intuition|].
  cbn. rewrite IH. intuition.
Qed.

Lemma in_sorted_distinct col x : In x (sorted_distinct col) <-> In x col.
Proof.
  unfold sorted_distinct.
  induction col as [|k col IH]; cbn; [tauto|].
  rewrite in_insert_Z, IH. intuition.
Qed.

Lemma in_combine_map {A B} (g : A -> B) (l : list A) a b :
  In (a, b) (combine l (map g l)) <-> In a l /\ b = g a.
Proof.
  induction l as [|x l IH]; cbn; [tauto|].
  rewrite IH. split.
  - intros [[= -> ->]|H]; intuition.
  - intros ([->|H] & ->); auto.
Qed.

Lemma in_pivot_cells (df : frame) k p q :
  In (k, p, q) (pivot_cells (rows df) (periods_of df)) <->
  exists row ts,
    In row (rows df) /\ ProductKey row = Some k /\ OrderDate row = Some ts /\
    to_period_M ts = p /\ OrderQuantity row = q.
Proof.
  unfold pivot_cells, periods_of. rewrite in_dropna, in_map_iff. split.
  - intros ((row & per) & E & Hin). apply in_combine_map in Hin.
    destruct Hin as (Hrow & ->). cbn [fst snd] in E.
    destruct (ProductKey row) as [k'|] eqn:Ek; [|discriminate].
    destruct (OrderDate row) as [ts|] eqn:Ets; [|discriminate].
    cbn in E. injection E as <- <- <-. exists row, ts. auto.
  - intros (row & ts & Hrow & Ek & Ets & <- & <-).
    exists (row, option_map to_period_M (OrderDate row)). split.
    + cbn [fst snd]. rewrite Ek, Ets. reflexivity.
    + apply in_combine_map. auto.
Qed.

Lemma in_months_of (df : frame) p :
  In p (months_of df) <->
  exists row ts,
    In row (rows df) /\ ProductKey row <> None /\ OrderDate row = Some ts /\
    to_period_M ts = p.
Proof.
  unfold months_of. rewrite in_sorted_distinct, in_map_iff. split.
  - intros (((k & p') & q) & <- & Hin). apply in_pivot_cells in Hin.
    destruct Hin as (row & ts & Hrow & Ek & Ets & Ep & _).
    exists row, ts. cbn. rewrite Ek. repeat split; auto. discriminate.
  - intros (row & ts & Hrow & Ek & Ets & Ep).
    destruct (ProductKey row) as [k|] eqn:Ek'; [|contradiction].
    exists (k, p, OrderQuantity row). split; [reflexivity|].
    apply in_pivot_cells. exists row, ts. auto.
Qed.

(** Every row of the pivot has one value per month. *)
Lemma pivot_row_length (df : frame) kq :
  In kq (pivot_table (rows df) (periods_of df)) ->
  List.length (snd kq) = List.length (months_of df).
Proof.
  unfold pivot_table, months_of. cbn zeta. intro H.
  apply in_map_iff in H. destruct H as (k & <- & _).
  cbn [snd]. apply length_map.
Qed.

Lemma pivot_products (df : frame) k :
  In k (map fst (pivot_table (rows df) (periods_of df))) <->
  has_dated_line df k = true.
Proof.
  unfold pivot_table. cbn zeta. rewrite map_map. cbn [fst].
  rewrite map_id, in_sorted_distinct, in_map_iff.
  unfold has_dated_line. rewrite existsb_exists. split.
  - intros (((k' & p) & q) & <- & Hin). apply in_pivot_cells in Hin.
    destruct Hin as (row & ts & Hrow & Ek & Ets & _).
    exists row. split; [exact Hrow|]. rewrite Ek, Ets. apply Z.eqb_refl.
  - intros (row & Hrow & H).
    destruct (ProductKey row) as [k'|] eqn:Ek; [|discriminate].
    destruct (OrderDate row) as [ts|] eqn:Ets; [|discriminate].
    apply Z.eqb_eq in H. subst k'.
    exists (k, to_period_M ts, OrderQuantity row). split; [reflexivity|].
    apply in_pivot_cells. exists row, ts. auto.
Qed.

Lemma lookup_cv_some (df : frame) k c :
  lookup_cv (cv_series df) k = Some c ->
  exists xs, c = coefficient_of_variation xs /\
             List.length xs = List.length (months_of df).
Proof.
  unfold lookup_cv, cv_series. intro H.
  destruct (find _ _) as [kc|] eqn:E; [|discriminate].
  cbn in H. injection H as <-.
  apply find_some in E. destruct E as (Hin & _).
  apply in_map_iff in Hin. destruct Hin as (kq & <- & Hkq).
  exists (snd kq). split; [reflexivity|]. apply pivot_row_length, Hkq.
Qed.

Lemma lookup_cv_defined (df : frame) k :
  (exists c, lookup_cv (cv_series df) k = Some c) <-> has_dated_line df k = true.
Proof.
  rewrite <- pivot_products. unfold lookup_cv, cv_series. split.
  - intros (c & H).
    destruct (find _ _) as [kc|] eqn:E; [|discriminate].
    apply find_some in E. destruct E as (Hin & Hk). apply Z.eqb_eq in Hk.
    apply in_map_iff in Hin. destruct Hin as (kq & <- & Hkq).
    cbn [fst] in Hk. subst k. apply in_map, Hkq.
  - intro H. apply in_map_iff in H. destruct H as (kq & <- & Hkq).
    destruct (find (fun kc => (fst kc =? fst kq)%Z)
                   (map (fun kq0 => (fst kq0, coefficient_of_variation (snd kq0)))
                        (pivot_table (rows df) (periods_of df)))) as [kc|] eqn:E.
    + eexists. reflexivity.
    + exfalso.
      pose proof (find_none _ _ E (fst kq, coefficient_of_variation (snd kq))
                    (in_map (fun kq0 => (fst kq0, coefficient_of_variation (snd kq0)))
                            _ _ Hkq)) as E'.
      cbn [fst] in E'. rewrite Z.eqb_refl in E'. discriminate.
Qed.

(** X16. With the OrderDate column present, the result keeps exactly
    the products of the ABC table that have a sales line with an order
    date, in the order of the ABC table; the other products are dropped
    by the inner merge with the CV series. *)
Theorem undated_products_dropped (df : frame) :
  has_OrderDate df = true ->
  map x_abc (perform_abc_xyz_analysis df)
  = filter (fun r => has_dated_line df (p_ProductKey (a_product r)))
           (abc_analysis (rows df)).
Proof.
  intro H. rewrite (perform_with_dates df H), map_map. cbn [x_abc].
  rewrite map_fst_merge_cv. apply filter_ext. intro r.
  destruct (lookup_cv (cv_series df) (p_ProductKey (a_product r))) as [c|] eqn:E.
  - symmetry. apply lookup_cv_defined. eauto.
  - destruct (has_dated_line df (p_ProductKey (a_product r))) eqn:Hd;
      [|reflexivity].
    apply lookup_cv_defined in Hd. destruct Hd as (c & Hc). congruence.
Qed.

Lemma undated_products_dropped_witness :
  map (fun r => p_ProductKey (a_product (x_abc r)))
      (perform_abc_xyz_analysis undated_product) = [1%Z] /\
  map (fun r => p_ProductKey (a_product r))
      (abc_analysis (rows undated_product)) = [1%Z; 2%Z].
Proof.
  split; [|vm_compute; reflexivity].
  rewrite <- (map_map x_abc (fun r => p_ProductKey (a_product r))).
  rewrite (undated_products_dropped undated_product eq_refl).
  vm_compute. reflexivity.
Defined.

(** *** A single month *)

Lemma sorted_distinct_constant (col : list Z) (m : Z) :
  (forall x, In x col -> x = m) ->
  sorted_distinct col = [] \/ sorted_distinct col = [m].
Proof.
  unfold sorted_distinct. induction col as [|x col IH]; intro H; [left; reflexivity|].
  right. cbn [fold_right].
  rewrite (H x (or_introl eq_refl)).
  destruct IH as [E|E]; [intros y Hy; apply H; right; exact Hy| |];
    rewrite E; cbn; [reflexivity|].
  rewrite Z.ltb_irrefl, Z.eqb_refl. reflexivity.
Qed.

Lemma cv_of_short_row (xs : list Q) :
  (List.length xs <= 1)%nat -> coefficient_of_variation xs = RootNaN.
Proof.
  intro H. unfold coefficient_of_variation, std.
  destruct (Nat.leb_spec (List.length xs) 1); [reflexivity|lia].
Qed.

(** X17. When the frame has the OrderDate column and all order dates
    fall in one month, nothing raises and every product of the result
    has a missing (NaN) CV and the XYZ category "Z". *)
Theorem single_month_all_Z (df : frame) (m : Z) :
  has_OrderDate df = true ->
  (forall row ts, In row (rows df) -> OrderDate row = Some ts ->
                  to_period_M ts = m) ->
  Forall (fun r =>
            CV r = Some RootNaN /\ XYZ_Category r = "Z" /\
            ABC_XYZ r = ABC_Category (x_abc r) ++ "-Z")
         (perform_abc_xyz_analysis df).
Proof.
  intros Hcol Hm. rewrite (perform_with_dates df Hcol).
  apply Forall_forall. intros r Hr. apply in_map_iff in Hr.
  destruct Hr as ((a & c) & <- & Hin). cbn [fst snd CV XYZ_Category ABC_XYZ x_abc].
  apply in_merge_cv in Hin. destruct Hin as (_ & Hc).
  apply lookup_cv_some in Hc. destruct Hc as (xs & -> & Hlen).
  assert (Hshort : (List.length (months_of df) <= 1)%nat).
  { unfold months_of.
    destruct (sorted_distinct_constant
                (map (fun c => snd (fst c)) (pivot_cells (rows df) (periods_of df)))
                m) as [E|E]; [|rewrite E; cbn; lia|rewrite E; cbn; lia].
    intros p Hp. apply in_map_iff in Hp.
    destruct Hp as (((k & p') & q) & <- & Hin). apply in_pivot_cells in Hin.
    destruct Hin as (row & ts & Hrow & _ & Ets & Ep & _).
    cbn. rewrite <- Ep. apply (Hm row ts Hrow Ets). }
  rewrite cv_of_short_row by lia. repeat split.
Qed.

Lemma single_month_all_Z_witness :
  Forall (fun r =>
            CV r = Some RootNaN /\ XYZ_Category r = "Z" /\
            ABC_XYZ r = ABC_Category (x_abc r) ++ "-Z")
         (perform_abc_xyz_analysis single_month).
Proof.
  apply (single_month_all_Z single_month 0); [reflexivity|].
  intros row ts Hrow Hts. cbn in Hrow.
  destruct Hrow as [<-|[<-|[<-|[]]]]; cbn in Hts; injection Hts as <-;
    vm_compute; reflexivity.
Defined.

(** *** The guard of the division *)

Lemma square_nonneg (y : Q) : 0 <= y * y.
Proof.
  destruct (Qlt_le_dec y 0) as [H|H].
  - assert (E : y * y == (- y) * (- y)) by ring.
    rewrite E. apply Qmult_le_0_compat; lra.
  - apply Qmult_le_0_compat; assumption.
Qed.

Lemma length_pos_inject (n : nat) : (2 <= n)%nat ->
  0 < inject_Z (Z.of_nat n) /\ 0 < inject_Z (Z.of_nat n - 1).
Proof.
  intro H. change 0 with (inject_Z 0). rewrite <- !Zlt_Qlt. lia.
Qed.

(** The CV of at least two non-negative values: the quotient of the
    deviation and a positive divisor. *)
Lemma cv_value (xs : list Q) :
  (2 <= List.length xs)%nat -> Forall (fun x => 0 <= x) xs ->
  let n := inject_Z (Z.of_nat (List.length xs)) in
  let m := sum xs / n in
  let d := m + (1 # 10000) in
  0 < d /\
  coefficient_of_variation xs
  = Root false (sum (map (fun x => (x - m) * (x - m)) xs)
                / inject_Z (Z.of_nat (List.length xs) - 1) / (d * d)).
Proof.
  intros Hn Hpos n m d.
  destruct (length_pos_inject _ Hn) as (Hn0 & Hn1). fold n in Hn0.
  assert (Hm : 0 <= m).
  { unfold m. apply Qle_shift_div_l; [exact Hn0|].
    pose proof (fold_plus_nonneg xs Hpos) as H. unfold sum. lra. }
  assert (Hd : 0 < d) by (unfold d; lra).
  split; [exact Hd|].
  unfold coefficient_of_variation, std, mean, of_Z.
  destruct (Nat.leb_spec (List.length xs) 1) as [H|_]; [lia|].
  fold n. cbn [div].
  assert (E : Qeq_bool n 0 = false) by (apply Qeq_bool_false; lra).
  rewrite E. cbn [add]. fold m. fold d. cbn [div_root].
  assert (E' : Qeq_bool d 0 = false) by (apply Qeq_bool_false; lra).
  assert (L : Qlt_bool d 0 = false) by (apply Qlt_bool_false; lra).
  rewrite E', L. reflexivity.
Qed.

Lemma cv_finite (xs : list Q) :
  (2 <= List.length xs)%nat -> Forall (fun x => 0 <= x) xs ->
  exists q, coefficient_of_variation xs = Root false q /\ 0 <= q.
Proof.
  intros Hn Hpos. destruct (cv_value xs Hn Hpos) as (Hd & E).
  eexists. split; [exact E|].
  destruct (length_pos_inject _ Hn) as (_ & Hn1).
  apply Qle_shift_div_l; [nra|]. rewrite Qmult_0_l.
  apply Qle_shift_div_l; [exact Hn1|]. rewrite Qmult_0_l.
  apply fold_plus_nonneg, Forall_map, Forall_forall.
  intros x _. apply square_nonneg.
Qed.

Lemma two_members {A} (l : list A) (a b : A) :
  In a l -> In b l -> a <> b -> (2 <= List.length l)%nat.
Proof.
  destruct l as [|x [|y l]]; cbn; try tauto; [|lia].
  intros [<-|[]] [<-|[]] H. contradiction.
Qed.

Lemma pivot_row_nonneg (df : frame) kq :
  (forall row q, In row (rows df) -> OrderQuantity row = Some q -> 0 <= q) ->
  In kq (pivot_table (rows df) (periods_of df)) ->
  Forall (fun x => 0 <= x) (snd kq).
Proof.
  intros Hq H. unfold pivot_table in H. cbn zeta in H.
  apply in_map_iff in H. destruct H as (k & <- & _). cbn [snd].
  apply Forall_map, Forall_forall. intros p _.
  apply fold_plus_nonneg, Forall_forall. intros q Hin.
  apply in_dropna, in_map_iff in Hin. destruct Hin as (((k' & p') & q') & E & Hin).
  cbn in E. subst q'. apply filter_In in Hin. destruct Hin as (Hin & _).
  apply in_pivot_cells in Hin.
  destruct Hin as (row & ts & Hrow & _ & _ & _ & Eq).
  exact (Hq row q Hrow Eq).
Qed.

Lemma lookup_cv_row (df : frame) k c :
  lookup_cv (cv_series df) k = Some c ->
  exists kq, In kq (pivot_table (rows df) (periods_of df)) /\
             c = coefficient_of_variation (snd kq).
Proof.
  unfold lookup_cv, cv_series. intro H.
  destruct (find _ _) as [kc|] eqn:E; [|discriminate].
  cbn in H. injection H as <-.
  apply find_some in E. destruct E as (Hin & _).
  apply in_map_iff in Hin. destruct Hin as (kq & <- & Hkq). eauto.
Qed.

(** X18. When the sales lines with a product key span at least two
    months and no quantity is negative, every product of the result has
    a finite, non-negative CV: the 0.0001 added to the mean keeps the
    divisor positive, also for a product whose mean is 0. *)
Theorem cv_always_defined (df : frame) (r1 r2 : sales_row) (t1 t2 : Z) :
  has_OrderDate df = true ->
  In r1 (rows df) -> ProductKey r1 <> None -> OrderDate r1 = Some t1 ->
  In r2 (rows df) -> ProductKey r2 <> None -> OrderDate r2 = Some t2 ->
  to_period_M t1 <> to_period_M t2 ->
  (forall row q, In row (rows df) -> OrderQuantity row = Some q -> 0 <= q) ->
  Forall (fun r => exists q, CV r = Some (Root false q) /\ 0 <= q)
         (perform_abc_xyz_analysis df).
Proof.
  intros Hcol H1 K1 D1 H2 K2 D2 Hne Hq.
  rewrite (perform_with_dates df Hcol).
  assert (Hmonths : (2 <= List.length (months_of df))%nat).
  { apply (two_members _ (to_period_M t1) (to_period_M t2)); [| |exact Hne];
      apply in_months_of; [exists r1, t1|exists r2, t2]; auto. }
  apply Forall_forall. intros r Hr. apply in_map_iff in Hr.
  destruct Hr as ((a & c) & <- & Hin). cbn [fst snd CV].
  apply in_merge_cv in Hin. destruct Hin as (_ & Hc).
  apply lookup_cv_row in Hc. destruct Hc as (kq & Hkq & ->).
  destruct (cv_finite (snd kq)) as (q & E & Hq0).
  - rewrite (pivot_row_length df kq Hkq). exact Hmonths.
  - apply (pivot_row_nonneg df kq Hq Hkq).
  - exists q. rewrite E. auto.
Qed.

Lemma cv_always_defined_witness :
  Forall (fun r => exists q, CV r = Some (Root false q) /\ 0 <= q)
         (perform_abc_xyz_analysis two_months).
Proof.
  apply (cv_always_defined two_months
           (mk_sales_row (Some 1%Z) (Some "P1") (Some 0%Z) (Some 4) (Some 600)
                         (Some 0) (Some "SO1"))
           (mk_sales_row (Some 1%Z) (Some "P1") (Some 3456000000000000%Z)
                         (Some 1) (Some 300) (Some 0) (Some "SO2"))
           0 3456000000000000).
  - reflexivity.
  - left. reflexivity.
  - discriminate.
  - reflexivity.
  - right. left. reflexivity.
  - discriminate.
  - reflexivity.
  - vm_compute. discriminate.
  - intros row q Hrow Eq. cbn in Hrow.
    destruct Hrow as [<-|[<-|[]]]; cbn in Eq; injection Eq as <-; q_decide.
Defined.

(** *** Steady demand *)

Lemma sum_map_zero {A} (f : A -> Q) (l : list A) :
  (forall x, In x l -> f x == 0) -> sum (map f l) == 0.
Proof.
  unfold sum. induction l as [|x l IH]; intro H; [reflexivity|].
  cbn [map]. rewrite fold_plus_cons, (H x (or_introl eq_refl)), IH.
  - ring.
  - intros y Hy. apply H. right. exact Hy.
Qed.

Lemma sum_constant (xs : list Q) (c : Q) :
  Forall (fun x => x == c) xs ->
  sum xs == inject_Z (Z.of_nat (List.length xs)) * c.
Proof.
  unfold sum. induction 1 as [|x xs Hx _ IH]; [cbn; ring|].
  cbn beta in Hx. cbn [List.length]. rewrite fold_plus_cons, IH, Hx.
  rewrite Nat2Z.inj_succ. unfold Z.succ. rewrite inject_Z_plus. ring.
Qed.



End XyzFacts.

Module DedupFacts.
Import Dedup.

Section Rows.
Variable row : Type.
Variable eqb : row -> row -> bool.
Hypothesis eqb_eq : forall a b, eqb a b = true <-> a = b.

Lemma seen_iff r seen : existsb (eqb r) seen = true <-> In r seen.
Proof.
  rewrite existsb_exists. split.
  - intros (x & Hx & E). apply eqb_eq in E. subst. exact Hx.
  - intro H. exists r. split; [exact H|]. apply eqb_eq. reflexivity.
Qed.

Lemma row_eq_dec (a b : row) : a = b \/ a <> b.
Proof.
  destruct (eqb a b) eqn:E.
  - left. apply eqb_eq, E.
  - right. intro H. apply eqb_eq in H. congruence.
Qed.

Lemma in_drop_from x seen df :
  In x (drop_from eqb seen df) <-> In x df /\ ~ In x seen.
Proof.
  revert seen. induction df as [|r rest IH]; intro seen; cbn; [tauto|].
  destruct (existsb (eqb r) seen) eqn:E.
  - apply seen_iff in E. rewrite IH. split.
    + intros (H1 & H2). auto.
    + intros ([->|H1] & H2); [contradiction|auto].
  - assert (Hr : ~ In r seen).
    { intro H. apply seen_iff in H. congruence. }
    cbn. rewrite IH. cbn. split.
    + intros [->|(H1 & H2)]; [auto|]. split; [auto|]. intro H. apply H2. auto.
    + intros ([->|H1] & H2); [auto|].
      destruct (row_eq_dec r x) as [->|Hne]; [auto|].
      right. split; [exact H1|]. intros [H|H]; auto.
Qed.

Lemma drop_from_NoDup seen df : NoDup (drop_from eqb seen df).
Proof.
  revert seen. induction df as [|r rest IH]; intro seen; cbn; [constructor|].
  destruct (existsb (eqb r) seen); [apply IH|].
  constructor; [|apply IH].
  rewrite in_drop_from. intros (_ & H). apply H. left. reflexivity.
Qed.

Lemma drop_from_length seen df :
  (List.length (drop_from eqb seen df) <= List.length df)%nat.
Proof.
  revert seen. induction df as [|r rest IH]; intro seen; cbn; [lia|].
  destruct (existsb (eqb r) seen); [specialize (IH seen)|specialize (IH (r :: seen))];
    cbn; lia.
Qed.

Lemma drop_from_same_length seen df :
  List.length (drop_from eqb seen df) = List.length df ->
  drop_from eqb seen df = df.
Proof.
  revert seen. induction df as [|r rest IH]; intro seen; cbn; [reflexivity|].
  destruct (existsb (eqb r) seen).
  - pose proof (drop_from_length seen rest). lia.
  - cbn. intros [= H]. f_equal. apply IH, H.
Qed.

Lemma drop_from_id seen df :
  NoDup df -> (forall x, In x df -> ~ In x seen) -> drop_from eqb seen df = df.
Proof.
  intro H. revert seen. induction H as [|r rest Hr _ IH]; intros seen Hs;
    [reflexivity|].
  cbn. destruct (existsb (eqb r) seen) eqn:E.
  - apply seen_iff in E. exfalso. apply (Hs r); [left; reflexivity|exact E].
  - f_equal. apply IH. intros x Hx [<-|H]; [contradiction|].
    apply (Hs x); [right; exact Hx|exact H].
Qed.

Lemma drop_from_seen_ext seen seen' df :
  (forall x, In x seen <-> In x seen') ->
  drop_from eqb seen df = drop_from eqb seen' df.
Proof.
  revert seen seen'. induction df as [|r rest IH]; intros seen seen' H;
    [reflexivity|].
  cbn.
  assert (E : existsb (eqb r) seen = existsb (eqb r) seen').
  { destruct (existsb (eqb r) seen) eqn:E1, (existsb (eqb r) seen') eqn:E2;
      try reflexivity.
    - apply seen_iff, H, seen_iff in E1. congruence.
    - apply seen_iff, H, seen_iff in E2. congruence. }
  rewrite E. destruct (existsb (eqb r) seen').
  - apply IH, H.
  - f_equal. apply IH. intro x. cbn. rewrite H. reflexivity.
Qed.

Lemma drop_from_app seen df1 df2 :
  drop_from eqb seen (df1 ++ df2)
  = drop_from eqb seen df1 ++ drop_from eqb (df1 ++ seen) df2.
Proof.
  revert seen. induction df1 as [|r rest IH]; intro seen; [reflexivity|].
  cbn [app drop_from]. destruct (existsb (eqb r) seen) eqn:E.
  - rewrite IH. f_equal. apply drop_from_seen_ext.
    intro x. cbn. rewrite !in_app_iff. apply seen_iff in E.
    split; [tauto|]. intros [<-|H]; tauto.
  - rewrite IH. cbn [app]. f_equal. f_equal. apply drop_from_seen_ext.
    intro x. cbn. rewrite !in_app_iff. cbn. tauto.
Qed.

Lemma drop_from_filter extra seen df :
  drop_from eqb (extra ++ seen) df
  = filter (fun r => negb (existsb (eqb r) extra)) (drop_from eqb seen df).
Proof.
  revert seen. induction df as [|r rest IH]; intro seen; [reflexivity|].
  cbn [drop_from]. rewrite existsb_app.
  destruct (existsb (eqb r) seen) eqn:Es.
  - rewrite orb_true_r. apply IH.
  - rewrite orb_false_r. cbn [filter].
    destruct (existsb (eqb r) extra) eqn:Ee; cbn [negb].
    + rewrite <- IH. apply drop_from_seen_ext.
      intro x. rewrite !in_app_iff. cbn. apply seen_iff in Ee.
      split; [tauto|]. intros [H|[<-|H]]; tauto.
    + f_equal. rewrite <- IH. apply drop_from_seen_ext.
      intro x. cbn. rewrite !in_app_iff. cbn. tauto.
Qed.

(** X20. [drop_duplicates] keeps the first of equal rows: the result
    has no two equal rows and the same rows as the input; it is the
    input itself exactly when the input has no duplicates, which is also
    when the reported number of removed rows is 0; and the rows of a
    later part of the frame are kept exactly when they are new, without
    any effect on the earlier part. *)
Theorem drop_duplicates_keeps_first (df : list row) :
  NoDup (drop_duplicates eqb df) /\
  (forall r, In r (drop_duplicates eqb df) <-> In r df) /\
  (drop_duplicates eqb df = df <-> NoDup df) /\
  (removed eqb df = 0%nat <-> NoDup df) /\
  (forall front back,
     df = front ++ back ->
     drop_duplicates eqb df
     = drop_duplicates eqb front
       ++ filter (fun r => negb (existsb (eqb r) front))
                 (drop_duplicates eqb back)).
Proof.
  unfold removed, drop_duplicates. split; [apply drop_from_NoDup|].
  split; [intro r; rewrite in_drop_from; cbn; tauto|].
  assert (Hfix : drop_from eqb [] df = df <-> NoDup df).
  { split.
    - intro E. rewrite <- E. apply drop_from_NoDup.
    - intro H. apply drop_from_id; [exact H|]. intros x _ []. }
  split; [exact Hfix|]. split.
  - rewrite <- Hfix. pose proof (drop_from_length [] df). split.
    + intro H0. apply drop_from_same_length. lia.
    + intros ->. lia.
  - intros front back ->. rewrite drop_from_app. f_equal.
    apply drop_from_filter.
Qed.

End Rows.

Lemma drop_duplicates_keeps_first_witness :
  drop_duplicates Z.eqb [1; 2; 1; 3; 2]%Z = [1; 2; 3]%Z /\
  NoDup (drop_duplicates Z.eqb [1; 2; 1; 3; 2]%Z).
Proof.
  split; [reflexivity|].
  apply (drop_duplicates_keeps_first Z Z.eqb Z.eqb_eq [1; 2; 1; 3; 2]%Z).
Defined.

End DedupFacts.

Module FillFacts.
Import Fill.
Local Open Scope string_scope.

Lemma fillna_complete value col : Forall (fun x => x <> None) (fillna value col).
Proof.
  apply Forall_map, Forall_forall. intros [s|] _; discriminate.
Qed.

Lemma fillna_nth value col i :
  nth_error (fillna value col) i
  = option_map (fun x => match x with
                         | Some s => Some s
                         | None => Some value
                         end) (nth_error col i).
Proof.
  apply nth_error_map.
Qed.

(** X21. The missing values of Color are always filled, but those of
    Category are filled only inside the SubCategory branch: when the
    frame has no SubCategory column the Category column is returned
    unchanged, and when it has SubCategory but no Category the step
    raises KeyError.  When both are present, neither has a missing value
    afterwards. *)
Theorem category_filled_with_subcategory (df : frame) :
  (raises (fill_key_columns df) <->
     SubCategory df <> None /\ Category df = None) /\
  (forall df', fill_key_columns df = Ok df' ->
     Color df' = option_map (fillna "Not Specified") (Color df) /\
     (SubCategory df = None ->
        SubCategory df' = None /\ Category df' = Category df) /\
     (SubCategory df <> None ->
        complete (SubCategory df') /\ complete (Category df') /\
        SubCategory df' = option_map (fillna "Unknown") (SubCategory df) /\
        Category df' = option_map (fillna "Unknown") (Category df))).
Proof.
  destruct df as [color sub cat]. unfold fill_key_columns, raises, complete.
  cbn [Color SubCategory Category].
  destruct color as [c|], sub as [s|], cat as [k|];
    cbn [Color SubCategory Category column bind option_map]; split;
    try (split; [intros (e & H); discriminate|intros (H & H'); congruence]);
    try (split; [intros _; split; [discriminate|reflexivity]|eauto]);
    try (intros df' [= <-]; cbn [Color SubCategory Category];
         split; [reflexivity|]; split; [intro H; try discriminate; auto|];
         intro H; try congruence;
         repeat split; eauto using fillna_complete);
    try (intros df' H; discriminate).
Qed.

End FillFacts.

Module MarginFacts.
Import Num NumFacts Clean CleanFacts.
Local Open Scope Q_scope.

Lemma Profit_at_record df i s c :
  at_record (SalesAmount df) i = Some s ->
  at_record (TotalProductCost df) i = Some c ->
  at_record (Profit df) i = Some (profit s c).
Proof.
  unfold at_record, Profit.
  destruct (SalesAmount df) as [sales|]; [|discriminate].
  destruct (TotalProductCost df) as [cost|]; [|discriminate].
  apply zip_with_nth_error.
Qed.

Lemma margin_value (q k : Q) :
  ~ q == 0 ->
  exists m, profit_margin (Fin q) (Fin k) = Fin m /\ m * q == (q - k) * 100.
Proof.
  intro Hq. exists ((q - k) / q * 100).
  split; [apply profit_margin_nonzero, Hq|]. field. exact Hq.
Qed.



End MarginFacts.

Module DatesFacts.
Import Dates.
Local Open Scope Z_scope.

Lemma days_floor (delta : Z) :
  Rfm.one_day * Rfm.days delta <= delta < Rfm.one_day * (Rfm.days delta + 1).
Proof.
  unfold Rfm.days.
  assert (H : 0 < Rfm.one_day) by reflexivity.
  pose proof (Z.mul_div_le delta _ H).
  pose proof (Z.mul_succ_div_gt delta _ H). lia.
Qed.

(** X23. DeliveryDays counts whole days rounded down: it is missing
    exactly when one of the two dates is, it is negative exactly when
    the ship date is before the order date (then at most -1), and it
    is 0 exactly when the ship date is less than a day after the order
    date.  Age is the number of whole periods of 365 days between the
    birth date and the time of the run. *)
Theorem day_counts_round_down (now : Z) (ship order birth : option Z) :
  (delivery_days ship order = None <-> ship = None \/ order = None) /\
  (forall s o, ship = Some s -> order = Some o ->
     exists d, delivery_days ship order = Some d /\
       (d < 0 <-> s < o) /\
       (d = 0 <-> o <= s < o + Rfm.one_day) /\
       Rfm.one_day * d <= s - o < Rfm.one_day * (d + 1)) /\
  (forall b, birth = Some b ->
     exists a, age now birth = Some a /\
       (0 <= a <-> b <= now) /\
       365 * Rfm.one_day * a <= now - b < 365 * Rfm.one_day * (a + 1)).
Proof.
  split; [|split].
  - destruct ship, order; cbn; split; intro H;
      try discriminate; try reflexivity; auto; destruct H; discriminate.
  - intros s o -> ->. eexists. split; [reflexivity|].
    pose proof (days_floor (s - o)) as H.
    assert (P : 0 < Rfm.one_day) by reflexivity.
    repeat split; nia.
  - intros b ->. eexists. split; [reflexivity|].
    unfold Rfm.days.
    assert (P : 0 < Rfm.one_day) by reflexivity.
    rewrite Z.div_div by lia.
    assert (Q : 0 < Rfm.one_day * 365) by lia.
    pose proof (Z.mul_div_le (now - b) _ Q).
    pose proof (Z.mul_succ_div_gt (now - b) _ Q).
    repeat split; nia.
Qed.

End DatesFacts.

Module ConclusionFacts.
Import Num NumFacts Abc AbcFacts XyzData XyzFacts AbcShape Conclusion.
Local Open Scope string_scope.
Local Open Scope Q_scope.

Lemma filter_map_commute {A B} (f : A -> B) (p : B -> bool) (l : list A) :
  map f (filter (fun x => p (f x)) l) = filter p (map f l).
Proof.
  induction l as [|x l IH]; [reflexivity|].
  cbn. destruct (p (f x)); cbn; [f_equal|]; exact IH.
Qed.

(** When no product is dropped, the result has the rows of the ABC
    table. *)
Lemma result_rows (df : frame) :
  has_OrderDate df = false \/
  Forall (fun r => has_dated_line df (p_ProductKey (a_product r)) = true)
         (abc_analysis (rows df)) ->
  map x_abc (perform_abc_xyz_analysis df) = abc_analysis (rows df).
Proof.
  destruct (has_OrderDate df) eqn:E; intros [H|H]; try discriminate.
  - rewrite (perform_with_dates df E), map_map. cbn [x_abc].
    rewrite map_fst_merge_cv.
    rewrite Forall_forall in H.
    induction (abc_analysis (rows df)) as [|r rest IH]; [reflexivity|].
    cbn [filter].
    destruct (lookup_cv (cv_series df) (p_ProductKey (a_product r))) as [c|] eqn:El.
    + f_equal. apply IH. intros x Hx. apply H. right. exact Hx.
    + exfalso. specialize (H r (or_introl eq_refl)).
      apply lookup_cv_defined in H. destruct H as (c & Hc). congruence.
  - unfold perform_abc_xyz_analysis, xyz_try, order_periods. rewrite E.
    cbn [bind]. unfold xyz_unknown. rewrite map_map. cbn. apply map_id.
  - unfold perform_abc_xyz_analysis, xyz_try, order_periods. rewrite E.
    cbn [bind]. unfold xyz_unknown. rewrite map_map. cbn. apply map_id.
Qed.



End ConclusionFacts.

Module InsightsFacts.
Import Num NumFacts GroupSum Insights.
Local Open Scope string_scope.
Local Open Scope Q_scope.

(** *** Grouping by a key *)

Section Keys.
Variable K : Type.
Variable compare : K -> K -> comparison.
Hypothesis compare_eq : forall a b, compare a b = Eq <-> a = b.
Hypothesis compare_gt : forall a b, compare a b = Gt -> compare b a = Lt.
Hypothesis compare_trans :
  forall a b c, compare a b = Lt -> compare b c = Lt -> compare a c = Lt.

Let lt (a b : K) : Prop := compare a b = Lt.

Lemma in_inserted k keys x :
  In x (insert_key compare k keys) <-> x = k \/ In x keys.
Proof.
  induction keys as [|k' keys IH]; cbn; [intuition|].
  destruct (compare k k') eqn:E.
  - apply compare_eq in E. subst. cbn. intuition.
  - cbn. intuition.
  - cbn. rewrite IH. intuition.
Qed.

Lemma inserted_sorted k keys :
  StronglySorted lt keys -> StronglySorted lt (insert_key compare k keys).
Proof.
  induction 1 as [|k' keys Hs IH Hk]; cbn; [repeat constructor|].
  destruct (compare k k') eqn:E.
  - constructor; assumption.
  - constructor; [constructor; assumption|].
    constructor; [exact E|].
    eapply Forall_impl; [|exact Hk]. intros x Hx.
    exact (compare_trans _ _ _ E Hx).
  - constructor; [exact IH|].
    apply Forall_forall. intros x Hx. apply in_inserted in Hx.
    destruct Hx as [->|Hx]; [exact (compare_gt _ _ E)|].
    rewrite Forall_forall in Hk. exact (Hk x Hx).
Qed.

Lemma keys_NoDup col : NoDup (group_keys compare col).
Proof.
  assert (Hs : StronglySorted lt (group_keys compare col)).
  { unfold group_keys. induction (dropna col) as [|k ks IH]; cbn; [constructor|].
    apply inserted_sorted, IH. }
  induction Hs as [|k keys _ IH Hk]; constructor; [|exact IH].
  intro Hin. rewrite Forall_forall in Hk. specialize (Hk k Hin).
  unfold lt in Hk. rewrite (proj2 (compare_eq k k) eq_refl) in Hk. discriminate.
Qed.

Lemma in_keys col k : In k (group_keys compare col) <-> In (Some k) col.
Proof.
  unfold group_keys. rewrite <- in_dropna.
  induction (dropna col) as [|k' ks IH]; cbn; [tauto|].
  rewrite in_inserted, IH. intuition.
Qed.

Lemma revenue_by_total (key : row -> option K) (df : list row) :
  Abc.sum (map snd (revenue_by compare key df))
  == Abc.sum (dropna (map SalesAmount
                (filter (fun r => match key r with
                                  | Some _ => true
                                  | None => false
                                  end) df))).
Proof.
  unfold revenue_by. rewrite map_map. cbn [snd].
  apply (group_totals_all row K key SalesAmount
           (fun a b => match compare a b with Eq => true | _ => false end)).
  - intros a b. rewrite <- compare_eq.
    destruct (compare a b); intuition congruence.
  - apply keys_NoDup.
  - intros r k Hr Hk. apply in_keys. rewrite <- Hk. apply in_map, Hr.
Qed.

Lemma revenue_by_values (key : row -> option K) (df : list row) :
  (forall r q, In r df -> SalesAmount r = Some q -> 0 <= q) ->
  Forall (fun kv => 0 <= snd kv) (revenue_by compare key df).
Proof.
  intro H. unfold revenue_by. apply Forall_map, Forall_forall. intros k _.
  cbn [snd]. apply fold_plus_nonneg, Forall_forall. intros q Hq.
  apply in_dropna, in_map_iff in Hq. destruct Hq as (r & Hq & Hr).
  apply filter_In in Hr. exact (H r q (proj1 Hr) Hq).
Qed.

Lemma revenue_by_length (key : row -> option K) (df : list row) :
  List.length (revenue_by compare key df)
  = List.length (group_keys compare (map key df)).
Proof.
  apply length_map.
Qed.

(** *** The largest values *)

Lemma insert_desc_permutation (p : K * Q) sorted :
  Permutation (insert_desc p sorted) (p :: sorted).
Proof.
  induction sorted as [|p' rest IH]; cbn; [reflexivity|].
  destruct (Qlt_bool _ _); [|reflexivity].
  rewrite IH. apply perm_swap.
Qed.

Lemma sort_desc_permutation (s : list (K * Q)) :
  Permutation (fold_right insert_desc [] s) s.
Proof.
  induction s as [|p s IH]; cbn; [reflexivity|].
  rewrite insert_desc_permutation. apply perm_skip, IH.
Qed.

Lemma nlargest_bounds n (s : list (K * Q)) :
  Forall (fun kv => 0 <= snd kv) s ->
  0 <= Abc.sum (map snd (nlargest n s)) <= Abc.sum (map snd s).
Proof.
  intro H. unfold nlargest.
  assert (Hs : Forall (fun q => 0 <= q) (map snd (fold_right insert_desc [] s))).
  { apply Forall_map.
    apply (Permutation_Forall (Permutation_sym (sort_desc_permutation s))), H. }
  rewrite <- (fold_plus_perm _ _ (Permutation_map snd (sort_desc_permutation s))).
  fold (Abc.sum (map snd (fold_right insert_desc [] s))).
  rewrite <- firstn_map.
  set (col := map snd (fold_right insert_desc [] s)) in *.
  split.
  - apply (AbcFacts.fold_plus_firstn_ge col 0 n Hs).
  - pose proof (AbcFacts.sum_firstn_mono col 0 n (List.length col) Hs) as Hm.
    rewrite firstn_all in Hm.
    destruct (Nat.le_gt_cases n (List.length col)) as [Hle|Hgt];
      [exact (Hm Hle)|].
    rewrite firstn_all2 by lia. apply Qle_refl.
Qed.

Lemma keys_empty_iff col :
  group_keys compare col = [] <-> forall k, ~ In (Some k) col.
Proof.
  split.
  - intros E k Hk. apply in_keys in Hk. rewrite E in Hk. exact Hk.
  - intro H. destruct (group_keys compare col) as [|k ks] eqn:E; [reflexivity|].
    exfalso. apply (H k), in_keys. rewrite E. left. reflexivity.
Qed.

Lemma revenue_by_empty_iff (key : row -> option K) (df : list row) :
  revenue_by compare key df = [] <-> forall r, In r df -> key r = None.
Proof.
  unfold revenue_by. split.
  - intros E r Hr. apply map_eq_nil in E.
    destruct (key r) as [k|] eqn:Ek; [|reflexivity].
    exfalso. apply (proj1 (keys_empty_iff _) E k).
    rewrite <- Ek. apply in_map, Hr.
  - intro H. assert (E : group_keys compare (map key df) = []); [|rewrite E; reflexivity].
    apply keys_empty_iff. intros k Hk. apply in_map_iff in Hk.
    destruct Hk as (r & Ek & Hr). rewrite (H r Hr) in Ek. discriminate.
Qed.

Lemma idxmax_none (s : list (K * Q)) : idxmax s = None <-> s = [].
Proof.
  destruct s as [|kv rest]; cbn; [tauto|].
  destruct (idxmax rest) as [best|]; [destruct (Qle_bool _ _)|];
    split; discriminate.
Qed.

Lemma idxmin_none (s : list (K * Q)) : idxmin s = None <-> s = [].
Proof.
  destruct s as [|kv rest]; cbn; [tauto|].
  destruct (idxmin rest) as [best|]; [destruct (Qle_bool _ _)|];
    split; discriminate.
Qed.

(** [idxmax] finds a largest value, and the first entry that has it. *)
Lemma idxmax_spec (s : list (K * Q)) (best : K * Q) :
  idxmax s = Some best ->
  exists front back,
    s = (front ++ best :: back)%list /\
    Forall (fun kv => snd kv < snd best) front /\
    Forall (fun kv => snd kv <= snd best) back.
Proof.
  revert best. induction s as [|kv rest IH]; intro best; [discriminate|].
  cbn [idxmax]. destruct (idxmax rest) as [b|] eqn:E.
  - destruct (IH b eq_refl) as (front & back & -> & Hf & Hb).
    destruct (Qle_bool (snd b) (snd kv)) eqn:L; q_reflect; intros [= <-].
    + exists [], (front ++ b :: back)%list. split; [reflexivity|].
      split; [constructor|].
      apply Forall_app. split; [|constructor].
      * eapply Forall_impl; [|exact Hf]. cbn. intros x Hx. lra.
      * exact L.
      * eapply Forall_impl; [|exact Hb]. cbn. intros x Hx. lra.
    + exists (kv :: front), back. split; [reflexivity|].
      split; [constructor; assumption|exact Hb].
  - apply idxmax_none in E. subst rest. intros [= <-].
    exists [], []. repeat constructor.
Qed.

Lemma idxmin_spec (s : list (K * Q)) (best : K * Q) :
  idxmin s = Some best ->
  In best s /\ Forall (fun kv => snd best <= snd kv) s.
Proof.
  revert best. induction s as [|kv rest IH]; intro best; [discriminate|].
  cbn [idxmin]. destruct (idxmin rest) as [b|] eqn:E.
  - destruct (IH b eq_refl) as (Hin & Hall).
    destruct (Qle_bool (snd kv) (snd b)) eqn:L; q_reflect; intros [= <-].
    + split; [left; reflexivity|]. constructor; [apply Qle_refl|].
      eapply Forall_impl; [|exact Hall]. cbn. intros x Hx. lra.
    + split; [right; exact Hin|]. constructor; [lra|exact Hall].
  - apply idxmin_none in E. subst rest. intros [= <-].
    split; [left; reflexivity|]. repeat constructor. apply Qle_refl.
Qed.

(** The groups are in increasing order of their keys. *)
Lemma revenue_by_sorted (key : row -> option K) (df : list row) :
  StronglySorted lt (map fst (revenue_by compare key df)).
Proof.
  unfold revenue_by. rewrite map_map. cbn [fst]. rewrite map_id.
  unfold group_keys. induction (dropna (map key df)) as [|k ks IH]; cbn;
    [constructor|].
  apply inserted_sorted, IH.
Qed.

Lemma sorted_after {A} (R : A -> A -> Prop) (front back : list A) :
  StronglySorted R (front ++ back) -> StronglySorted R back.
Proof.
  induction front as [|x front IH]; cbn; [auto|].
  intro H. apply StronglySorted_inv in H. apply IH, H.
Qed.

Lemma best_group (key : row -> option K) (df : list row) (k : K) (v : Q) :
  idxmax (revenue_by compare key df) = Some (k, v) ->
  In (k, v) (revenue_by compare key df) /\
  forall k' v', In (k', v') (revenue_by compare key df) ->
    v' <= v /\ (v' == v -> k' <> k -> compare k k' = Lt).
Proof.
  intro H. pose proof (revenue_by_sorted key df) as Hs.
  apply idxmax_spec in H. destruct H as (front & back & E & Hf & Hb).
  rewrite E in *. split; [apply in_elt|].
  intros k' v' Hin. apply in_app_iff in Hin.
  rewrite Forall_forall in Hf, Hb. destruct Hin as [Hin|[[= <- <-]|Hin]].
  - specialize (Hf _ Hin). cbn in Hf. split; [lra|].
    intro Heq. exfalso. lra.
  - split; [apply Qle_refl|]. intros _ Hne. congruence.
  - split; [exact (Hb _ Hin)|]. intros _ _.
    rewrite map_app in Hs. cbn [map fst] in Hs.
    apply sorted_after in Hs. apply StronglySorted_inv in Hs.
    destruct Hs as (_ & Hk). rewrite Forall_forall in Hk.
    apply (Hk k'). apply (in_map fst _ (k', v')), Hin.
Qed.

End Keys.

(** The two orders the script groups by. *)
Lemma Z_compare_gt a b : Z.compare a b = Gt -> Z.compare b a = Lt.
Proof.
  rewrite Z.compare_gt_iff, Z.compare_lt_iff. auto.
Qed.

Lemma Z_compare_trans a b c :
  Z.compare a b = Lt -> Z.compare b c = Lt -> Z.compare a c = Lt.
Proof.
  rewrite !Z.compare_lt_iff. apply Z.lt_trans.
Qed.

Lemma string_compare_eq a b : String.compare a b = Eq <-> a = b.
Proof.
  split; [apply String.compare_eq_iff|].
  intros ->. apply AbcGroups.string_compare_refl.
Qed.

Lemma string_compare_gt a b : String.compare a b = Gt -> String.compare b a = Lt.
Proof.
  rewrite (String.compare_antisym b a).
  destruct (String.compare a b); cbn; congruence.
Qed.

Lemma sum_filter_le (p : row -> bool) (df : list row) :
  (forall r q, In r df -> SalesAmount r = Some q -> 0 <= q) ->
  Abc.sum (dropna (map SalesAmount (filter p df)))
  <= Abc.sum (dropna (map SalesAmount df)).
Proof.
  unfold Abc.sum. induction df as [|r df IH]; intro H; [apply Qle_refl|].
  assert (IH' := IH (fun r' q Hr => H r' q (or_intror Hr))).
  cbn [filter map dropna].
  destruct (SalesAmount r) as [q|] eqn:Eq.
  - pose proof (H r q (or_introl eq_refl) Eq) as Hq.
    destruct (p r); cbn [map dropna]; rewrite ?Eq; cbn [dropna];
      rewrite ?fold_plus_cons; lra.
  - destruct (p r); cbn [map dropna]; rewrite ?Eq; cbn [dropna]; exact IH'.
Qed.




(** *** The places of the insights *)

Lemma best_of_cases present key make df insights result :
  best_of present key make df insights = Ok result ->
  (present = false /\ result = insights) \/
  (present = true /\ exists name revenue,
     result = (insights ++ [make name revenue])%list).
Proof.
  unfold best_of. destruct present; [|intros [= <-]; auto].
  destruct (idxmax _) as [(name, revenue)|]; [|discriminate].
  intros [= <-]. right. eauto.
Qed.

(** X27. When [extract_insights] returns, the list begins with total
    revenue, number of customers, number of products and average order
    value, and has between 4 and 11 entries.  The entry at index 4,
    printed under the customer base in the conclusion, is the top-20%
    insight exactly when some record has a customer key; the entry at
    index 5, printed under the geographic distribution, is the
    best-region insight exactly when moreover the frame has a Region
    column. *)
Theorem insight_places (df : frame) (insights : list insight) :
  extract_insights df = Ok insights ->
  (4 <= List.length insights <= 11)%nat /\
  (exists rest,
     insights = [TotalRevenue (total_revenue df);
                 Customers (nunique (map CustomerKey (rows df)));
                 Products (nunique (map ProductKey (rows df)));
                 AverageOrder (avg_order_value df)] ++ rest)%list /\
  (is_top20 (nth_error insights 4) = true <-> customer_value df <> []) /\
  (is_region (nth_error insights 5) = true <->
     customer_value df <> [] /\ has_Region df = true).
Proof.
  unfold extract_insights.
  set (base := [TotalRevenue (total_revenue df);
                Customers (nunique (map CustomerKey (rows df)));
                Products (nunique (map ProductKey (rows df)));
                AverageOrder (avg_order_value df)]).
  set (top := Top20 (percent_top_20 df)).
  assert (Hc : exists l1,
             (if (0 <? List.length (customer_value df))%nat
              then (base ++ [top])%list else base) = (base ++ l1)%list /\
             ((customer_value df <> [] /\ l1 = [top]) \/
              (customer_value df = [] /\ l1 = []))).
  { destruct (customer_value df) as [|c cs]; cbn [List.length Nat.ltb Nat.leb].
    - exists []. rewrite app_nil_r. auto.
    - exists [top]. split; [reflexivity|]. left. split; [discriminate|reflexivity]. }
  destruct Hc as (l1 & -> & Hl1).
  destruct (best_of (has_Region df) Region BestRegion df (base ++ l1))
    as [i2|e] eqn:E2; cbn [bind]; [|discriminate].
  destruct (best_of (has_Category df) Category BestCategory df i2)
    as [i3|e] eqn:E3; cbn [bind]; [|discriminate].
  apply best_of_cases in E2, E3.
  assert (Hm : exists l4,
             (if has_OrderDate df
              then match idxmax (revenue_by Z.compare month (rows df)),
                         idxmin (revenue_by Z.compare month (rows df)) with
                   | Some (bm, b), Some (wm, w) =>
                       (i3 ++ [BestMonth bm b; WorstMonth wm w])%list
                   | _, _ => i3
                   end
              else i3) = (i3 ++ l4)%list /\
             (List.length l4 <= 2)%nat /\
             Forall (fun i => is_region (Some i) = false /\
                              is_top20 (Some i) = false) l4).
  { destruct (has_OrderDate df); [|exists []; rewrite app_nil_r; auto].
    destruct (idxmax _) as [(bm, b)|]; [|exists []; rewrite app_nil_r; auto].
    destruct (idxmin _) as [(wm, w)|]; [|exists []; rewrite app_nil_r; auto].
    eexists. split; [reflexivity|]. split; [cbn; lia|].
    repeat constructor. }
  destruct Hm as (l4 & -> & Hlen4 & Hl4).
  set (l5 := [TotalProfit (total_profit df); AverageMargin (avg_profit_margin df)]).
  intros [= <-].
  destruct Hl1 as [(Hcust & ->)|(Hcust & ->)];
    destruct E2 as [(ER & ->)|(ER & name & rev & ->)];
    destruct E3 as [(EC & ->)|(EC & cname & crev & ->)];
    destruct (has_Profit df);
    destruct l4 as [|a4 [|b4 [|c4 l4]]]; try (cbn in Hlen4; lia);
    repeat match goal with
           | H : Forall _ (_ :: _) |- _ =>
               apply Forall_cons_iff in H; destruct H as ((? & ?) & H)
           end;
    (split; [cbn; lia|]);
    (split; [eexists; unfold base; cbn [app]; reflexivity|]);
    unfold base, l5; cbn [app nth_error];
    repeat match goal with
           | H : is_region (Some _) = false |- _ => rewrite ?H; clear H
           | H : is_top20 (Some _) = false |- _ => rewrite ?H; clear H
           end;
    cbn [is_top20 is_region]; rewrite ER;
    intuition congruence.
Qed.

Lemma insight_places_witness :
  exists insights,
    extract_insights two_orders = Ok insights /\
    List.length insights = 5%nat /\
    is_top20 (nth_error insights 4) = true /\
    is_region (nth_error insights 5) = false.
Proof.
  destruct (extract_insights two_orders) as [insights|e] eqn:E;
    [|vm_compute in E; discriminate].
  exists insights.
  destruct (insight_places two_orders insights E) as (_ & _ & Ht & Hr).
  split; [reflexivity|].
  split; [vm_compute in E; injection E as <-; reflexivity|].
  split.
  - apply Ht. vm_compute. discriminate.
  - destruct (is_region (nth_error insights 5)); [|reflexivity].
    destruct (proj1 Hr eq_refl) as (_ & H). discriminate H.
Defined.

(** *** When the function returns *)

Lemma best_of_returns present key make df insights :
  returns (best_of present key make df insights) <->
  (present = true -> exists r name, In r (rows df) /\ key r = Some name).
Proof.
  unfold best_of, returns. destruct present.
  - destruct (idxmax (revenue_by String.compare key (rows df)))
      as [(name, revenue)|] eqn:E.
    + split; [intros _ _|eauto].
      destruct (revenue_by String.compare key (rows df)) as [|kv s] eqn:Es;
        [discriminate|].
      assert (Hne : ~ (forall r, In r (rows df) -> key r = None)).
      { intro H.
        apply (revenue_by_empty_iff _ _ string_compare_eq) in H. congruence. }
      clear E Es.
      induction (rows df) as [|r l IH]; [exfalso; apply Hne; intros r []|].
      destruct (key r) as [n|] eqn:Ek; [exists r, n; cbn; auto|].
      destruct IH as (r' & n & Hr' & Hn).
      * intro H. apply Hne. intros x [<-|Hx]; auto.
      * exists r', n. cbn. auto.
    + apply idxmax_none in E.
      split; [intros (i & H); discriminate|].
      intro H. destruct (H eq_refl) as (r & name & Hr & Hk).
      rewrite (proj1 (revenue_by_empty_iff _ _ string_compare_eq key (rows df)) E r Hr)
        in Hk. discriminate.
  - split; [discriminate|eauto].
Qed.

(** X28. [extract_insights] returns exactly when every one of the
    Region and Category columns that the frame has holds a value in
    some record; when the frame has such a column without any value (an
    empty frame, for instance) the lookup of the best group raises
    ValueError. *)
Theorem insights_return_iff (df : frame) :
  returns (extract_insights df) <->
  (has_Region df = true ->
     exists r name, In r (rows df) /\ Region r = Some name) /\
  (has_Category df = true ->
     exists r name, In r (rows df) /\ Category r = Some name).
Proof.
  unfold extract_insights.
  set (start := if (0 <? _)%nat then _ else _).
  rewrite <- (best_of_returns (has_Region df) Region BestRegion df start).
  destruct (best_of (has_Region df) Region BestRegion df start) as [i2|e] eqn:E2;
    cbn [bind].
  - rewrite <- (best_of_returns (has_Category df) Category BestCategory df i2).
    destruct (best_of (has_Category df) Category BestCategory df i2)
      as [i3|e] eqn:E3; cbn [bind].
    + split; [intros _|intros _; eexists; reflexivity].
      split; eexists; reflexivity.
    + split; [intros (i & H); discriminate|intros (_ & (i & H)); discriminate].
  - split; [intros (i & H); discriminate|intros ((i & H) & _); discriminate].
Qed.

(** X29. The best region reported is a region of the data with its
    revenue; no region has a larger revenue, and a region with the same
    revenue comes later in the order of the region names.  The same
    holds for the best category. *)
Theorem best_region_is_largest (df : frame) (insights : list insight)
    (name : string) (revenue : Q) :
  extract_insights df = Ok insights ->
  (In (BestRegion name revenue) insights ->
     In (name, revenue) (revenue_by String.compare Region (rows df)) /\
     forall name' revenue',
       In (name', revenue') (revenue_by String.compare Region (rows df)) ->
       revenue' <= revenue /\
       (revenue' == revenue -> name' <> name -> String.compare name name' = Lt)) /\
  (In (BestCategory name revenue) insights ->
     In (name, revenue) (revenue_by String.compare Category (rows df)) /\
     forall name' revenue',
       In (name', revenue') (revenue_by String.compare Category (rows df)) ->
       revenue' <= revenue /\
       (revenue' == revenue -> name' <> name -> String.compare name name' = Lt)).
Proof.
  unfold extract_insights.
  set (start := if (0 <? _)%nat then _ else _).
  assert (Hstart : forall n v, ~ In (BestRegion n v) start /\
                               ~ In (BestCategory n v) start).
  { intros n v. unfold start.
    destruct (0 <? _)%nat; cbn; intuition discriminate. }
  destruct (best_of (has_Region df) Region BestRegion df start) as [i2|e] eqn:E2;
    cbn [bind]; [|discriminate].
  destruct (best_of (has_Category df) Category BestCategory df i2) as [i3|e] eqn:E3;
    cbn [bind]; [|discriminate].
  set (final := if has_Profit df then _ else _). intros [= <-].
  assert (Hfinal : forall i, In i final ->
            In i i3 \/ (forall n v, i <> BestRegion n v /\ i <> BestCategory n v)).
  { intros i Hi. unfold final in Hi.
    assert (Hm : forall l, In i l ->
              l = (if has_OrderDate df
                   then match idxmax (revenue_by Z.compare month (rows df)),
                              idxmin (revenue_by Z.compare month (rows df)) with
                        | Some (bm, b), Some (wm, w) =>
                            (i3 ++ [BestMonth bm b; WorstMonth wm w])%list
                        | _, _ => i3
                        end
                   else i3) ->
              In i i3 \/ (forall n v, i <> BestRegion n v /\ i <> BestCategory n v)).
    { intros l Hl ->. destruct (has_OrderDate df); [|auto].
      destruct (idxmax _) as [(bm, b)|]; [|auto].
      destruct (idxmin _) as [(wm, w)|]; [|auto].
      apply in_app_iff in Hl. destruct Hl as [Hl|[<-|[<-|[]]]]; auto;
        right; intros n v; split; discriminate. }
    destruct (has_Profit df); [|apply (Hm _ Hi eq_refl)].
    apply in_app_iff in Hi. destruct Hi as [Hi|[<-|[<-|[]]]];
      [apply (Hm _ Hi eq_refl)| |]; right; intros n v; split; discriminate. }
  unfold best_of in E2, E3.
  split; intro Hin; apply Hfinal in Hin;
    (destruct Hin as [Hin|Hin]; [|exfalso; destruct (Hin name revenue); congruence]).
  - assert (Hi2 : In (BestRegion name revenue) i2).
    { destruct (has_Category df); [|congruence].
      destruct (idxmax (revenue_by String.compare Category (rows df)))
        as [(n, v)|]; [|discriminate].
      injection E3 as <-. apply in_app_iff in Hin.
      destruct Hin as [Hin|[Hin|[]]]; [exact Hin|discriminate]. }
    destruct (has_Region df);
      [|injection E2 as <-; exfalso; exact (proj1 (Hstart _ _) Hi2)].
    destruct (idxmax (revenue_by String.compare Region (rows df)))
      as [(n, v)|] eqn:Em; [|discriminate].
    injection E2 as <-. apply in_app_iff in Hi2.
    destruct Hi2 as [Hi2|[[= <- <-]|[]]];
      [exfalso; exact (proj1 (Hstart _ _) Hi2)|].
    apply (best_group _ _ string_compare_eq string_compare_gt
             AbcGroups.string_lt_trans Region (rows df) n v Em).
  - assert (Hi2 : ~ In (BestCategory name revenue) i2).
    { destruct (has_Region df); [|injection E2 as <-; apply Hstart].
      destruct (idxmax (revenue_by String.compare Region (rows df)))
        as [(n, v)|]; [|discriminate].
      injection E2 as <-. intro H. apply in_app_iff in H.
      destruct H as [H|[H|[]]]; [exact (proj2 (Hstart _ _) H)|discriminate]. }
    destruct (has_Category df); [|injection E3 as <-; contradiction].
    destruct (idxmax (revenue_by String.compare Category (rows df)))
      as [(n, v)|] eqn:Em; [|discriminate].
    injection E3 as <-. apply in_app_iff in Hin.
    destruct Hin as [Hin|[[= <- <-]|[]]]; [contradiction|].
    apply (best_group _ _ string_compare_eq string_compare_gt
             AbcGroups.string_lt_trans Category (rows df) n v Em).
Qed.

Lemma best_region_is_largest_witness :
  exists insights,
    extract_insights two_regions = Ok insights /\
    In (BestRegion "North" 100) insights /\
    In ("North", 100) (revenue_by String.compare Region (rows two_regions)) /\
    forall name' revenue',
      In (name', revenue') (revenue_by String.compare Region (rows two_regions)) ->
      revenue' <= 100.
Proof.
  destruct (extract_insights two_regions) as [insights|e] eqn:E;
    [|vm_compute in E; discriminate].
  exists insights. split; [reflexivity|].
  assert (Hin : In (BestRegion "North" 100) insights).
  { assert (E' := E). vm_compute in E'. injection E' as <-.
    repeat (first [left; reflexivity|right]). }
  split; [exact Hin|].
  destruct (best_region_is_largest two_regions insights "North" 100 E)
    as (H & _).
  destruct (H Hin) as (H1 & H2). split; [exact H1|].
  intros name' revenue' Hn. apply (H2 name' revenue' Hn).
Defined.

End InsightsFacts.

Module LabelsFacts.
Import Labels.

(** X30. A tick label has at most 28 characters: a product name of at
    most 25 characters is shown unchanged, a longer one as its first 25
    characters and three dots.  Shortening a label twice changes
    nothing more, and two long names get the same label exactly when
    their first 25 characters agree. *)
Theorem tick_label_shortens {char : Type} (dot : char) (label : list char) :
  (List.length (tick_label dot label) <= 28)%nat /\
  ((List.length label <= 25)%nat -> tick_label dot label = label) /\
  ((25 < List.length label)%nat ->
     List.length (tick_label dot label) = 28%nat /\
     firstn 25 (tick_label dot label) = firstn 25 label /\
     skipn 25 (tick_label dot label) = [dot; dot; dot]) /\
  tick_label dot (tick_label dot label) = tick_label dot label /\
  (forall other,
     (25 < List.length label)%nat -> (25 < List.length other)%nat ->
     (tick_label dot label = tick_label dot other <->
      firstn 25 label = firstn 25 other)).
Proof.
  assert (Hlong : forall l, (25 < List.length l)%nat ->
            tick_label dot l = firstn 25 l ++ [dot; dot; dot]).
  { intros l H. unfold tick_label.
    destruct (Nat.ltb_spec 25 (List.length l)); [reflexivity|lia]. }
  assert (Hshort : forall l, (List.length l <= 25)%nat -> tick_label dot l = l).
  { intros l H. unfold tick_label.
    destruct (Nat.ltb_spec 25 (List.length l)); [lia|reflexivity]. }
  assert (Hlen : forall l : list char, (25 < List.length l)%nat ->
            List.length (firstn 25 l) = 25%nat).
  { intros l H. rewrite length_firstn. lia. }
  assert (Hfirst : forall l : list char, (25 < List.length l)%nat ->
            firstn 25 (firstn 25 l ++ [dot; dot; dot]) = firstn 25 l).
  { intros l H. rewrite firstn_app, (Hlen l H), Nat.sub_diag.
    rewrite firstn_O, app_nil_r. apply firstn_all2. rewrite (Hlen l H). lia. }
  split; [|split; [|split; [|split]]].
  - destruct (Nat.le_gt_cases (List.length label) 25) as [H|H].
    + rewrite (Hshort label H). lia.
    + rewrite (Hlong label H), length_app, (Hlen label H). cbn. lia.
  - apply Hshort.
  - intro H. rewrite (Hlong label H). split; [|split].
    + rewrite length_app, (Hlen label H). reflexivity.
    + apply Hfirst, H.
    + rewrite skipn_app.
      rewrite (skipn_all2 (firstn 25 label)) by (rewrite (Hlen label H); lia).
      rewrite (Hlen label H), Nat.sub_diag. reflexivity.
  - destruct (Nat.le_gt_cases (List.length label) 25) as [H|H].
    + rewrite (Hshort label H). apply Hshort, H.
    + rewrite (Hlong label H).
      rewrite Hlong by (rewrite length_app, (Hlen label H); cbn; lia).
      rewrite (Hfirst label H). reflexivity.
  - intros other H H'. rewrite (Hlong label H), (Hlong other H'). split.
    + intro E. apply (f_equal (firstn 25)) in E.
      rewrite (Hfirst label H), (Hfirst other H') in E. exact E.
    + intros ->. reflexivity.
Qed.

End LabelsFacts.

Module Binning.
Import Num NumFacts Rfm Qcut QcutFacts RfmScores RfmScoresFacts Extremes ScoreExtremes.
Local Open Scope Q_scope.

(** *** Binning on given edges *)

Lemma edges_shape values bins :
  quintile_edges_of values bins ->
  exists e0 e1 e2 e3 e4 e5,
    bins = [e0; e1; e2; e3; e4; e5] /\
    e0 < e1 /\ e1 < e2 /\ e2 < e3 /\ e3 < e4 /\ e4 < e5 /\
    (forall v, In v values -> e0 <= v <= e5) /\
    (forall v, In v values -> (forall w, In w values -> v <= w) -> v == e0) /\
    (forall v, In v values -> (forall w, In w values -> w <= v) -> v == e5).
Proof.
  intros (Hlen & Hs & ((lo & Hlo & Elo) & Hleast) & ((hi & Hhi & Ehi) & Hgreatest)).
  destruct bins as [|e0 [|e1 [|e2 [|e3 [|e4 [|e5 [|e6 bins]]]]]]]; try discriminate.
  cbn [hd nth] in *.
  exists e0, e1, e2, e3, e4, e5. split; [reflexivity|].
  repeat match goal with
         | H : StronglySorted _ (_ :: _) |- _ =>
             apply StronglySorted_inv in H; destruct H as (H & ?)
         end.
  repeat match goal with
         | H : Forall _ (_ :: _) |- _ =>
             apply Forall_cons_iff in H; destruct H as (? & H)
         end.
  split; [assumption|]. split; [assumption|]. split; [assumption|].
  split; [assumption|]. split; [assumption|].
  split; [|split].
  - intros v Hv. split; [apply Hleast|apply Hgreatest]; exact Hv.
  - intros v Hv Hmin. apply Qle_antisym; [|apply Hleast; exact Hv].
    rewrite <- Elo. apply Hmin, Hlo.
  - intros v Hv Hmax. apply Qle_antisym; [apply Hgreatest; exact Hv|].
    rewrite <- Ehi. apply Hmax, Hhi.
Qed.

(** The score of a value on the inverted scale: 5 up to the second
    edge, then one less per edge passed. *)
Lemma inverted_bands e0 e1 e2 e3 e4 e5 v :
  e0 < e1 -> e1 < e2 -> e2 < e3 -> e3 < e4 -> e4 < e5 ->
  e0 <= v <= e5 ->
  (v <= e1 /\ label_of [e0; e1; e2; e3; e4; e5] [5; 4; 3; 2; 1]%Z v = Some 5%Z) \/
  (e1 < v <= e2 /\ label_of [e0; e1; e2; e3; e4; e5] [5; 4; 3; 2; 1]%Z v = Some 4%Z) \/
  (e2 < v <= e3 /\ label_of [e0; e1; e2; e3; e4; e5] [5; 4; 3; 2; 1]%Z v = Some 3%Z) \/
  (e3 < v <= e4 /\ label_of [e0; e1; e2; e3; e4; e5] [5; 4; 3; 2; 1]%Z v = Some 2%Z) \/
  (e4 < v /\ label_of [e0; e1; e2; e3; e4; e5] [5; 4; 3; 2; 1]%Z v = Some 1%Z).
Proof.
  intros H01 H12 H23 H34 H45 (Hlo & Hhi).
  unfold label_of, bin_of. cbn [hd searchsorted_left List.length].
  destruct (Qeq_bool v e0) eqn:E0; q_reflect.
  { left. split; [lra|reflexivity]. }
  destruct (Qlt_bool e0 v) eqn:L0; q_reflect; [|exfalso; apply E0; lra].
  destruct (Qlt_bool e1 v) eqn:L1; q_reflect;
    [|left; split; [lra|reflexivity]].
  destruct (Qlt_bool e2 v) eqn:L2; q_reflect;
    [|right; left; split; [lra|reflexivity]].
  destruct (Qlt_bool e3 v) eqn:L3; q_reflect;
    [|right; right; left; split; [lra|reflexivity]].
  destruct (Qlt_bool e4 v) eqn:L4; q_reflect;
    [|right; right; right; left; split; [lra|reflexivity]].
  destruct (Qlt_bool e5 v) eqn:L5; q_reflect; [exfalso; lra|].
  right; right; right; right. split; [lra|reflexivity].
Qed.

Section GeneralBins.
Variables values bins : list Q.
Hypothesis edges : quintile_edges_of values bins.

Lemma general_range v :
  In v values ->
  exists z, label_of bins [5; 4; 3; 2; 1]%Z v = Some z /\ (1 <= z <= 5)%Z.
Proof.
  intro Hv.
  destruct (edges_shape _ _ edges)
    as (e0 & e1 & e2 & e3 & e4 & e5 & -> & H01 & H12 & H23 & H34 & H45 & Hr & _).
  destruct (inverted_bands e0 e1 e2 e3 e4 e5 v H01 H12 H23 H34 H45 (Hr v Hv))
    as [(_ & E)|[(_ & E)|[(_ & E)|[(_ & E)|(_ & E)]]]];
    rewrite E; eexists; (split; [reflexivity|lia]).
Qed.

Lemma general_mono v w zv zw :
  In v values -> In w values -> v <= w ->
  label_of bins [5; 4; 3; 2; 1]%Z v = Some zv ->
  label_of bins [5; 4; 3; 2; 1]%Z w = Some zw ->
  (zw <= zv)%Z.
Proof.
  intros Hv Hw Hvw.
  destruct (edges_shape _ _ edges)
    as (e0 & e1 & e2 & e3 & e4 & e5 & -> & H01 & H12 & H23 & H34 & H45 & Hr & _).
  destruct (inverted_bands e0 e1 e2 e3 e4 e5 v H01 H12 H23 H34 H45 (Hr v Hv))
    as [(Bv & ->)|[(Bv & ->)|[(Bv & ->)|[(Bv & ->)|(Bv & ->)]]]];
  destruct (inverted_bands e0 e1 e2 e3 e4 e5 w H01 H12 H23 H34 H45 (Hr w Hw))
    as [(Bw & ->)|[(Bw & ->)|[(Bw & ->)|[(Bw & ->)|(Bw & ->)]]]];
    intros [= <-] [= <-]; try lia; exfalso; lra.
Qed.

Lemma general_least v :
  In v values -> (forall w, In w values -> v <= w) ->
  label_of bins [5; 4; 3; 2; 1]%Z v = Some 5%Z.
Proof.
  intros Hv Hmin.
  destruct (edges_shape _ _ edges)
    as (e0 & e1 & e2 & e3 & e4 & e5 & -> & H01 & H12 & H23 & H34 & H45 & Hr & Hl & _).
  pose proof (Hl v Hv Hmin) as E.
  destruct (inverted_bands e0 e1 e2 e3 e4 e5 v H01 H12 H23 H34 H45 (Hr v Hv))
    as [(B & ->)|[(B & ->)|[(B & ->)|[(B & ->)|(B & ->)]]]];
    try reflexivity; exfalso; lra.
Qed.

Lemma general_greatest v :
  In v values -> (forall w, In w values -> w <= v) ->
  label_of bins [5; 4; 3; 2; 1]%Z v = Some 1%Z.
Proof.
  intros Hv Hmax.
  destruct (edges_shape _ _ edges)
    as (e0 & e1 & e2 & e3 & e4 & e5 & -> & H01 & H12 & H23 & H34 & H45 & Hr & _ & Hg).
  pose proof (Hg v Hv Hmax) as E.
  destruct (inverted_bands e0 e1 e2 e3 e4 e5 v H01 H12 H23 H34 H45 (Hr v Hv))
    as [(B & ->)|[(B & ->)|[(B & ->)|[(B & ->)|(B & ->)]]]];
    try reflexivity; exfalso; lra.
Qed.

End GeneralBins.

Lemma general_ends x bins :
  quintile_edges_of (dropna x) bins ->
  ends_inverted_present x (bin_labels bins [5; 4; 3; 2; 1]%Z x).
Proof.
  intros Hedges j v Hj. unfold bin_labels. rewrite nth_error_map, Hj.
  cbn [option_map].
  assert (Hv : In v (dropna x)) by (apply in_dropna; eapply nth_error_In; eauto).
  split; intro H; do 2 f_equal.
  - apply (general_least _ _ Hedges v Hv). intros w Hw. apply H, in_dropna, Hw.
  - apply (general_greatest _ _ Hedges v Hv). intros w Hw. apply H, in_dropna, Hw.
Qed.

Lemma model_ends x r :
  qcut x 5 [5; 4; 3; 2; 1]%Z = Ok r -> ends_inverted_present x r.
Proof.
  intro H. apply qcut_ok in H. destruct H as (Hne & Hd & ->).
  intros j v Hj. rewrite nth_error_map, Hj. cbn [option_map].
  assert (Hv : In v (dropna x)) by (apply in_dropna; eapply nth_error_In; eauto).
  split; intro H; do 2 f_equal.
  - first [apply (least_label _ Hne v Hv)|apply (least_label _ Hne Hd v Hv)].
    intros w Hw. apply H, in_dropna, Hw.
  - apply (greatest_label _ Hne Hd v Hv). intros w Hw. apply H, in_dropna, Hw.
Qed.


End Binning.

Module Distinct.
Import Num NumFacts Rfm Qcut QcutFacts RfmScores RfmScoresFacts Extremes ScoreExtremes.
Local Open Scope Q_scope.

(** *** Columns without equal values *)

Lemma distinct_perm (l l' : list Q) :
  Permutation l l' -> pairwise_distinct l -> pairwise_distinct l'.
Proof.
  unfold pairwise_distinct.
  induction 1 as [|x l l' Hp IH|x y l|l l' l'' _ IH1 _ IH2]; intro H.
  - exact H.
  - inversion H as [|a k Ha Hk]; subst. constructor; [|apply IH, Hk].
    apply (Permutation_Forall Hp), Ha.
  - inversion H as [|a k Ha Hk]; subst.
    inversion Hk as [|b k' Hb Hk']; subst.
    inversion Ha as [|c k'' Hyx Hy]; subst.
    constructor; [constructor; [intro E; apply Hyx; symmetry; exact E|exact Hb]|].
    constructor; assumption.
  - apply IH2, IH1, H.
Qed.

Lemma sorted_strict (l : list Q) :
  StronglySorted Qle l -> pairwise_distinct l -> StronglySorted Qlt l.
Proof.
  unfold pairwise_distinct.
  induction 1 as [|a l Hs IH Ha]; intro H; [constructor|].
  inversion H as [|b k Hb Hk]; subst. constructor; [apply IH, Hk|].
  rewrite Forall_forall in *. intros x Hx.
  destruct (Qle_lt_or_eq _ _ (Ha x Hx)) as [L|E]; [exact L|].
  exfalso. exact (Hb x Hx E).
Qed.

Lemma sort_asc_strict (values : list Q) :
  pairwise_distinct values -> StronglySorted Qlt (sort_asc values).
Proof.
  intro H. apply sorted_strict; [apply sort_asc_sorted|].
  apply (distinct_perm values); [apply Permutation_sym, sort_asc_perm|exact H].
Qed.

Lemma strict_nth (l : list Q) i j :
  StronglySorted Qlt l -> (i < j)%nat -> (j < List.length l)%nat ->
  nth i l 0 < nth j l 0.
Proof.
  intro H. revert i j. induction H as [|a l Hs IH Ha]; intros i j Hij Hj;
    [cbn in Hj; lia|].
  destruct j as [|j]; [lia|]. cbn [List.length] in Hj.
  destruct i as [|i]; cbn [nth].
  - rewrite Forall_forall in Ha. apply Ha, nth_In. lia.
  - apply IH; lia.
Qed.

Lemma strict_nth_le (l : list Q) i j :
  StronglySorted Qlt l -> (i <= j)%nat -> (j < List.length l)%nat ->
  nth i l 0 <= nth j l 0.
Proof.
  intros H Hij Hj. destruct (Nat.eq_dec i j) as [->|Hne]; [apply Qle_refl|].
  apply Qlt_le_weak, strict_nth; [exact H|lia|exact Hj].
Qed.

(** *** Quantiles of a strictly increasing list *)

Section Strict.
Variable sorted : list Q.
Hypothesis strict : StronglySorted Qlt sorted.
Let n := List.length sorted.
Hypothesis n_pos : (1 <= n)%nat.

Let position (p : Q) : Q := p * inject_Z (Z.of_nat n - 1).
Let low (p : Q) : nat := Z.to_nat (Qfloor (position p)).

Lemma low_range p :
  0 <= p <= 1 ->
  (low p < n)%nat /\ of_nat (low p) <= position p < of_nat (low p) + 1.
Proof.
  intro Hp. destruct (quantile_index n p n_pos Hp) as ((H0 & Hn) & Hl & Hu).
  fold (position p) in *. unfold low, of_nat. rewrite Z2Nat.id by exact H0.
  split; [lia|]. split; assumption.
Qed.

Lemma quantile_unfold p :
  quantile sorted p
  = nth (low p) sorted 0
    + (position p - inject_Z (Qfloor (position p)))
      * (nth (S (low p)) sorted (nth (low p) sorted 0) - nth (low p) sorted 0).
Proof. reflexivity. Qed.

Lemma low_floor p : 0 <= p <= 1 -> inject_Z (Qfloor (position p)) = of_nat (low p).
Proof.
  intro Hp. destruct (quantile_index n p n_pos Hp) as ((H0 & _) & _).
  fold (position p) in *. unfold low, of_nat. rewrite Z2Nat.id by exact H0.
  reflexivity.
Qed.

Lemma next_value p :
  (S (low p) < n)%nat ->
  nth (S (low p)) sorted (nth (low p) sorted 0) = nth (S (low p)) sorted 0
  /\ nth (low p) sorted 0 < nth (S (low p)) sorted 0.
Proof.
  intro H. split; [apply nth_indep; exact H|].
  apply strict_nth; [exact strict|lia|exact H].
Qed.

Lemma quantile_lower p : 0 <= p <= 1 -> nth (low p) sorted 0 <= quantile sorted p.
Proof.
  intro Hp. destruct (low_range p Hp) as (Hl & Hlo & Hhi).
  rewrite quantile_unfold, (low_floor p Hp).
  set (a := nth (low p) sorted 0).
  assert (Hb : a <= nth (S (low p)) sorted a).
  { destruct (Nat.lt_ge_cases (S (low p)) n) as [H|H].
    - destruct (next_value p H) as (E & L). fold a in E, L. rewrite E.
      apply Qlt_le_weak, L.
    - rewrite nth_overflow by exact H. apply Qle_refl. }
  assert (0 <= (position p - of_nat (low p)) * (nth (S (low p)) sorted a - a));
    [apply Qmult_le_0_compat; lra|lra].
Qed.

Lemma quantile_below_next p :
  0 <= p <= 1 -> (S (low p) < n)%nat ->
  quantile sorted p < nth (S (low p)) sorted 0.
Proof.
  intros Hp H. destruct (low_range p Hp) as (Hl & Hlo & Hhi).
  rewrite quantile_unfold, (low_floor p Hp).
  destruct (next_value p H) as (-> & L).
  set (a := nth (low p) sorted 0) in *. set (b := nth (S (low p)) sorted 0) in *.
  assert ((position p - of_nat (low p)) * (b - a) < 1 * (b - a));
    [apply Qmult_lt_compat_r; lra|lra].
Qed.

(** A quantile is below the value at index [j] exactly when its position
    is before [j]. *)
Lemma quantile_lt_iff p j :
  0 <= p <= 1 -> (j < n)%nat ->
  (quantile sorted p < nth j sorted 0 <-> (low p < j)%nat).
Proof.
  intros Hp Hj. split.
  - intro H. destruct (Nat.lt_ge_cases (low p) j) as [L|L]; [exact L|].
    exfalso. pose proof (quantile_lower p Hp) as Hq.
    destruct (low_range p Hp) as (Hl & _).
    pose proof (strict_nth_le sorted j (low p) strict L Hl). lra.
  - intro L. pose proof (quantile_below_next p Hp ltac:(lia)) as Hq.
    pose proof (strict_nth_le sorted (S (low p)) j strict ltac:(lia) Hj). lra.
Qed.

Lemma quantile_strict_mono p p' :
  (2 <= n)%nat -> 0 <= p -> p < p' -> p' <= 1 ->
  quantile sorted p < quantile sorted p'.
Proof.
  intros Hn H0 Hpp H1.
  assert (Hp : 0 <= p <= 1) by lra. assert (Hp' : 0 <= p' <= 1) by lra.
  destruct (low_range p Hp) as (Hl & Hlo & Hhi).
  destruct (low_range p' Hp') as (Hl' & Hlo' & Hhi').
  assert (HN : 0 < inject_Z (Z.of_nat n - 1)).
  { change 0 with (inject_Z 0). rewrite <- Zlt_Qlt. lia. }
  assert (Hpos : position p < position p').
  { unfold position. apply Qmult_lt_compat_r; assumption. }
  assert (Hmax : position p' <= of_nat n - 1).
  { unfold position, of_nat.
    assert (E : inject_Z (Z.of_nat n) - 1 == inject_Z (Z.of_nat n - 1)).
    { unfold Zminus. rewrite inject_Z_plus. reflexivity. }
    rewrite E. rewrite <- (Qmult_1_l (inject_Z (Z.of_nat n - 1))) at 2.
    apply Qmult_le_compat_r; lra. }
  assert (Hnext : (S (low p) < n)%nat).
  { assert (L : of_nat (low p) < of_nat n - 1) by lra.
    assert (L' : of_nat (low p) + 1 < of_nat n) by lra.
    unfold of_nat in L'. change 1 with (inject_Z 1) in L'.
    rewrite <- inject_Z_plus, <- Zlt_Qlt in L'. lia. }
  assert (Hle : (low p <= low p')%nat).
  { assert (L : of_nat (low p) < of_nat (low p') + 1) by lra.
    unfold of_nat in L. change 1 with (inject_Z 1) in L.
    rewrite <- inject_Z_plus, <- Zlt_Qlt in L. lia. }
  destruct (Nat.eq_dec (low p) (low p')) as [E|Hne].
  - rewrite !quantile_unfold, (low_floor p Hp), (low_floor p' Hp'), <- E.
    destruct (next_value p Hnext) as (-> & L).
    set (a := nth (low p) sorted 0) in *. set (b := nth (S (low p)) sorted 0) in *.
    assert ((position p - of_nat (low p)) * (b - a)
            < (position p' - of_nat (low p)) * (b - a));
      [apply Qmult_lt_compat_r; lra|lra].
  - pose proof (quantile_below_next p Hp Hnext) as Hq.
    pose proof (quantile_lower p' Hp') as Hq'.
    pose proof (strict_nth_le sorted (S (low p)) (low p') strict ltac:(lia) Hl').
    lra.
Qed.

End Strict.

End Distinct.

Module Quintiles.
Import Num NumFacts Rfm Qcut QcutFacts RfmScores RfmScoresFacts Extremes ScoreExtremes.
Import Binning Distinct.
Local Open Scope Q_scope.

Lemma fifth_position k n :
  (1 <= n)%nat ->
  Z.to_nat (Qfloor (of_nat k / of_nat 5 * inject_Z (Z.of_nat n - 1)))
  = (k * (n - 1) / 5)%nat.
Proof.
  intro Hn.
  assert (E : of_nat k / of_nat 5 * inject_Z (Z.of_nat n - 1)
              == (Z.of_nat (k * (n - 1)) # 5)).
  { unfold of_nat. rewrite Nat2Z.inj_mul, Nat2Z.inj_sub by exact Hn.
    unfold Qdiv, Qmult, Qinv, inject_Z, Qeq. cbn. lia. }
  rewrite E. change (Qfloor (Z.of_nat (k * (n - 1)) # 5))
    with (Z.of_nat (k * (n - 1)) / Z.of_nat 5)%Z.
  rewrite <- Nat2Z.inj_div. apply Nat2Z.id.
Qed.

Lemma list_as_seq (l : list Q) :
  l = map (fun j => nth j l 0) (seq 0 (List.length l)).
Proof.
  induction l as [|a l IH]; [reflexivity|].
  cbn [List.length seq map nth]. f_equal.
  rewrite <- seq_shift, map_map. exact IH.
Qed.

(** *** Distinct values on edges at the quantile positions *)

Section DistinctBins.
Variables values bins : list Q.
Let n := List.length values.
Let sorted := sort_asc values.
Hypothesis distinct : pairwise_distinct values.
Hypothesis two : (2 <= n)%nat.
Hypothesis edges : quintile_edges_of values bins.
Hypothesis cut : edges_at_quintiles values bins.

Lemma sorted_length : List.length sorted = n.
Proof. apply sort_asc_length. Qed.

Lemma sorted_increasing : StronglySorted Qlt sorted.
Proof. apply sort_asc_strict, distinct. Qed.

Lemma cut_lt k j :
  (k <= 5)%nat -> (j < n)%nat ->
  (nth k bins 0 < nth j sorted 0 <-> (k * (n - 1) < 5 * j)%nat).
Proof.
  intros Hk Hj. destruct (cut k Hk) as (Hlo & Hhi).
  fold n sorted in Hlo, Hhi. cbn zeta in Hlo, Hhi.
  pose proof sorted_increasing as Hs. pose proof sorted_length as Hl.
  div5 (k * (n - 1))%nat.
  assert (Hin : (k * (n - 1) / 5 < n)%nat) by nia.
  split.
  - intro Hlt. destruct (Nat.lt_ge_cases (k * (n - 1)) (5 * j)) as [L|L]; [exact L|].
    exfalso.
    assert (Hle : (j <= k * (n - 1) / 5)%nat) by lia.
    pose proof (strict_nth_le sorted j _ Hs Hle ltac:(lia)). lra.
  - intro L.
    assert (Hnext : (S (k * (n - 1) / 5) <= j)%nat) by lia.
    specialize (Hhi ltac:(lia)).
    pose proof (strict_nth_le sorted _ j Hs Hnext ltac:(lia)). lra.
Qed.

Lemma lowest_eq j :
  (j < n)%nat -> (nth j sorted 0 == hd 0 bins <-> j = 0%nat).
Proof.
  intro Hj. destruct edges as (_ & _ & ((w & Hw & Ew) & Hleast) & _).
  pose proof sorted_increasing as Hs. pose proof sorted_length as Hl.
  assert (E0 : nth 0 sorted 0 == hd 0 bins).
  { apply Qle_antisym.
    - rewrite <- Ew. apply (sorted_bounds values w Hw).
    - apply Hleast.
      apply (Permutation_in _ (sort_asc_perm values)), nth_In. fold sorted. lia. }
  split.
  - intro E. destruct j as [|j]; [reflexivity|]. exfalso.
    pose proof (strict_nth sorted 0 (S j) Hs ltac:(lia) ltac:(lia)). lra.
  - intros ->. exact E0.
Qed.

Lemma cut_ltb k j :
  (k <= 5)%nat -> (j < n)%nat ->
  Qlt_bool (nth k bins 0) (nth j sorted 0) = (k * (n - 1) <? 5 * j)%nat.
Proof.
  intros Hk Hj.
  destruct (Nat.ltb_spec (k * (n - 1)) (5 * j)) as [H|H].
  - apply Qlt_bool_iff, cut_lt; assumption.
  - apply Qlt_bool_false. apply Qnot_lt_le. intro L.
    apply cut_lt in L; [lia|exact Hk|exact Hj].
Qed.

Lemma lowest_eqb j :
  (j < n)%nat -> Qeq_bool (nth j sorted 0) (hd 0 bins) = (S j <=? 1)%nat.
Proof.
  intro Hj. pose proof (lowest_eq j Hj) as H.
  destruct (Nat.leb_spec (S j) 1) as [L|L].
  - apply Qeq_bool_iff, H. lia.
  - apply Qeq_bool_false. intro E. apply H in E. lia.
Qed.

(** The bin of the value at index [j] of the increasing order is the
    quintile of its rank [j + 1]. *)
Lemma bin_at j :
  (j < n)%nat -> bin_of bins (nth j sorted 0) = Some (quintile n (S j)).
Proof.
  intro Hj.
  pose proof (lowest_eqb j Hj) as H0.
  pose proof (fun k Hk => cut_ltb k j Hk Hj) as Hc.
  destruct (edges_shape _ _ edges)
    as (e0 & e1 & e2 & e3 & e4 & e5 & E & _).
  rewrite E in *.
  pose proof (Hc 0%nat ltac:(lia)) as C0. pose proof (Hc 1%nat ltac:(lia)) as C1.
  pose proof (Hc 2%nat ltac:(lia)) as C2. pose proof (Hc 3%nat ltac:(lia)) as C3.
  pose proof (Hc 4%nat ltac:(lia)) as C4. pose proof (Hc 5%nat ltac:(lia)) as C5.
  cbn [nth hd] in *. clear Hc.
  unfold bin_of, quintile, searchsorted_left. cbn [hd List.length].
  rewrite H0, C0, C1, C2, C3, C4, C5.
  replace (S j - 1)%nat with j by lia.
  destruct (Nat.leb_spec (S j) 1); [reflexivity|].
  repeat match goal with
  | |- context [(?a <? ?b)%nat] => destruct (Nat.ltb_spec a b)
  end; cbn; try reflexivity; exfalso; lia.
Qed.

Lemma label_at j :
  (j < n)%nat ->
  label_of bins [5; 4; 3; 2; 1]%Z (nth j sorted 0)
  = Some (6 - Z.of_nat (quintile n (S j)))%Z.
Proof.
  intro Hj. unfold label_of. rewrite (bin_at j Hj).
  apply descending_label, quintile_range.
Qed.

Lemma distinct_balanced :
  balanced n (bin_labels bins [5; 4; 3; 2; 1]%Z (map Some values)).
Proof.
  intros k Hk. unfold score_count, bin_labels. rewrite map_map.
  set (g := fun v : Q => label_of bins [5; 4; 3; 2; 1]%Z v).
  set (test := fun s : option Z => match s with
                                   | Some z => (z =? k)%Z
                                   | None => false
                                   end).
  rewrite (filter_perm_length test (map g values) (map g sorted))
    by (apply Permutation_map, Permutation_sym, sort_asc_perm).
  rewrite (list_as_seq sorted), sorted_length, map_map, filter_map_length.
  rewrite (filter_ext_in _ (fun j => (quintile n (S j) =? Z.to_nat (6 - k))%nat)).
  2:{ intros j Hj. apply in_seq in Hj. unfold g, test.
      rewrite label_at by lia.
      pose proof (quintile_range n (S j)).
      destruct (Z.eqb_spec (6 - Z.of_nat (quintile n (S j))) k),
        (Nat.eqb_spec (quintile n (S j)) (Z.to_nat (6 - k)));
        try reflexivity; exfalso; lia. }
  rewrite <- (filter_map_length (fun r => (quintile n r =? Z.to_nat (6 - k))%nat) S).
  rewrite seq_shift. apply quintile_count; lia.
Qed.

End DistinctBins.

End Quintiles.

Module RecencyScores.
Import Num NumFacts Rfm Qcut QcutFacts RfmScores RfmScoresFacts Extremes ScoreExtremes.
Import Binning Distinct Quintiles.
Local Open Scope Q_scope.

(** *** Scores on given edges *)

Lemma ends_present values scores :
  ends_inverted_present (map Some values) scores -> ends_inverted values scores.
Proof.
  intros H j v Hj.
  destruct (H j v) as (H5 & H1); [rewrite nth_error_map, Hj; reflexivity|].
  split; intro Hall; [apply H5|apply H1]; intros w Hw; apply Hall;
    apply in_map_iff in Hw; destruct Hw as (w' & [= ->] & Hw); exact Hw.
Qed.

Lemma general_scores values bins :
  quintile_edges_of values bins ->
  let r := bin_labels bins [5; 4; 3; 2; 1]%Z (map Some values) in
  scored_1_to_5 (List.length values) r /\
  descending_by_value values r /\
  ends_inverted values r.
Proof.
  intros Hedges r. subst r. split; [split|split].
  - unfold bin_labels. rewrite !length_map. reflexivity.
  - unfold bin_labels. rewrite map_map. apply Forall_forall. intros s Hs.
    apply in_map_iff in Hs. destruct Hs as (v & <- & Hv).
    apply (general_range _ _ Hedges v Hv).
  - intros i j zi zj Hi Hj Hle. unfold bin_labels in Hi, Hj.
    rewrite map_map, nth_error_map in Hi, Hj.
    destruct (nth_error values i) as [v|] eqn:Ev; [|discriminate].
    destruct (nth_error values j) as [w|] eqn:Ew; [|discriminate].
    cbn [option_map] in Hi, Hj.
    rewrite (nth_error_nth _ _ 0 Ev), (nth_error_nth _ _ 0 Ew) in Hle.
    apply (general_mono _ _ Hedges v w zi zj).
    + exact (nth_error_In _ _ Ev).
    + exact (nth_error_In _ _ Ew).
    + exact Hle.
    + congruence.
    + congruence.
  - apply ends_present, general_ends. rewrite dropna_map_Some. exact Hedges.
Qed.

(** *** The exact quantiles of distinct values *)

Lemma fifth_range k :
  (k <= 5)%nat -> 0 <= of_nat k / of_nat 5 <= 1.
Proof.
  intro Hk. change (of_nat 5) with 5.
  assert (H0 : 0 <= of_nat k).
  { unfold of_nat. change 0 with (inject_Z 0). rewrite <- Zle_Qle. lia. }
  assert (H5 : of_nat k <= 5).
  { unfold of_nat. change 5 with (inject_Z 5). rewrite <- Zle_Qle. lia. }
  split.
  - apply Qle_shift_div_l; lra.
  - apply Qle_shift_div_r; lra.
Qed.

Lemma fifth_lt k k' :
  (k < k')%nat -> of_nat k / of_nat 5 < of_nat k' / of_nat 5.
Proof.
  intro H. change (of_nat 5) with 5. apply of_nat_lt in H.
  unfold Qdiv. apply Qmult_lt_compat_r; [reflexivity|exact H].
Qed.

Lemma edge_nth values k :
  (k <= 5)%nat ->
  nth k (quantile_edges values 5) 0
  = quantile (sort_asc values) (of_nat k / of_nat 5).
Proof.
  intro Hk.
  destruct k as [|[|[|[|[|[|k]]]]]]; try lia; reflexivity.
Qed.

Section DistinctEdges.
Variable values : list Q.
Let n := List.length values.
Hypothesis distinct : pairwise_distinct values.
Hypothesis two : (2 <= n)%nat.

Lemma values_nonempty : values <> [].
Proof. intro E. unfold n in two. rewrite E in two. cbn in two. lia. Qed.

Lemma exact_edge_lt k k' :
  (k < k')%nat -> (k' <= 5)%nat ->
  quantile (sort_asc values) (of_nat k / of_nat 5)
  < quantile (sort_asc values) (of_nat k' / of_nat 5).
Proof.
  intros Hk Hk'.
  apply quantile_strict_mono.
  - apply sort_asc_strict, distinct.
  - rewrite sort_asc_length. fold n. lia.
  - rewrite sort_asc_length. exact two.
  - apply fifth_range. lia.
  - apply fifth_lt, Hk.
  - apply fifth_range, Hk'.
Qed.

Lemma exact_edges_increasing : StronglySorted Qlt (quantile_edges values 5).
Proof.
  unfold quantile_edges. cbn [seq map].
  repeat (constructor;
          [|repeat (constructor; [apply exact_edge_lt; lia|]); constructor]).
  constructor.
Qed.

Lemma exact_edges : quintile_edges_of values (quantile_edges values 5).
Proof.
  pose proof values_nonempty as Hne.
  assert (Hin : forall i, (i < n)%nat -> In (nth i (sort_asc values) 0) values).
  { intros i Hi. apply (Permutation_in _ (sort_asc_perm values)), nth_In.
    rewrite sort_asc_length. exact Hi. }
  split; [reflexivity|]. split; [exact exact_edges_increasing|]. split; split.
  - exists (nth 0 (sort_asc values) 0). split; [apply Hin; lia|].
    symmetry. apply (lowest_bin values Hne).
  - intros w Hw. rewrite (lowest_bin values Hne).
    apply (sorted_bounds values w Hw).
  - exists (nth (n - 1) (sort_asc values) 0). split; [apply Hin; lia|].
    symmetry. apply (highest_bin values Hne).
  - intros w Hw. rewrite (highest_bin values Hne).
    apply (sorted_bounds values w Hw).
Qed.

Lemma exact_edges_cut : edges_at_quintiles values (quantile_edges values 5).
Proof.
  unfold edges_at_quintiles. intros k Hk. fold n.
  pose proof (sort_asc_strict values distinct) as Hs.
  assert (Hl : (1 <= List.length (sort_asc values))%nat)
    by (rewrite sort_asc_length; fold n; lia).
  pose proof (fifth_range k Hk) as Hp.
  rewrite (edge_nth values k Hk).
  pose proof (quantile_lower _ Hs Hl _ Hp) as Hlo.
  pose proof (quantile_below_next _ Hs Hl _ Hp) as Hhi.
  rewrite sort_asc_length in Hlo, Hhi. fold n in Hlo, Hhi.
  rewrite fifth_position in Hlo, Hhi by lia.
  split; assumption.
Qed.

Lemma exact_scores :
  qcut (map Some values) 5 [5; 4; 3; 2; 1]%Z
  = Ok (bin_labels (quantile_edges values 5) [5; 4; 3; 2; 1]%Z (map Some values)).
Proof.
  rewrite (qcut_present _ _ _ values_nonempty).
  rewrite (all_distinct_sorted _ exact_edges_increasing).
  unfold bin_labels. rewrite map_map. reflexivity.
Qed.

End DistinctEdges.

Lemma distinct_scores values bins :
  pairwise_distinct values -> (5 <= List.length values)%nat ->
  quintile_edges_of values bins -> edges_at_quintiles values bins ->
  let r := bin_labels bins [5; 4; 3; 2; 1]%Z (map Some values) in
  balanced (List.length values) r /\
  (forall k, (1 <= k <= 5)%Z -> (1 <= score_count r k)%nat).
Proof.
  intros Hd Hn He Hc r.
  assert (Hb : balanced (List.length values) r)
    by (apply distinct_balanced; [exact Hd|lia|exact He|exact Hc]).
  split; [exact Hb|].
  intros k Hk. apply (balanced_nonempty _ _ _ Hn Hb Hk).
Qed.

(** C3, as the code has it.  With at least 5 customers, Frequency and
    Monetary are each binned by rank, ties ranked in order of appearance:
    the binning returns, every customer gets a score from 1 to 5, each of
    the five scores goes to the fifth of the customers rounded down or up
    (so no bin is empty), and a higher value never scores lower.  Recency
    is binned on its values, without ranking.  When every customer has a
    valid last order date: whenever the Recency binning returns, every
    customer gets a score from 1 to 5, a larger Recency never scores
    higher (inverted scale; equal Recency values share a score), the
    least Recency scores 5 and the greatest scores 1; when no two
    customers share a Recency the binning returns and the five scores go
    to balanced groups as for Frequency and Monetary.  Both facts hold
    on any six edges that increase strictly from the least to the
    greatest Recency, the second when the edges lie at the quantile
    positions, so they do not depend on how the quantiles are rounded.
    The analysis returns exactly when the Recency binning does and every
    customer has a Recency. *)
Theorem quintile_scoring (df : frame) :
  (5 <= List.length (customer_keys df))%nat ->
  let rfm := rfm_table df in
  let n := List.length (customer_keys df) in
  (exists f, F_Score rfm = Ok f /\
     scored_1_to_5 n f /\ balanced n f /\
     (forall k, (1 <= k <= 5)%Z -> (1 <= score_count f k)%nat) /\
     ascending_by_rank (frequency_values rfm) f) /\
  (exists m, M_Score rfm = Ok m /\
     scored_1_to_5 n m /\ balanced n m /\
     (forall k, (1 <= k <= 5)%Z -> (1 <= score_count m k)%nat) /\
     ascending_by_rank (monetary_values rfm) m) /\
  (forall recency, recency_values rfm = map Some recency ->
     (forall r, R_Score rfm = Ok r ->
        scored_1_to_5 n r /\ descending_by_value recency r /\
        ends_inverted recency r) /\
     (pairwise_distinct recency ->
        exists r, R_Score rfm = Ok r /\ balanced n r /\
          (forall k, (1 <= k <= 5)%Z -> (1 <= score_count r k)%nat)) /\
     (forall bins, quintile_edges_of recency bins ->
        let r := bin_labels bins [5; 4; 3; 2; 1]%Z (recency_values rfm) in
        scored_1_to_5 n r /\ descending_by_value recency r /\
        ends_inverted recency r /\
        (pairwise_distinct recency -> edges_at_quintiles recency bins ->
           balanced n r /\
           (forall k, (1 <= k <= 5)%Z -> (1 <= score_count r k)%nat)))) /\
  (returns (perform_rfm_analysis df) <->
     returns (R_Score rfm) /\ Forall (fun row => Recency row <> None) rfm).
Proof.
  intros Hn rfm n. subst n. rewrite <- (rfm_table_length df) in *. fold rfm in Hn |- *.
  split; [|split; [|split]].
  - destruct (F_Score_ranked rfm) as (f & E & H1 & H2 & H3); [lia|].
    exists f. split; [exact E|]. split; [exact H1|]. split; [exact H2|].
    split; [|exact H3].
    intros k Hk. apply (balanced_nonempty _ _ _ Hn H2 Hk).
  - destruct (M_Score_ranked rfm) as (m & E & H1 & H2 & H3); [lia|].
    exists m. split; [exact E|]. split; [exact H1|]. split; [exact H2|].
    split; [|exact H3].
    intros k Hk. apply (balanced_nonempty _ _ _ Hn H2 Hk).
  - intros recency Hrec.
    assert (Hlen : List.length recency = List.length rfm).
    { apply (f_equal (@List.length _)) in Hrec.
      unfold recency_values in Hrec. rewrite !length_map in Hrec. congruence. }
    change (R_Score rfm) with (qcut (recency_values rfm) 5 [5; 4; 3; 2; 1]%Z).
    rewrite Hrec, <- Hlen. split; [|split].
    + intros r Hr.
      destruct (recency_scores_present recency r Hr) as (H1 & H2).
      split; [exact H1|]. split; [exact H2|]. apply inverted_ends, Hr.
    + intro Hd.
      assert (H2 : (2 <= List.length recency)%nat) by lia.
      exists (bin_labels (quantile_edges recency 5) [5; 4; 3; 2; 1]%Z
                (map Some recency)).
      split; [apply exact_scores; assumption|].
      apply distinct_scores;
        [exact Hd|lia|apply exact_edges; assumption
        |apply exact_edges_cut; assumption].
    + intros bins He r. subst r.
      destruct (general_scores recency bins He) as (H1 & H2 & H3).
      split; [exact H1|]. split; [exact H2|]. split; [exact H3|].
      intros Hd Hc. apply distinct_scores; [exact Hd|lia|exact He|exact Hc].
  - apply score_table_returns. lia.
Qed.

Lemma quintile_scoring_witness :
  let rfm := rfm_table five_customers in
  (exists f, F_Score rfm = Ok f /\ balanced 5 f) /\
  (exists r, R_Score rfm = Ok r /\ balanced 5 r /\ ends_inverted [1; 2; 3; 4; 5] r) /\
  R_Score rfm = Ok [Some 5; Some 4; Some 3; Some 2; Some 1]%Z /\
  returns (perform_rfm_analysis five_customers).
Proof.
  intro rfm.
  assert (H5 : (5 <= List.length (customer_keys five_customers))%nat)
    by (vm_compute; lia).
  assert (Hrec : recency_values rfm = map Some [1; 2; 3; 4; 5])
    by (vm_compute; reflexivity).
  assert (Hd : pairwise_distinct [1; 2; 3; 4; 5])
    by (repeat constructor; intro E; vm_compute in E; discriminate E).
  destruct (quintile_scoring five_customers H5) as (HF & _ & HR & Hret).
  destruct (HR _ Hrec) as (Hok & Hdist & _).
  destruct (Hdist Hd) as (r & Er & Hb & _).
  split; [|split; [|split]].
  - destruct HF as (f & E & _ & Hb' & _). exists f. split; assumption.
  - exists r. split; [exact Er|]. split; [exact Hb|]. apply (Hok r Er).
  - vm_compute. reflexivity.
  - apply Hret. split.
    + exists r. exact Er.
    + vm_compute. repeat constructor; discriminate.
Defined.

End RecencyScores.

Module AbcXyzFacts.
Import Num Abc AbcFacts AbcXyz.
Local Open Scope string_scope.

(** *** The handler of the XYZ stage *)

Lemma handler_object current :
  handler object current = Ok (unknown_rows current).
Proof. reflexivity. Qed.

Lemma handler_float64 current : handler float64 current = Raise float_plus_str.
Proof. reflexivity. Qed.

Lemma category_dtype_object product_sales :
  product_sales <> [] -> category_dtype product_sales = object.
Proof.
  destruct product_sales; [contradiction|reflexivity].
Qed.

Lemma unknown_rows_abc product_sales :
  unknown_rows (map (fun r => (r, None)) product_sales)
  = xyz_unknown product_sales.
Proof.
  unfold unknown_rows, xyz_unknown. rewrite map_map. reflexivity.
Qed.

Lemma merged_cv_raises_iff df product_sales :
  raises (merged_cv df product_sales) <-> has_OrderDate df = false.
Proof.
  unfold merged_cv, order_periods, raises.
  destruct (has_OrderDate df); cbn; split.
  - intros (e & H). discriminate.
  - discriminate.
  - reflexivity.
  - eauto.
Qed.

(** Without rows in the ABC table the analysis raises, whatever the
    [try] does. *)
Lemma empty_table_raises outcome :
  try_except [] outcome = Raise float_plus_str.
Proof.
  destruct outcome; reflexivity.
Qed.

Lemma fallback_table product_sales e :
  product_sales <> [] ->
  try_except product_sales (Raise e) = Ok (xyz_unknown product_sales).
Proof.
  intro H. unfold try_except. rewrite (category_dtype_object _ H).
  rewrite handler_object, unknown_rows_abc. reflexivity.
Qed.

Lemma xyz_unknown_rows product_sales :
  map x_abc (xyz_unknown product_sales) = product_sales /\
  Forall (fun r =>
            XYZ_Category r = "Unknown" /\
            ABC_XYZ r = ABC_Category (x_abc r) ++ "-Unknown" /\
            CV r = None)
         (xyz_unknown product_sales).
Proof.
  unfold xyz_unknown. split.
  - rewrite map_map. cbn. apply map_id.
  - apply Forall_forall. intros r Hr. apply in_map_iff in Hr.
    destruct Hr as (a & <- & _). cbn. auto.
Qed.

(** When the analysis returns, its table is the one of [Abc]. *)
Lemma returned_table df :
  abc_analysis (rows df) <> [] ->
  perform_abc_xyz_analysis df = Ok (Abc.perform_abc_xyz_analysis df).
Proof.
  intro H. unfold perform_abc_xyz_analysis, Abc.perform_abc_xyz_analysis.
  unfold try_except, merged_cv, xyz_try.
  rewrite (category_dtype_object _ H).
  destruct (order_periods df) as [periods|e]; cbn [bind add_str].
  - reflexivity.
  - rewrite handler_object, unknown_rows_abc. reflexivity.
Qed.

Lemma returned_table_unique df t :
  perform_abc_xyz_analysis df = Ok t -> t = Abc.perform_abc_xyz_analysis df.
Proof.
  intro H. destruct (abc_analysis (rows df)) as [|r rest] eqn:E.
  - unfold perform_abc_xyz_analysis in H. rewrite E, empty_table_raises in H.
    discriminate.
  - rewrite returned_table in H by (rewrite E; discriminate).
    congruence.
Qed.

(** C4, as the code has it.  Whatever exception the pivot, the
    coefficient-of-variation computation or their merge into the table
    raises, on whatever input: when the ABC table has at least one
    product the analysis still returns its table, with the products and
    the ABC categories of the ABC stage unchanged, every XYZ category
    "Unknown", every combined label the ABC category followed by
    "-Unknown", and no CV; when the ABC table has no product the handler
    itself raises TypeError (line 572 adds a string to an empty float64
    column) and the analysis aborts, as it does on an empty ABC table
    whatever the [try] does. *)
Theorem xyz_failure_gives_unknown :
  (forall product_sales e,
     product_sales <> [] ->
     exists table,
       try_except product_sales (Raise e) = Ok table /\
       map x_abc table = product_sales /\
       Forall (fun r =>
                 XYZ_Category r = "Unknown" /\
                 ABC_XYZ r = ABC_Category (x_abc r) ++ "-Unknown" /\
                 CV r = None)
              table) /\
  (forall df,
     raises (merged_cv df (abc_analysis (rows df))) ->
     abc_analysis (rows df) <> [] ->
     exists table,
       perform_abc_xyz_analysis df = Ok table /\
       map x_abc table = abc_analysis (rows df) /\
       Forall (fun r =>
                 XYZ_Category r = "Unknown" /\
                 ABC_XYZ r = ABC_Category (x_abc r) ++ "-Unknown" /\
                 CV r = None)
              table) /\
  (forall outcome, try_except [] outcome = Raise float_plus_str) /\
  (forall df,
     abc_analysis (rows df) = [] ->
     perform_abc_xyz_analysis df = Raise float_plus_str).
Proof.
  split; [|split; [|split]].
  - intros product_sales e H. exists (xyz_unknown product_sales).
    split; [apply fallback_table, H|]. apply xyz_unknown_rows.
  - intros df (e & He) H. exists (xyz_unknown (abc_analysis (rows df))).
    split; [|apply xyz_unknown_rows].
    unfold perform_abc_xyz_analysis. cbn zeta. rewrite He.
    apply fallback_table, H.
  - exact empty_table_raises.
  - intros df E. unfold perform_abc_xyz_analysis. cbn zeta. rewrite E.
    apply empty_table_raises.
Qed.

(** A frame without an OrderDate column is an input on which the pivot
    raises; without any sales line the analysis aborts. *)
Lemma xyz_failure_gives_unknown_witness :
  merged_cv no_order_date (abc_analysis (rows no_order_date))
    = Raise (KeyError "OrderDate") /\
  (exists table,
     perform_abc_xyz_analysis no_order_date = Ok table /\
     map x_abc table = abc_analysis (rows no_order_date) /\
     map ABC_XYZ table = ["A-Unknown"; "C-Unknown"]) /\
  perform_abc_xyz_analysis no_sales = Raise float_plus_str.
Proof.
  destruct xyz_failure_gives_unknown as (_ & Hdf & _ & Hempty).
  split; [reflexivity|]. split.
  - destruct (Hdf no_order_date) as (table & E & Hrows & _).
    + exists (KeyError "OrderDate"). reflexivity.
    + discriminate.
    + exists table. split; [exact E|]. split; [exact Hrows|].
      vm_compute in E. injection E as <-. reflexivity.
  - apply Hempty. reflexivity.
Defined.

End AbcXyzFacts.

Module AbcFloatFacts.
Import PrimFloat AbcFloat.
Local Open Scope string_scope.
Local Open Scope float_scope.
#[local] Set Warnings "-inexact-float".

(** *** Running totals *)

Lemma running_from_length acc col :
  List.length (cumsum_from acc col) = List.length col.
Proof.
  revert acc. induction col as [|x rest IH]; intro acc; cbn; [reflexivity|].
  rewrite IH. reflexivity.
Qed.

Lemma running_length col : List.length (cumsum col) = List.length col.
Proof.
  destruct col as [|x rest]; cbn; [reflexivity|].
  rewrite running_from_length. reflexivity.
Qed.

Lemma running_from_nth col acc i x :
  nth_error col i = Some x ->
  nth_error (cumsum_from acc col) i
  = Some (if is_nan x then nan
          else fold_left add (map fill (firstn (S i) col)) acc).
Proof.
  revert acc i. induction col as [|y rest IH]; intros acc [|i] H;
    try discriminate.
  - injection H as ->. cbn. unfold fill. destruct (is_nan x); reflexivity.
  - cbn [nth_error] in H. apply (IH (acc + fill y)) in H.
    cbn [cumsum_from nth_error]. rewrite H. reflexivity.
Qed.

(** The running total of a row includes the row itself. *)
Lemma running_nth col i x :
  nth_error col i = Some x ->
  nth_error (cumsum col) i
  = Some (if is_nan x then nan else running_total (firstn (S i) col)).
Proof.
  destruct col as [|y rest]; [destruct i; discriminate|].
  destruct i as [|i]; intro H.
  - injection H as ->. cbn. unfold fill. destruct (is_nan x); reflexivity.
  - cbn [nth_error] in H. apply (running_from_nth rest (fill y)) in H.
    cbn [cumsum nth_error]. rewrite H. reflexivity.
Qed.

(** *** The rows of the table *)

Section Rows.
Variable product : Type.
Variable SalesAmount : product -> float.
Variable sorted : list product.
Variable total : float.

Lemma abc_rows_products :
  map a_product (abc_rows SalesAmount sorted total) = sorted.
Proof.
  unfold abc_rows. rewrite map_map. cbn [a_product].
  assert (Hlen : List.length sorted
                 = List.length (cumulative_percentage (map SalesAmount sorted) total)).
  { unfold cumulative_percentage. rewrite length_map, running_length, length_map.
    reflexivity. }
  revert Hlen. generalize (cumulative_percentage (map SalesAmount sorted) total).
  induction sorted as [|p ps IH]; intros [|q qs] Hlen; try discriminate;
    [reflexivity|].
  cbn. f_equal. apply IH. cbn in Hlen. congruence.
Qed.

Lemma table_row_at i row :
  nth_error (abc_rows SalesAmount sorted total) i = Some row ->
  nth_error sorted i = Some (a_product row) /\
  CumulativePercentage row
  = percentage total
      (if is_nan (SalesAmount (a_product row)) then nan
       else running_total (firstn (S i) (map SalesAmount sorted))) /\
  ABC_Category row = abc_category (CumulativePercentage row).
Proof.
  unfold abc_rows. rewrite nth_error_map. intro H.
  destruct (nth_error (combine sorted
              (cumulative_percentage (map SalesAmount sorted) total)) i)
    as [[p q]|] eqn:E; [|discriminate].
  injection H as <-. cbn [a_product CumulativePercentage ABC_Category].
  pose proof (nth_error_In _ _ E) as Hin.
  assert (Hp : nth_error sorted i = Some p).
  { clear Hin. revert E.
    generalize (cumulative_percentage (map SalesAmount sorted) total).
    revert i. induction sorted as [|p' ps IH]; intros [|i] [|q' qs] E;
      try discriminate.
    - injection E as -> _. reflexivity.
    - cbn in E |- *. apply (IH i qs E). }
  assert (Hq : nth_error (cumulative_percentage (map SalesAmount sorted) total) i
               = Some q).
  { clear Hin Hp. revert E.
    generalize (cumulative_percentage (map SalesAmount sorted) total).
    revert i. induction sorted as [|p' ps IH]; intros [|i] [|q' qs] E;
      try discriminate.
    - injection E as _ ->. reflexivity.
    - cbn in E |- *. apply (IH i qs E). }
  split; [exact Hp|]. split; [|reflexivity].
  unfold cumulative_percentage in Hq. rewrite nth_error_map in Hq.
  rewrite (running_nth _ i (SalesAmount p)) in Hq
    by (rewrite nth_error_map, Hp; reflexivity).
  cbn [option_map] in Hq. congruence.
Qed.

End Rows.

(** *** The order of the rows *)

Lemma spec_lt_asym (a b : SpecFloat.spec_float) :
  SpecFloat.SFltb a b = true -> SpecFloat.SFltb b a = false.
Proof.
  unfold SpecFloat.SFltb, SpecFloat.SFcompare.
  destruct a as [sa|sa| |sa ma ea], b as [sb|sb| |sb mb eb];
    try destruct sa; try destruct sb; try discriminate; try reflexivity;
    rewrite (Z.compare_antisym ea eb);
    change (Pos.compare_cont Eq mb ma) with (Pos.compare mb ma);
    change (Pos.compare_cont Eq ma mb) with (Pos.compare ma mb);
    rewrite (Pos.compare_antisym ma mb);
    destruct (Z.compare ea eb); cbn; try discriminate; try reflexivity;
    destruct (Pos.compare ma mb); cbn; try discriminate; reflexivity.
Qed.

Lemma ltb_asym (x y : float) : (x <? y) = true -> (y <? x) = false.
Proof.
  rewrite !FloatAxioms.ltb_spec. apply spec_lt_asym.
Qed.

(** Of two revenues one may come before the other. *)
Lemma precedes_total (x y : float) :
  precedes x y = false -> precedes y x = true.
Proof.
  unfold precedes.
  destruct (is_nan y) eqn:Ey; [discriminate|].
  destruct (is_nan x) eqn:Ex; [reflexivity|].
  destruct (x <? y) eqn:L; [|discriminate].
  intros _. rewrite (ltb_asym x y L). reflexivity.
Qed.

Section Order.
Variable product : Type.
Variable SalesAmount : product -> float.

Lemma row_insert_permutation p sorted :
  Permutation (insert_desc SalesAmount p sorted) (p :: sorted).
Proof.
  induction sorted as [|p' rest IH]; cbn; [apply Permutation_refl|].
  destruct (precedes (SalesAmount p) (SalesAmount p')).
  - apply Permutation_refl.
  - apply (perm_trans (perm_skip p' IH)), perm_swap.
Qed.

Lemma row_sort_permutation ps :
  Permutation (sort_values_desc SalesAmount ps) ps.
Proof.
  induction ps as [|p ps IH]; cbn; [apply perm_nil|].
  apply (perm_trans (row_insert_permutation p _)), perm_skip, IH.
Qed.

Lemma row_insert_head a p sorted :
  precedes (SalesAmount a) (SalesAmount p) = true ->
  HdRel (fun a b => precedes (SalesAmount a) (SalesAmount b) = true) a sorted ->
  HdRel (fun a b => precedes (SalesAmount a) (SalesAmount b) = true) a
        (insert_desc SalesAmount p sorted).
Proof.
  intros Hp Hs. destruct sorted as [|p' rest]; cbn; [constructor; exact Hp|].
  destruct (precedes (SalesAmount p) (SalesAmount p')).
  - constructor. exact Hp.
  - constructor. inversion Hs; assumption.
Qed.

Lemma row_insert_descending p sorted :
  descending SalesAmount sorted ->
  descending SalesAmount (insert_desc SalesAmount p sorted).
Proof.
  unfold descending.
  induction 1 as [|p' rest Hs IH Hhd]; cbn; [repeat constructor|].
  destruct (precedes (SalesAmount p) (SalesAmount p')) eqn:E.
  - constructor; [constructor; assumption|constructor; exact E].
  - constructor; [exact IH|].
    apply row_insert_head; [apply precedes_total, E|exact Hhd].
Qed.

Lemma row_sort_descending ps :
  descending SalesAmount (sort_values_desc SalesAmount ps).
Proof.
  induction ps as [|p ps IH]; cbn; [constructor|].
  apply row_insert_descending, IH.
Qed.

End Order.

(** *** Sums of three values *)

Lemma terms_nonempty t : (1 <= List.length (terms t))%nat.
Proof.
  induction t as [x|l IHl r IHr]; cbn; [apply le_n|].
  rewrite length_app. apply (Nat.le_trans _ _ _ IHl), Nat.le_add_r.
Qed.

Lemma terms_one t : List.length (terms t) = 1%nat -> exists x, t = term x.
Proof.
  destruct t as [x|l r]; [eauto|]. cbn. rewrite length_app. intro H.
  pose proof (terms_nonempty l). pose proof (terms_nonempty r).
  exfalso. apply (Nat.lt_irrefl 1). rewrite <- H at 2.
  apply (Nat.lt_le_trans _ (1 + 1)); [apply Nat.lt_succ_diag_r|].
  apply Nat.add_le_mono; assumption.
Qed.

Lemma terms_two t :
  List.length (terms t) = 2%nat -> exists x y, t = plus (term x) (term y).
Proof.
  destruct t as [x|l r]; [discriminate|]. cbn. rewrite length_app. intro H.
  pose proof (terms_nonempty l) as Hl. pose proof (terms_nonempty r) as Hr.
  assert (El : List.length (terms l) = 1%nat) by lia.
  assert (Er : List.length (terms r) = 1%nat) by lia.
  destruct (terms_one l El) as (x & ->). destruct (terms_one r Er) as (y & ->).
  eauto.
Qed.

Lemma terms_three t :
  List.length (terms t) = 3%nat ->
  exists x y z,
    t = plus (term x) (plus (term y) (term z)) \/
    t = plus (plus (term x) (term y)) (term z).
Proof.
  destruct t as [x|l r]; [discriminate|]. cbn. rewrite length_app. intro H.
  pose proof (terms_nonempty l) as Hl. pose proof (terms_nonempty r) as Hr.
  assert (Hcases : (List.length (terms l) = 1 /\ List.length (terms r) = 2)%nat \/
                   (List.length (terms l) = 2 /\ List.length (terms r) = 1)%nat)
    by lia.
  destruct Hcases as [(El & Er)|(El & Er)].
  - destruct (terms_one l El) as (x & ->).
    destruct (terms_two r Er) as (y & z & ->). eauto.
  - destruct (terms_two l El) as (x & y & ->).
    destruct (terms_one r Er) as (z & ->). eauto 6.
Qed.

Lemma permutation_three {A} (x y z a b c : A) :
  Permutation [x; y; z] [a; b; c] ->
  (x, y, z) = (a, b, c) \/ (x, y, z) = (a, c, b) \/
  (x, y, z) = (b, a, c) \/ (x, y, z) = (b, c, a) \/
  (x, y, z) = (c, a, b) \/ (x, y, z) = (c, b, a).
Proof.
  intro H.
  assert (Hx : In x [a; b; c]) by (apply (Permutation_in _ H); left; reflexivity).
  destruct Hx as [<-|[<-|[<-|[]]]].
  - apply Permutation_cons_inv in H.
    apply Permutation_length_2_inv in H. destruct H as [[= -> ->]|[= -> ->]]; auto.
  - assert (H' : Permutation (b :: [y; z]) (b :: [a; c]))
      by (apply (perm_trans H), perm_swap).
    apply Permutation_cons_inv in H'.
    apply Permutation_length_2_inv in H'.
    destruct H' as [[= -> ->]|[= -> ->]]; auto 6.
  - assert (H' : Permutation (c :: [y; z]) (c :: [a; b])).
    { apply (perm_trans H).
      apply (perm_trans (perm_skip a (perm_swap c b []))), perm_swap. }
    apply Permutation_cons_inv in H'.
    apply Permutation_length_2_inv in H'.
    destruct H' as [[= -> ->]|[= -> ->]]; auto 7.
Qed.

(** In whatever order 600, 300 and 100 are added, the total is 1000. *)
Lemma total_600_300_100 total :
  adds_up [600; 300; 100] total -> total = 1000.
Proof.
  intros [(E & _)|(t & Hp & <-)]; [discriminate|].
  change (map fill [600; 300; 100]) with [600; 300; 100] in Hp.
  pose proof (Permutation_length Hp) as Hlen. cbn [List.length] in Hlen.
  destruct (terms_three t Hlen) as (x & y & z & [-> | ->]);
    cbn [terms app] in Hp;
    apply permutation_three in Hp;
    destruct Hp as [E|[E|[E|[E|[E|E]]]]]; injection E as -> -> ->;
    reflexivity.
Qed.



End AbcFloatFacts.
